(** * Overdraw optimizer (meshoptimizer, overdrawoptimizer.cpp)

    A shallow embedding of the overdraw optimizer and the properties of its
    cache simulation, boundary generators, cluster scorer and sequencer.

    Conventions of the embedding:
    - [unsigned int] values are integers in [Z]; every operation that can
      wrap is written with [wrap32];
    - [size_t] loop counters and buffer sizes are [nat];
    - [float] is IEEE 754 binary32, computed with the Standard Library's
      [SpecFloat] operations at precision 24 and maximal exponent 128;
    - buffers are lists, read with [!!] and written with [store]; a read or
      write outside the buffer, and a failed [assert], end the run with
      [None]. *)

From Stdlib Require Import ZArith List Lia ZifyNat Permutation.
From Stdlib Require Import Floats.SpecFloat.
From stdpp Require Import base option list sorting.

Local Open Scope Z_scope.

(** [lia] also decides goals with division and remainder by constants *)
Ltac Zify.zify_post_hook ::= Z.to_euclidean_division_equations.

(** ** Machine integers and buffers *)

Definition wrap32 (x : Z) : Z := x mod 4294967296.

Definition assert (b : bool) : option unit := if b then Some tt else None.

Definition store {A} (buf : list A) (i : nat) (v : A) : option (list A) :=
  if decide (i < length buf)%nat then Some (<[i := v]> buf) else None.

(** [for (i = i0; i < i0 + n; ++i) body] over a threaded state. *)
Fixpoint for_range {St} (n i : nat) (body : nat -> St -> option St) (s : St) : option St :=
  match n with
  | O => Some s
  | S n' => s' ← body i s; for_range n' (S i) body s'
  end.

(** ** binary32 arithmetic *)

Module F32.

Definition float := spec_float.

Definition prec : Z := 24.

Definition emax : Z := 128.

Definition zero : float := S754_zero false.

Definition add : float -> float -> float := SFadd prec emax.

Definition sub : float -> float -> float := SFsub prec emax.

Definition mul : float -> float -> float := SFmul prec emax.

Definition sqrt : float -> float := SFsqrt prec emax.

Definition eqb : float -> float -> bool := SFeqb.

Definition leb : float -> float -> bool := SFleb.

Definition ltb : float -> float -> bool := SFltb.

(** conversion of an integer, rounding to nearest even *)
Definition of_Z (z : Z) : float := binary_normalize prec emax z 0 false.

Definition of_nat (n : nat) : float := of_Z (Z.of_nat n).

Definition one : float := of_Z 1.

Definition three : float := of_Z 3.

Definition is_finite (x : float) : bool :=
  match x with S754_zero _ | S754_finite _ _ _ => true | _ => false end.

Definition is_zero (x : float) : bool :=
  match x with S754_zero _ => true | _ => false end.

(** [x / y]; a zero divisor is an error (C++ [expr.mul]: the behaviour of
    [/] is undefined when the second operand is zero) *)
Definition div (x y : float) : option float :=
  if is_zero y then None else Some (SFdiv prec emax x y).

End F32.

Abbreviation float := F32.float.

(** ** updateCache *)

Definition updateCache (a b c cache_size : Z) (cache_timestamps : list Z) (timestamp : Z)
  : option (Z * list Z * Z) :=
  let cache_misses := 0 in
  ta ← cache_timestamps !! Z.to_nat a;
  let '(cache_timestamps, timestamp, cache_misses) :=
    if cache_size <? wrap32 (timestamp - ta)
    then (<[Z.to_nat a := timestamp]> cache_timestamps, wrap32 (timestamp + 1), cache_misses + 1)
    else (cache_timestamps, timestamp, cache_misses) in
  tb ← cache_timestamps !! Z.to_nat b;
  let '(cache_timestamps, timestamp, cache_misses) :=
    if cache_size <? wrap32 (timestamp - tb)
    then (<[Z.to_nat b := timestamp]> cache_timestamps, wrap32 (timestamp + 1), cache_misses + 1)
    else (cache_timestamps, timestamp, cache_misses) in
  tc ← cache_timestamps !! Z.to_nat c;
  let '(cache_timestamps, timestamp, cache_misses) :=
    if cache_size <? wrap32 (timestamp - tc)
    then (<[Z.to_nat c := timestamp]> cache_timestamps, wrap32 (timestamp + 1), cache_misses + 1)
    else (cache_timestamps, timestamp, cache_misses) in
  Some (cache_misses, cache_timestamps, timestamp).

(** ** generateHardBoundaries *)

Record HardState := mkHard {
  hb_destination : list Z;
  hb_result : nat;
  hb_cache : list Z;
  hb_timestamp : Z
}.

Definition hardStep (indices : list Z) (cache_size : Z) (i : nat) (st : HardState)
  : option HardState :=
  a ← indices !! (i * 3 + 0)%nat;
  b ← indices !! (i * 3 + 1)%nat;
  c ← indices !! (i * 3 + 2)%nat;
  '(m, cache_timestamps, timestamp) ←
    updateCache a b c cache_size (hb_cache st) (hb_timestamp st);
  if (i =? 0)%nat || (m =? 3)
  then
    destination ← store (hb_destination st) (hb_result st) (wrap32 (Z.of_nat i));
    Some (mkHard destination (S (hb_result st)) cache_timestamps timestamp)
  else Some (mkHard (hb_destination st) (hb_result st) cache_timestamps timestamp).

Definition generateHardBoundaries (destination indices : list Z)
    (index_count vertex_count : nat) (cache_size : Z) : option (list Z * nat) :=
  let cache_timestamps := replicate vertex_count 0 in
  let timestamp := wrap32 (cache_size + 1) in
  let face_count := (index_count / 3)%nat in
  st ← for_range face_count 0 (hardStep indices cache_size)
         (mkHard destination 0 cache_timestamps timestamp);
  _ ← assert (hb_result st <=? index_count / 3)%nat;
  Some (hb_destination st, hb_result st).

(** ** generateSoftBoundaries *)

Record SoftState := mkSoft {
  sb_destination : list Z;
  sb_result : nat;
  sb_cache : list Z;
  sb_timestamp : Z
}.

(** first inner loop: measure the ACMR of the region *)
Definition measureStep (indices : list Z) (cache_size : Z) (i : nat)
    (st : list Z * Z * Z) : option (list Z * Z * Z) :=
  let '(cache_timestamps, timestamp, cluster_misses) := st in
  a ← indices !! (i * 3 + 0)%nat;
  b ← indices !! (i * 3 + 1)%nat;
  c ← indices !! (i * 3 + 2)%nat;
  '(m, cache_timestamps, timestamp) ←
    updateCache a b c cache_size cache_timestamps timestamp;
  Some (cache_timestamps, timestamp, wrap32 (cluster_misses + m)).

Record WalkState := mkWalk {
  wk_destination : list Z;
  wk_result : nat;
  wk_cache : list Z;
  wk_timestamp : Z;
  wk_running_misses : Z;
  wk_running_faces : Z
}.

(** second inner loop: cut the region where the running ACMR reaches the target *)
Definition walkStep (indices : list Z) (cache_size : Z) (cluster_threshold : float)
    (i : nat) (st : WalkState) : option WalkState :=
  a ← indices !! (i * 3 + 0)%nat;
  b ← indices !! (i * 3 + 1)%nat;
  c ← indices !! (i * 3 + 2)%nat;
  '(m, cache_timestamps, timestamp) ←
    updateCache a b c cache_size (wk_cache st) (wk_timestamp st);
  let running_misses := wrap32 (wk_running_misses st + m) in
  let running_faces := wrap32 (wk_running_faces st + 1) in
  rate ← F32.div (F32.of_Z running_misses) (F32.of_Z running_faces);
  if F32.leb rate cluster_threshold
  then
    destination ← store (wk_destination st) (wk_result st) (wrap32 (Z.of_nat (i + 1)));
    Some (mkWalk destination (S (wk_result st)) cache_timestamps
            (wrap32 (timestamp + wrap32 (cache_size + 1))) 0 0)
  else
    Some (mkWalk (wk_destination st) (wk_result st) cache_timestamps timestamp
            running_misses running_faces).

(** the part of the outer loop body before the trailing boundary is examined *)
Definition softRegionWalk (indices : list Z) (index_count : nat) (clusters : list Z)
    (cluster_count : nat) (cache_size : Z) (threshold : float) (it : nat) (st : SoftState)
  : option (nat * WalkState) :=
  start ← Z.to_nat <$> clusters !! it;
  end_ ← (if (it + 1 <? cluster_count)%nat
          then Z.to_nat <$> clusters !! (it + 1)%nat
          else Some (index_count / 3)%nat);
  _ ← assert (start <? end_)%nat;
  let timestamp := wrap32 (sb_timestamp st + wrap32 (cache_size + 1)) in
  let cluster_misses := 0 in
  '(cache_timestamps, timestamp, cluster_misses) ←
    for_range (end_ - start) start (measureStep indices cache_size)
      (sb_cache st, timestamp, cluster_misses);
  acmr ← F32.div (F32.of_Z cluster_misses) (F32.of_nat (end_ - start));
  let cluster_threshold := F32.mul threshold acmr in
  destination ← store (sb_destination st) (sb_result st) (wrap32 (Z.of_nat start));
  let result := S (sb_result st) in
  let timestamp := wrap32 (timestamp + wrap32 (cache_size + 1)) in
  w ← for_range (end_ - start) start (walkStep indices cache_size cluster_threshold)
        (mkWalk destination result cache_timestamps timestamp 0 0);
  Some (start, w).

(** [if (destination[result - 1] != start) result--;] *)
Definition popTrailing (start : nat) (w : WalkState) : option SoftState :=
  last ← wk_destination w !! (wk_result w - 1)%nat;
  let result :=
    if bool_decide (last ≠ Z.of_nat start) then (wk_result w - 1)%nat else wk_result w in
  Some (mkSoft (wk_destination w) result (wk_cache w) (wk_timestamp w)).

Definition softRegion (indices : list Z) (index_count : nat) (clusters : list Z)
    (cluster_count : nat) (cache_size : Z) (threshold : float) (it : nat) (st : SoftState)
  : option SoftState :=
  '(start, w) ← softRegionWalk indices index_count clusters cluster_count cache_size
                  threshold it st;
  popTrailing start w.

Definition generateSoftBoundaries (destination indices : list Z)
    (index_count vertex_count : nat) (clusters : list Z) (cluster_count : nat)
    (cache_size : Z) (threshold : float) : option (list Z * nat) :=
  let cache_timestamps := replicate vertex_count 0 in
  let timestamp := 0 in
  let result := 0%nat in
  st ← for_range cluster_count 0
         (softRegion indices index_count clusters cluster_count cache_size threshold)
         (mkSoft destination result cache_timestamps timestamp);
  _ ← assert (cluster_count <=? sb_result st)%nat;
  _ ← assert (sb_result st <=? index_count / 3)%nat;
  Some (sb_destination st, sb_result st).


(** ** calculateSortData *)

Record ClusterSortData := mkSortData {
  cluster : Z;
  dot_product : float
}.

(** [operator<]: high product = possible occluder, render early *)
Definition ClusterSortData_lt (x other : ClusterSortData) : bool :=
  F32.ltb (dot_product other) (dot_product x).

Definition vec3 : Type := float * float * float.

Definition vec3_zero : vec3 := (F32.zero, F32.zero, F32.zero).

(** the three floats at [vertex_positions + vertex_stride_float * index] *)
Definition position (vertex_positions : list float) (vertex_stride_float : nat) (index : Z)
  : option vec3 :=
  p0 ← vertex_positions !! (vertex_stride_float * Z.to_nat index + 0)%nat;
  p1 ← vertex_positions !! (vertex_stride_float * Z.to_nat index + 1)%nat;
  p2 ← vertex_positions !! (vertex_stride_float * Z.to_nat index + 2)%nat;
  Some (p0, p1, p2).

Definition centroidStep (indices : list Z) (vertex_positions : list float)
    (vertex_stride_float : nat) (i : nat) (mesh_centroid : vec3) : option vec3 :=
  let '(m0, m1, m2) := mesh_centroid in
  index ← indices !! i;
  '(p0, p1, p2) ← position vertex_positions vertex_stride_float index;
  Some (F32.add m0 p0, F32.add m1 p1, F32.add m2 p2).

(** body of the loop over the triangles of one cluster; [i] is the offset of
    the triangle in the index buffer *)
Definition accumulateStep (indices : list Z) (vertex_positions : list float)
    (vertex_stride_float : nat) (i : nat) (acc : float * vec3 * vec3)
  : option (float * vec3 * vec3) :=
  let '(cluster_area, (c0, c1, c2), (n0, n1, n2)) := acc in
  i0 ← indices !! (i + 0)%nat;
  i1 ← indices !! (i + 1)%nat;
  i2 ← indices !! (i + 2)%nat;
  '(p0x, p0y, p0z) ← position vertex_positions vertex_stride_float i0;
  '(p1x, p1y, p1z) ← position vertex_positions vertex_stride_float i1;
  '(p2x, p2y, p2z) ← position vertex_positions vertex_stride_float i2;
  let '(p10x, p10y, p10z) := (F32.sub p1x p0x, F32.sub p1y p0y, F32.sub p1z p0z) in
  let '(p20x, p20y, p20z) := (F32.sub p2x p0x, F32.sub p2y p0y, F32.sub p2z p0z) in
  let normalx := F32.sub (F32.mul p10y p20z) (F32.mul p10z p20y) in
  let normaly := F32.sub (F32.mul p10z p20x) (F32.mul p10x p20z) in
  let normalz := F32.sub (F32.mul p10x p20y) (F32.mul p10y p20x) in
  let area :=
    F32.sqrt (F32.add (F32.add (F32.mul normalx normalx) (F32.mul normaly normaly))
                (F32.mul normalz normalz)) in
  w ← F32.div area F32.three;
  Some (F32.add cluster_area area,
        (F32.add c0 (F32.mul (F32.add (F32.add p0x p1x) p2x) w),
         F32.add c1 (F32.mul (F32.add (F32.add p0y p1y) p2y) w),
         F32.add c2 (F32.mul (F32.add (F32.add p0z p1z) p2z) w)),
        (F32.add n0 normalx, F32.add n1 normaly, F32.add n2 normalz)).

(** what follows the accumulation loop: both reciprocals, the scaling of the
    centroid and of the normal, and the dot product; the result keeps the
    scaled centroid and normal next to the score *)
Definition clusterScore (cluster_area : float) (cluster_centroid cluster_normal : vec3)
    (mesh_centroid : vec3) : option (vec3 * vec3 * float) :=
  let '(c0, c1, c2) := cluster_centroid in
  let '(n0, n1, n2) := cluster_normal in
  let '(m0, m1, m2) := mesh_centroid in
  inv_cluster_area ←
    (if F32.eqb cluster_area F32.zero then Some F32.zero else F32.div F32.one cluster_area);
  let '(c0, c1, c2) :=
    (F32.mul c0 inv_cluster_area, F32.mul c1 inv_cluster_area, F32.mul c2 inv_cluster_area) in
  let cluster_normal_length :=
    F32.sqrt (F32.add (F32.add (F32.mul n0 n0) (F32.mul n1 n1)) (F32.mul n2 n2)) in
  inv_cluster_normal_length ←
    (if F32.eqb cluster_normal_length F32.zero then Some F32.zero
     else F32.div F32.one cluster_normal_length);
  let '(n0, n1, n2) :=
    (F32.mul n0 inv_cluster_normal_length, F32.mul n1 inv_cluster_normal_length,
     F32.mul n2 inv_cluster_normal_length) in
  let '(v0, v1, v2) := (F32.sub c0 m0, F32.sub c1 m1, F32.sub c2 m2) in
  Some ((c0, c1, c2), (n0, n1, n2),
        F32.add (F32.add (F32.mul v0 n0) (F32.mul v1 n1)) (F32.mul v2 n2)).

Definition sortDataStep (indices : list Z) (index_count : nat) (vertex_positions : list float)
    (vertex_stride_float : nat) (clusters : list Z) (cluster_count : nat)
    (mesh_centroid : vec3) (cluster : nat) (sort_data : list ClusterSortData)
  : option (list ClusterSortData) :=
  cluster_begin ← (fun c => Z.to_nat (wrap32 (c * 3))) <$> clusters !! cluster;
  cluster_end ← (if (cluster + 1 <? cluster_count)%nat
                 then (fun c => Z.to_nat (wrap32 (c * 3))) <$> clusters !! (cluster + 1)%nat
                 else Some index_count);
  _ ← assert (cluster_begin <? cluster_end)%nat;
  '(cluster_area, cluster_centroid, cluster_normal) ←
    for_range ((cluster_end - cluster_begin + 2) / 3) 0
      (fun k => accumulateStep indices vertex_positions vertex_stride_float
                  (cluster_begin + 3 * k))
      (F32.zero, vec3_zero, vec3_zero);
  '(_, _, dot) ← clusterScore cluster_area cluster_centroid cluster_normal mesh_centroid;
  store sort_data cluster (mkSortData (wrap32 (Z.of_nat cluster)) dot).

Definition calculateSortData (sort_data : list ClusterSortData) (indices : list Z)
    (index_count : nat) (vertex_positions : list float) (vertex_positions_stride : nat)
    (clusters : list Z) (cluster_count : nat) : option (list ClusterSortData) :=
  let vertex_stride_float := (vertex_positions_stride / 4)%nat in
  '(m0, m1, m2) ← for_range index_count 0
                    (centroidStep indices vertex_positions vertex_stride_float) vec3_zero;
  m0 ← F32.div m0 (F32.of_nat index_count);
  m1 ← F32.div m1 (F32.of_nat index_count);
  m2 ← F32.div m2 (F32.of_nat index_count);
  for_range cluster_count 0
    (sortDataStep indices index_count vertex_positions vertex_stride_float clusters
       cluster_count (m0, m1, m2))
    sort_data.

(** ** meshopt_optimizeOverdraw *)

(** where the [indices] argument points: at [destination] itself, or at a
    buffer of its own *)
Inductive IndexArg :=
  | SameAsDestination
  | OtherBuffer (indices : list Z).

Definition copyStep (indices : list Z) (i : nat) (st : list Z * nat) : option (list Z * nat) :=
  let '(destination, offset) := st in
  x0 ← indices !! (3 * i + 0)%nat;
  destination ← store destination offset x0;
  let offset := S offset in
  x1 ← indices !! (3 * i + 1)%nat;
  destination ← store destination offset x1;
  let offset := S offset in
  x2 ← indices !! (3 * i + 2)%nat;
  destination ← store destination offset x2;
  let offset := S offset in
  Some (destination, offset).

Definition emitStep (indices : list Z) (index_count : nat) (clusters : list Z)
    (cluster_count : nat) (sort_data : list ClusterSortData) (it : nat)
    (st : list Z * nat) : option (list Z * nat) :=
  cluster ← (fun d => Z.to_nat (cluster d)) <$> sort_data !! it;
  _ ← assert (cluster <? cluster_count)%nat;
  start ← Z.to_nat <$> clusters !! cluster;
  end_ ← (if (cluster + 1 <? cluster_count)%nat
          then Z.to_nat <$> clusters !! (cluster + 1)%nat
          else Some (index_count / 3)%nat);
  _ ← assert (start <? end_)%nat;
  for_range (end_ - start) start (copyStep indices) st.

Section Overdraw.

(** [std::sort] over the score array: the library routine is not part of
    this file; it is a parameter of the entry point. *)
Variable std_sort : list ClusterSortData -> list ClusterSortData.

Definition meshopt_optimizeOverdraw (destination : list Z) (indices_arg : IndexArg)
    (index_count : nat) (vertex_positions : list float) (vertex_count : nat)
    (vertex_positions_stride : nat) (cache_size : Z) (threshold : float)
  : option (list Z) :=
  _ ← assert (index_count mod 3 =? 0)%nat;
  _ ← assert ((0 <? vertex_positions_stride)%nat && (vertex_positions_stride <=? 256)%nat);
  _ ← assert (vertex_positions_stride mod 4 =? 0)%nat;
  _ ← assert (3 <=? cache_size);
  if (index_count =? 0)%nat || (vertex_count =? 0)%nat then Some destination else
  let indices :=
    match indices_arg with
    | SameAsDestination => take index_count destination
    | OtherBuffer indices => indices
    end in
  let hard_clusters := replicate (index_count / 3) 0 in
  '(hard_clusters, hard_cluster_count) ←
    generateHardBoundaries hard_clusters indices index_count vertex_count cache_size;
  let soft_clusters := replicate (index_count / 3 + 1) 0 in
  '(soft_clusters, soft_cluster_count) ←
    generateSoftBoundaries soft_clusters indices index_count vertex_count
      hard_clusters hard_cluster_count cache_size threshold;
  let clusters := soft_clusters in
  let cluster_count := soft_cluster_count in
  let sort_data := replicate cluster_count (mkSortData 0 F32.zero) in
  sort_data ← calculateSortData sort_data indices index_count vertex_positions
                vertex_positions_stride clusters cluster_count;
  let sort_data := std_sort sort_data in
  let offset := 0%nat in
  '(destination, offset) ←
    for_range cluster_count 0
      (emitStep indices index_count clusters cluster_count sort_data)
      (destination, offset);
  _ ← assert (offset =? index_count)%nat;
  Some destination.

End Overdraw.

(** * Specification-level definitions *)

(** ** The cache simulation of the data model *)

Definition tri : Type := Z * Z * Z.

(** cache timestamps and the global timestamp *)
Definition sim : Type := list Z * Z.

Definition last_used (s : sim) (v : Z) : Z := default 0 (s.1 !! Z.to_nat v).

(** a vertex is a hit iff [timestamp - last_used[v] <= cache_size] *)
Definition cache_hit (cache_size : Z) (s : sim) (v : Z) : Prop :=
  wrap32 (s.2 - last_used s v) <= cache_size.

#[global] Instance cache_hit_dec cache_size s v : Decision (cache_hit cache_size s v).
Proof. unfold cache_hit. apply _. Defined.

(** one test: a hit leaves the state alone, a miss stamps the vertex with the
    current timestamp and advances the timestamp by one; the flag tells a miss *)
Definition access (cache_size : Z) (s : sim) (v : Z) : bool * sim :=
  if decide (cache_hit cache_size s v) then (false, s)
  else (true, (<[Z.to_nat v := s.2]> (s.1), wrap32 (s.2 + 1))).

(** the three tests of a triangle, in the order a, b, c *)
Definition tri_access (cache_size : Z) (s : sim) (t : tri) : (bool * bool * bool) * sim :=
  let '(a, b, c) := t in
  let '(ma, s1) := access cache_size s a in
  let '(mb, s2) := access cache_size s1 b in
  let '(mc, s3) := access cache_size s2 c in
  ((ma, mb, mc), s3).

Definition miss_count (m : bool * bool * bool) : Z :=
  let '(ma, mb, mc) := m in Z.b2z ma + Z.b2z mb + Z.b2z mc.

Definition all_miss (m : bool * bool * bool) : bool :=
  let '(ma, mb, mc) := m in ma && mb && mc.

(** ** Triangles of an index buffer, simulation over a triangle list *)

Fixpoint triangles (l : list Z) : list tri :=
  match l with
  | a :: b :: c :: r => (a, b, c) :: triangles r
  | _ => []
  end.

Definition sim_step (cache_size : Z) (s : sim) (t : tri) : sim := (tri_access cache_size s t).2.

Definition sim_run (cache_size : Z) (s : sim) (ts : list tri) : sim :=
  foldl (sim_step cache_size) s ts.

(** the outcome of the three tests of triangle [i] in one simulation that
    starts in [s0] and runs over the triangles in order *)
Definition flags_at (cache_size : Z) (s0 : sim) (tris : list tri) (i : nat)
  : option (bool * bool * bool) :=
  t ← tris !! i; Some (tri_access cache_size (sim_run cache_size s0 (take i tris)) t).1.

Definition in_range (vertex_count : nat) (t : tri) : Prop :=
  (0 <= t.1.1 < Z.of_nat vertex_count) /\ (0 <= t.1.2 < Z.of_nat vertex_count)
  /\ (0 <= t.2 < Z.of_nat vertex_count).

(** the inputs the entry point accepts: whole triangles, every index below
    [vertex_count], and an index count that fits the 32-bit type in which
    cluster boundaries and their offsets in the index buffer are computed *)
Record valid_input (indices : list Z) (index_count vertex_count : nat) : Prop := mkValid {
  vi_length : length indices = index_count;
  vi_triangles : (index_count mod 3 = 0)%nat;
  vi_range : Forall (fun v => 0 <= v < Z.of_nat vertex_count) indices;
  vi_count : Z.of_nat index_count < 4294967296
}.

(** ** Hard boundaries *)

(** the state in which [generateHardBoundaries] starts its simulation *)
Definition hard_start (vertex_count : nat) (cache_size : Z) : sim :=
  (replicate vertex_count 0, wrap32 (cache_size + 1)).

(** triangle [i] starts a hard region: it is the first triangle, or its three
    vertices all miss *)
Definition is_hard (cache_size : Z) (s0 : sim) (tris : list tri) (i : nat) : Prop :=
  i = 0%nat \/ all_miss <$> flags_at cache_size s0 tris i = Some true.

#[global] Instance is_hard_dec cs s0 tris i : Decision (is_hard cs s0 tris i).
Proof. unfold is_hard. apply _. Defined.

Definition hard_boundaries (cache_size : Z) (vertex_count : nat) (tris : list tri) : list nat :=
  filter (is_hard cache_size (hard_start vertex_count cache_size) tris) (seq 0 (length tris)).

(** what holds before round [i] of the loop of [generateHardBoundaries] *)
Definition hard_inv (destination : list Z) (cache_size : Z) (s0 : sim) (tris : list tri)
    (i : nat) (st : HardState) : Prop :=
    length (hb_destination st) = length destination /\
    hb_result st = length (filter (is_hard cache_size s0 tris) (seq 0 i)) /\
    take (hb_result st) (hb_destination st)
      = Z.of_nat <$> filter (is_hard cache_size s0 tris) (seq 0 i) /\
    drop (hb_result st) (hb_destination st) = drop (hb_result st) destination /\
    (hb_cache st, hb_timestamp st) = sim_run cache_size s0 (take i tris).

(** ** Soft boundaries *)

(** [timestamp += cache_size + 1] *)
Definition reset_cache (cache_size : Z) (s : sim) : sim :=
  (s.1, wrap32 (s.2 + wrap32 (cache_size + 1))).

(** a cache is cold when every vertex would miss *)
Definition cold (cache_size : Z) (s : sim) : Prop :=
  forall v, 0 <= v < Z.of_nat (length s.1) -> ~ cache_hit cache_size s v.

(** the misses of one simulation over [ts], summed as an [unsigned int] *)
Fixpoint total_misses (cache_size : Z) (s : sim) (total : Z) (ts : list tri) : Z * sim :=
  match ts with
  | [] => (total, s)
  | t :: r =>
      total_misses cache_size (sim_step cache_size s t)
        (wrap32 (total + miss_count (tri_access cache_size s t).1)) r
  end.

Definition fdiv (x y : float) : float := SFdiv F32.prec F32.emax x y.

(** running miss count divided by running triangle count *)
Definition miss_rate (misses faces : Z) : float := fdiv (F32.of_Z misses) (F32.of_Z faces).

(** the second walk over a region whose first triangle has index [i]: the
    boundaries it emits, and the state of the simulation at the end *)
Fixpoint soft_walk (cache_size : Z) (cluster_threshold : float) (i : nat)
    (running_misses running_faces : Z) (s : sim) (ts : list tri) : list nat * sim :=
  match ts with
  | [] => ([], s)
  | t :: r =>
      let s' := sim_step cache_size s t in
      let running_misses := wrap32 (running_misses + miss_count (tri_access cache_size s t).1) in
      let running_faces := wrap32 (running_faces + 1) in
      if F32.leb (miss_rate running_misses running_faces) cluster_threshold
      then
        let r' := soft_walk cache_size cluster_threshold (S i) 0 0 (reset_cache cache_size s') r in
        (S i :: r'.1, r'.2)
      else soft_walk cache_size cluster_threshold (S i) running_misses running_faces s' r
  end.

(** [cluster_threshold = threshold * (total_misses / region_triangle_count)] *)
Definition region_threshold (cache_size : Z) (threshold : float) (s : sim) (region : list tri)
  : float :=
  F32.mul threshold
    (fdiv (F32.of_Z (total_misses cache_size (reset_cache cache_size s) 0 region).1)
          (F32.of_nat (length region))).

(** all the boundaries a region [start, end_) emits, before the trailing one
    is examined: [start] first, then those of the walk *)
Definition soft_region (cache_size : Z) (threshold : float) (tris : list tri)
    (start end_ : nat) (s : sim) : list nat * sim :=
  let region := take (end_ - start) (drop start tris) in
  let s2 := (total_misses cache_size (reset_cache cache_size s) 0 region).2 in
  let w := soft_walk cache_size (region_threshold cache_size threshold s region) start 0 0
             (reset_cache cache_size s2) region in
  (start :: w.1, w.2).

(** the merge rule: remove the trailing boundary unless it equals the
    region's own start *)
Definition pop_trailing (start : nat) (emitted : list nat) : list nat :=
  if decide (last emitted = Some start) then emitted else removelast emitted.

(** the end of the region that starts the list [B]: the next boundary, or the
    triangle count *)
Definition region_end (B' : list nat) (face_count : nat) : nat :=
  match B' with
  | [] => face_count
  | b :: _ => b
  end.

Fixpoint soft_boundaries_from (cache_size : Z) (threshold : float) (tris : list tri)
    (B : list nat) (s : sim) : list nat :=
  match B with
  | [] => []
  | b :: B' =>
      let r := soft_region cache_size threshold tris b (region_end B' (length tris)) s in
      pop_trailing b r.1 ++ soft_boundaries_from cache_size threshold tris B' r.2
  end.

Definition soft_boundaries (cache_size : Z) (threshold : float) (vertex_count : nat)
    (tris : list tri) (B : list nat) : list nat :=
  soft_boundaries_from cache_size threshold tris B (replicate vertex_count 0, 0).

(** ** The cluster scorer *)

(** every vertex has its three coordinates inside the position buffer *)
Definition positions_ok (vertex_positions : list float) (vertex_stride_float vertex_count : nat)
  : Prop :=
  forall v : nat, (v < vertex_count)%nat ->
    (vertex_stride_float * v + 2 < length vertex_positions)%nat.

Definition scale (v : vec3) (k : float) : vec3 :=
  (F32.mul v.1.1 k, F32.mul v.1.2 k, F32.mul v.2 k).

Definition norm (v : vec3) : float :=
  F32.sqrt (F32.add (F32.add (F32.mul v.1.1 v.1.1) (F32.mul v.1.2 v.1.2)) (F32.mul v.2 v.2)).

Definition dot (u v : vec3) : float :=
  F32.add (F32.add (F32.mul u.1.1 v.1.1) (F32.mul u.1.2 v.1.2)) (F32.mul u.2 v.2).

Definition vsub (u v : vec3) : vec3 :=
  (F32.sub u.1.1 v.1.1, F32.sub u.1.2 v.1.2, F32.sub u.2 v.2).

Definition reciprocal_or_zero (x : float) : float :=
  if F32.is_zero x then F32.zero else fdiv F32.one x.

(** ** The cluster sequencer *)

(** the index buffer the entry point reads: a copy of the first
    [index_count] elements of the destination when the two buffers are the
    same, the buffer of its own otherwise *)
Definition input_indices (indices_arg : IndexArg) (destination : list Z) (index_count : nat)
  : list Z :=
  match indices_arg with
  | SameAsDestination => take index_count destination
  | OtherBuffer indices => indices
  end.

(** the index buffer of a triangle list *)
Definition untriangles (ts : list tri) : list Z :=
  ts ≫= (fun t => [t.1.1; t.1.2; t.2]).

(** the triangles of cluster [c] of the boundary list [S] *)
Definition chunk (tris : list tri) (S : list nat) (c : nat) : list tri :=
  match drop c S with
  | b :: B' => take (region_end B' (length tris) - b) (drop b tris)
  | [] => []
  end.

(** what holds before round [it] of the output loop, [ids] being the cluster
    numbers in the order the sort left them *)
Definition emit_inv (index_count : nat) (tris : list tri) (S : list nat) (ids : list nat)
    (destination : list Z) (it : nat) (st : list Z * nat) : Prop :=
  length st.1 = length destination /\
  st.2 = (3 * length (take it ids ≫= chunk tris S))%nat /\
  triangles (take st.2 st.1) = take it ids ≫= chunk tris S /\
  drop index_count st.1 = drop index_count destination.

(** ** The claims about one region

    region [it] of the boundary list [B] that [clusters] holds starts at [b]
    and ends at [e]; the simulation state has one entry per vertex and the
    output buffer has room for the boundaries of the region *)
Record region_ready (indices : list Z) (index_count vertex_count : nat) (clusters : list Z)
    (cluster_count : nat) (B : list nat) (it b e : nat) (st : SoftState) : Prop := mkReady {
  rr_valid : valid_input indices index_count vertex_count;
  rr_clusters : take cluster_count clusters = Z.of_nat <$> B;
  rr_count : length B = cluster_count;
  rr_start : B !! it = Some b;
  rr_end : e = region_end (drop (it + 1) B) (index_count / 3);
  rr_bounds : (b < e <= index_count / 3)%nat;
  rr_cache : length (sb_cache st) = vertex_count;
  rr_room : (sb_result st + (e - b) < length (sb_destination st))%nat
}.

(** the merge rule as C5 words it: the trailing boundary is dropped only
    when it differs from the region start and it equals the region end *)
Definition dropped_only_at_region_end : Prop :=
  forall indices index_count vertex_count clusters cluster_count B it b e st
         (cache_size : Z) (threshold : float) (w : WalkState) (st' : SoftState) (trailing : nat),
    region_ready indices index_count vertex_count clusters cluster_count B it b e st ->
    softRegionWalk indices index_count clusters cluster_count cache_size threshold it st
      = Some (b, w) ->
    wk_destination w !! (wk_result w - 1)%nat = Some (Z.of_nat trailing) ->
    popTrailing b w = Some st' ->
    sb_result st' = (wk_result w - 1)%nat ->
    trailing <> b /\ trailing = e.

(** the claim of C4 about the first simulation of a region: it starts from
    a cold cache *)
Definition first_simulation_cold : Prop :=
  forall indices index_count vertex_count clusters cluster_count B it b e st (cache_size : Z),
    region_ready indices index_count vertex_count clusters cluster_count B it b e st ->
    3 <= cache_size < 4294967296 ->
    cold cache_size (reset_cache cache_size (sb_cache st, sb_timestamp st)).

(** ** The claim about degenerate clusters *)

Definition finite3 (v : vec3) : Prop :=
  F32.is_finite v.1.1 = true /\ F32.is_finite v.1.2 = true /\ F32.is_finite v.2 = true.

Definition zero3 (v : vec3) : Prop :=
  F32.is_zero v.1.1 = true /\ F32.is_zero v.1.2 = true /\ F32.is_zero v.2 = true.

(** the reading of C8 under which a zero area, or a zero normal magnitude,
    makes the corresponding scaled term zero *)
Definition degenerate_terms_zero : Prop :=
  forall (cluster_area : float) (cluster_centroid cluster_normal mesh_centroid c n : vec3)
         (score : float),
    clusterScore cluster_area cluster_centroid cluster_normal mesh_centroid
      = Some (c, n, score) ->
    (F32.is_zero cluster_area = true -> zero3 c) /\
    (F32.is_zero (norm cluster_normal) = true -> zero3 n).

(** ** The order of the scores *)

(** the rank of a score in the order that [SFcompare] decides; NaN has none *)
Definition score_key (x : float) : option (Z * Z * Z) :=
  match x with
  | S754_nan => None
  | S754_infinity true => Some (-2, 0, 0)
  | S754_infinity false => Some (2, 0, 0)
  | S754_zero _ => Some (0, 0, 0)
  | S754_finite true m e => Some (-1, - e, - Z.pos m)
  | S754_finite false m e => Some (1, e, Z.pos m)
  end.

Definition key_compare (k k' : Z * Z * Z) : comparison :=
  match k.1.1 ?= k'.1.1 with
  | Eq => match k.1.2 ?= k'.1.2 with Eq => k.2 ?= k'.2 | r => r end
  | r => r
  end.

Definition score_nan (d : ClusterSortData) : bool :=
  match dot_product d with S754_nan => true | _ => false end.

(** neither element is ordered before the other *)
Definition incomparable (x y : ClusterSortData) : Prop :=
  ClusterSortData_lt x y = false /\ ClusterSortData_lt y x = false.

(** ** A threshold that is not a number *)

Definition threshold_nan (x : float) : bool :=
  match x with S754_nan => true | _ => false end.

(** ** Timestamps that have not wrapped *)

(** the global timestamp is at most [K] and every stored timestamp lies
    between 0 and the global one *)
Definition stamps_bounded (K : Z) (s : sim) : Prop :=
  0 <= s.2 <= K /\ Forall (fun x => 0 <= x <= s.2) s.1.

(** what holds before round [it] of the outer loop of [generateSoftBoundaries]
    as long as [(3 * cache_size + 9) * face_count] stays below 2^32 *)
Definition soft_inv (destination : list Z) (vertex_count : nat) (cache_size : Z)
    (face_count : nat) (B : list nat) (it : nat) (st : SoftState) : Prop :=
  length (sb_destination st) = length destination /\
  (sb_result st <= region_end (drop it B) face_count)%nat /\
  length (sb_cache st) = vertex_count /\
  stamps_bounded ((3 * cache_size + 9) * Z.of_nat (region_end (drop it B) face_count))
    (sb_cache st, sb_timestamp st).

(** every reset of the second walk, the one at each emission, leaves no vertex
    in the cache *)
Fixpoint resets_cold (cache_size : Z) (cluster_threshold : float)
    (running_misses running_faces : Z) (s : sim) (ts : list tri) : Prop :=
  match ts with
  | [] => True
  | t :: r =>
      let s' := sim_step cache_size s t in
      let running_misses := wrap32 (running_misses + miss_count (tri_access cache_size s t).1) in
      let running_faces := wrap32 (running_faces + 1) in
      if F32.leb (miss_rate running_misses running_faces) cluster_threshold
      then cold cache_size (reset_cache cache_size s')
           /\ resets_cold cache_size cluster_threshold 0 0 (reset_cache cache_size s') r
      else resets_cold cache_size cluster_threshold running_misses running_faces s' r
  end.

(** two simulation states in which every vertex has the same age, or is out
    of the cache in both; no timestamp has wrapped in either *)
Definition same_ages (cs K : Z) (s s' : sim) : Prop :=
  stamps_bounded K s /\ stamps_bounded K s' /\ length s.1 = length s'.1 /\
  forall (i : nat) (x x' : Z), s.1 !! i = Some x -> s'.1 !! i = Some x' ->
    s.2 - x = s'.2 - x' \/ (cs < s.2 - x /\ cs < s'.2 - x').

(** ** Concrete inputs *)

(** two patches, five triangles, seven vertices *)
Definition mesh_indices : list Z := [0; 1; 2;  0; 1; 2;  0; 1; 2;  0; 1; 3;  4; 5; 6].

Definition mesh_positions : list float :=
  F32.of_Z <$> [0; 0; 0;  1; 0; 0;  0; 1; 0;  0; 0; 1;  5; 5; 5;  6; 5; 5;  5; 5; 6].

(** one region of four triangles over four vertices, and the state in which
    [generateSoftBoundaries] enters it *)
Definition walk_indices : list Z := [0; 1; 2;  0; 1; 2;  0; 1; 2;  0; 1; 3].

Definition walk_start : SoftState := mkSoft (replicate 5 0) 0 (replicate 4 0) 0.

(** the largest finite binary32 number *)
Definition flt_max : float := S754_finite false 16777215 104.

(** one triangle whose three vertices sit at the same far-away point *)
Definition far_positions : list float :=
  [flt_max; F32.zero; F32.zero;  flt_max; F32.zero; F32.zero;  flt_max; F32.zero; F32.zero].

(** an insertion sort with [operator<], one admissible [std::sort] *)
Fixpoint insert_sorted (x : ClusterSortData) (l : list ClusterSortData) : list ClusterSortData :=
  match l with
  | [] => [x]
  | y :: l' => if ClusterSortData_lt y x then y :: insert_sorted x l' else x :: l
  end.

Definition insertion_sort (l : list ClusterSortData) : list ClusterSortData :=
  foldr insert_sorted [] l.

(** the boundary buffers of [mesh_indices] after the two passes *)
Definition mesh_hard_clusters : list Z := [0; 4; 0; 0; 0].

Definition mesh_soft_clusters : list Z := [0; 4; 5; 0; 0; 0].

(** * Facts about the model *)

(** ** Basic facts *)

Lemma wrap32_small x : 0 <= x < 4294967296 -> wrap32 x = x.
Proof. intros H. unfold wrap32. apply Z.mod_small. exact H. Qed.

Lemma wrap32_of_nat (n : nat) : (Z.of_nat n < 4294967296) -> wrap32 (Z.of_nat n) = Z.of_nat n.
Proof. intros H. apply wrap32_small. lia. Qed.

Lemma assert_Some b : assert b = Some tt <-> b = true.
Proof. destruct b; simpl; split; congruence. Qed.

Lemma store_Some {A} (buf : list A) i v :
  (i < length buf)%nat -> store buf i v = Some (<[i := v]> buf).
Proof. intros H. unfold store. destruct (decide _); [reflexivity | lia]. Qed.

Lemma for_range_S {St} n i (body : nat -> St -> option St) s :
  for_range (S n) i body s = body i s ≫= for_range n (S i) body.
Proof. reflexivity. Qed.

(** the invariant rule of the loop *)
Lemma for_range_inv {St} (P : nat -> St -> Prop) n i0 (body : nat -> St -> option St) s :
  P i0 s ->
  (forall i s, (i0 <= i < i0 + n)%nat -> P i s -> exists s', body i s = Some s' /\ P (S i) s') ->
  exists s', for_range n i0 body s = Some s' /\ P (i0 + n)%nat s'.
Proof.
  revert i0 s. induction n as [|n IH]; intros i0 s H0 Hstep.
  - exists s. rewrite Nat.add_0_r. split; [reflexivity | exact H0].
  - destruct (Hstep i0 s) as (s1 & Hb & H1); [lia | exact H0 |].
    destruct (IH (S i0) s1 H1) as (s' & Hr & HP).
    + intros i s2 Hi. apply Hstep. lia.
    + exists s'. rewrite for_range_S, Hb. simpl. split; [exact Hr|].
      replace (i0 + S n)%nat with (S i0 + n)%nat by lia. exact HP.
Qed.

(** ** Conversion of a positive integer to binary32 never gives a zero *)

Module F32Facts.
Import F32.

Lemma digits2_pos_lower (p : positive) :
  2 ^ (Z.pos (digits2_pos p) - 1) <= Z.pos p.
Proof.
  induction p as [p IH | p IH |]; simpl digits2_pos.
  - rewrite Pos2Z.inj_succ. replace (Z.succ (Z.pos (digits2_pos p)) - 1)
      with (Z.succ (Z.pos (digits2_pos p) - 1)) by lia.
    rewrite Z.pow_succ_r by lia. lia.
  - rewrite Pos2Z.inj_succ. replace (Z.succ (Z.pos (digits2_pos p)) - 1)
      with (Z.succ (Z.pos (digits2_pos p) - 1)) by lia.
    rewrite Z.pow_succ_r by lia. lia.
  - simpl. lia.
Qed.

Lemma shr_1_m (r : shr_record) : 0 <= shr_m r -> shr_m (shr_1 r) = shr_m r / 2.
Proof.
  destruct r as [m rb sb]. simpl. intros Hm.
  destruct m as [|p|p]; [reflexivity | | lia].
  destruct p as [p|p|]; simpl shr_m.
  - rewrite Pos2Z.inj_xI. apply Z.div_unique with (r := 1); lia.
  - rewrite Pos2Z.inj_xO. apply Z.div_unique with (r := 0); lia.
  - reflexivity.
Qed.

Lemma iter_shr_1_m (n : positive) : forall r : shr_record,
  0 <= shr_m r -> shr_m (SpecFloat.iter_pos shr_1 n r) = shr_m r / 2 ^ Z.pos n.
Proof.
  induction n as [n IH | n IH |]; intros r Hr; simpl SpecFloat.iter_pos.
  - assert (H1 : 0 <= shr_m (shr_1 r)).
    { rewrite shr_1_m by exact Hr. apply Z.div_pos; lia. }
    assert (H2 : 0 <= shr_m (SpecFloat.iter_pos shr_1 n (shr_1 r))).
    { rewrite IH by exact H1. apply Z.div_pos; [exact H1 | apply Z.pow_pos_nonneg; lia]. }
    rewrite IH by exact H2. rewrite IH by exact H1. rewrite shr_1_m by exact Hr.
    rewrite !Z.div_div by (try apply Z.pow_pos_nonneg; lia).
    f_equal. replace (Z.pos n~1) with (1 + Z.pos n + Z.pos n) by lia.
    rewrite !Z.pow_add_r by lia. rewrite Z.pow_1_r. lia.
  - assert (H2 : 0 <= shr_m (SpecFloat.iter_pos shr_1 n r)).
    { rewrite IH by exact Hr. apply Z.div_pos; [exact Hr | apply Z.pow_pos_nonneg; lia]. }
    rewrite IH by exact H2. rewrite IH by exact Hr.
    rewrite !Z.div_div by (try apply Z.pow_pos_nonneg; lia).
    f_equal. replace (Z.pos n~0) with (Z.pos n + Z.pos n) by lia.
    rewrite !Z.pow_add_r by lia. reflexivity.
  - rewrite shr_1_m by exact Hr. reflexivity.
Qed.

(** shifting to the format's exponent keeps a positive mantissa positive
  as long as the exponent is not below the smallest one *)
Lemma shr_fexp_pos (m : positive) (e : Z) (l : location) :
  emin prec emax <= e ->
  exists m' e', shr_fexp prec emax (Z.pos m) e l = (m', e')
    /\ 0 < shr_m m' /\ emin prec emax <= e'.
Proof.
  intros He. unfold shr_fexp, shr. simpl Zdigits2.
  set (n := fexp prec emax (Z.pos (digits2_pos m) + e) - e).
  assert (Hn : n <= Z.pos (digits2_pos m) - 1).
  { unfold n, fexp, prec in *. lia. }
  destruct n as [|k|k] eqn:En.
  - eexists _, _. split; [reflexivity|]. split; [destruct l as [|[]]; simpl; lia | exact He].
  - eexists _, _. split; [reflexivity|]. split; [| lia].
    rewrite iter_shr_1_m by (destruct l as [|[]]; simpl; lia).
    replace (shr_m (shr_record_of_loc (Z.pos m) l)) with (Z.pos m)
      by (destruct l as [|[]]; reflexivity).
    apply Z.div_str_pos. split; [apply Z.pow_pos_nonneg; lia|].
    pose proof (digits2_pos_lower m) as Hd.
    assert (2 ^ Z.pos k <= 2 ^ (Z.pos (digits2_pos m) - 1)) by (apply Z.pow_le_mono_r; lia).
    lia.
  - eexists _, _. split; [reflexivity|]. split; [destruct l as [|[]]; simpl; lia | exact He].
Qed.

Lemma binary_round_aux_nonzero (sx : bool) (m : positive) (e : Z) (l : location) :
  emin prec emax <= e ->
  is_zero (binary_round_aux prec emax sx (Z.pos m) e l) = false.
Proof.
  intros He. unfold binary_round_aux.
  destruct (shr_fexp_pos m e l He) as (m1 & e1 & -> & Hm1 & He1).
  set (m2 := round_nearest_even (shr_m m1) (loc_of_shr_record m1)).
  assert (Hm2 : 0 < m2).
  { unfold m2, round_nearest_even.
    destruct (loc_of_shr_record m1) as [|[]]; try lia.
    destruct (Z.even (shr_m m1)); lia. }
  destruct m2 as [|p2|p2]; try lia.
  destruct (shr_fexp_pos p2 e1 loc_Exact He1) as (m3 & e3 & -> & Hm3 & He3).
  destruct (shr_m m3) as [|p3|p3]; try lia.
  destruct (e3 <=? emax - prec); reflexivity.
Qed.

Lemma of_Z_pos_nonzero (z : Z) : 0 < z -> is_zero (of_Z z) = false.
Proof.
  intros Hz. destruct z as [|p|p]; try lia.
  unfold of_Z, binary_normalize, binary_round, shl_align.
  set (e' := fexp prec emax (Z.pos (digits2_pos p) + 0)).
  assert (He' : emin prec emax <= e') by (unfold e', fexp; lia).
  destruct (e' - 0) as [|d|d] eqn:Ed.
  - apply binary_round_aux_nonzero. unfold emin, prec, emax. lia.
  - apply binary_round_aux_nonzero. unfold emin, prec, emax. lia.
  - apply binary_round_aux_nonzero. exact He'.
Qed.

Lemma eqb_zero_is_zero (x : float) : eqb x zero = is_zero x.
Proof. destruct x as [s|s| |s m e]; try reflexivity; destruct s; reflexivity. Qed.

Lemma mul_finite_zero (x : float) :
  is_finite x = true -> is_zero (mul x zero) = true.
Proof. destruct x as [s|s| |s m e]; simpl; intros H; solve [reflexivity | discriminate H]. Qed.

End F32Facts.

(** ** The cache simulation refines [updateCache] *)

Lemma access_length cs s v : length (access cs s v).2.1 = length s.1.
Proof.
  unfold access. destruct (decide _); simpl; [reflexivity | apply length_insert].
Qed.

Lemma tri_access_length cs s t : length (tri_access cs s t).2.1 = length s.1.
Proof.
  destruct t as [[a b] c]. unfold tri_access.
  destruct (access cs s a) as [ma s1] eqn:E1.
  destruct (access cs s1 b) as [mb s2] eqn:E2.
  destruct (access cs s2 c) as [mc s3] eqn:E3. simpl.
  pose proof (access_length cs s a) as H1. rewrite E1 in H1.
  pose proof (access_length cs s1 b) as H2. rewrite E2 in H2.
  pose proof (access_length cs s2 c) as H3. rewrite E3 in H3.
  simpl in *. congruence.
Qed.

(** one block of [updateCache]: the test of one vertex *)
Lemma updateCache_block (cs : Z) (s : sim) (v : Z) (k : Z) :
  0 <= v < Z.of_nat (length s.1) ->
  exists t, s.1 !! Z.to_nat v = Some t /\
    (if cs <? wrap32 (s.2 - t)
     then (<[Z.to_nat v := s.2]> (s.1), wrap32 (s.2 + 1), k + 1)
     else (s.1, s.2, k))
    = ((access cs s v).2.1, (access cs s v).2.2, k + Z.b2z (access cs s v).1).
Proof.
  intros Hv. destruct (lookup_lt_is_Some_2 s.1 (Z.to_nat v)) as [t Ht]; [lia|].
  exists t. split; [exact Ht|].
  unfold access.
  destruct (decide (cache_hit cs s v)) as [Hh|Hm];
    unfold cache_hit, last_used in *; rewrite Ht in *; simpl in *.
  - replace (cs <? wrap32 (s.2 - t)) with false by (symmetry; apply Z.ltb_ge; exact Hh).
    simpl. f_equal. lia.
  - replace (cs <? wrap32 (s.2 - t)) with true by (symmetry; apply Z.ltb_lt; lia).
    reflexivity.
Qed.

Lemma updateCache_tri_access (a b c cache_size : Z) (cache_timestamps : list Z) (timestamp : Z) :
  0 <= a < Z.of_nat (length cache_timestamps) ->
  0 <= b < Z.of_nat (length cache_timestamps) ->
  0 <= c < Z.of_nat (length cache_timestamps) ->
  updateCache a b c cache_size cache_timestamps timestamp =
    let r := tri_access cache_size (cache_timestamps, timestamp) (a, b, c) in
    Some (miss_count r.1, r.2.1, r.2.2).
Proof.
  intros Ha Hb Hc. unfold updateCache, tri_access.
  destruct (updateCache_block cache_size (cache_timestamps, timestamp) a 0)
    as (ta & Hta & Ea); [exact Ha|].
  cbn [fst snd] in Hta, Ea. rewrite Hta. cbn [mbind option_bind]. rewrite Ea. clear Ea Hta.
  pose proof (access_length cache_size (cache_timestamps, timestamp) a) as La.
  destruct (access cache_size (cache_timestamps, timestamp) a) as [ma s1].
  cbn [fst snd] in La |- *.
  destruct (updateCache_block cache_size s1 b (0 + Z.b2z ma)) as (tb & Htb & Eb);
    [rewrite La; exact Hb|].
  rewrite Htb. cbn [mbind option_bind]. rewrite Eb. clear Eb Htb.
  pose proof (access_length cache_size s1 b) as Lb.
  destruct (access cache_size s1 b) as [mb s2]. cbn [fst snd] in Lb |- *.
  destruct (updateCache_block cache_size s2 c (0 + Z.b2z ma + Z.b2z mb)) as (tc & Htc & Ec);
    [rewrite Lb, La; exact Hc|].
  rewrite Htc. cbn [mbind option_bind]. rewrite Ec. clear Ec Htc.
  destruct (access cache_size s2 c) as [mc s3]. reflexivity.
Qed.

Lemma miss_count_all m : (miss_count m =? 3) = all_miss m.
Proof. destruct m as [[[] []] []]; reflexivity. Qed.

(** ** Triangles of an index buffer *)

Lemma list_ind3 {A} (P : list A -> Prop) :
  P [] -> (forall a, P [a]) -> (forall a b, P [a; b]) ->
  (forall a b c l, P l -> P (a :: b :: c :: l)) ->
  forall l, P l.
Proof.
  intros H0 H1 H2 H3 l.
  assert (H : P l /\ (forall a, P (a :: l)) /\ (forall a b, P (a :: b :: l))).
  { induction l as [|x l (IH0 & IH1 & IH2)]; [auto|].
    split; [apply IH1|]. split; [intros a; apply IH2|].
    intros a b. apply H3. exact IH0. }
  apply H.
Qed.

Lemma length_triangles l : length (triangles l) = (length l / 3)%nat.
Proof.
  induction l using list_ind3; try reflexivity.
  cbn [triangles length]. rewrite IHl. lia.
Qed.

Lemma triangles_lookup l : forall i a b c,
  triangles l !! i = Some (a, b, c) ->
  l !! (i * 3 + 0)%nat = Some a /\ l !! (i * 3 + 1)%nat = Some b
  /\ l !! (i * 3 + 2)%nat = Some c.
Proof.
  induction l as [|x|x y|x y z l IH] using list_ind3; intros i a b c H; try discriminate H.
  destruct i as [|i]; simpl in H.
  - injection H as -> -> ->. auto.
  - apply IH in H. replace (S i * 3 + 0)%nat with (S (S (S (i * 3 + 0)))) by lia.
    replace (S i * 3 + 1)%nat with (S (S (S (i * 3 + 1)))) by lia.
    replace (S i * 3 + 2)%nat with (S (S (S (i * 3 + 2)))) by lia.
    exact H.
Qed.

Lemma triangles_in_range (l : list Z) (P : Z -> Prop) :
  Forall P l -> Forall (fun t : tri => P t.1.1 /\ P t.1.2 /\ P t.2) (triangles l).
Proof.
  induction l as [|x|x y|x y z l IH] using list_ind3; intros H; simpl; try constructor.
  - inversion H as [|? ? Hx H1]; subst. inversion H1 as [|? ? Hy H2]; subst.
    inversion H2 as [|? ? Hz H3]; subst. auto.
  - apply IH. inversion H as [|? ? Hx H1]; subst. inversion H1 as [|? ? Hy H2]; subst.
    inversion H2; subst. assumption.
Qed.

Lemma untriangles_triangles l :
  (length l mod 3 = 0)%nat -> untriangles (triangles l) = l.
Proof.
  induction l as [|x|x y|x y z l IH] using list_ind3; cbn [triangles length];
    intros H; try reflexivity; try (exfalso; lia).
  unfold untriangles in *. rewrite bind_cons. cbn [fst snd app]. rewrite IH by lia.
  reflexivity.
Qed.

Lemma triangles_app l1 l2 :
  (length l1 mod 3 = 0)%nat -> triangles (l1 ++ l2) = triangles l1 ++ triangles l2.
Proof.
  induction l1 as [|x|x y|x y z l IH] using list_ind3; cbn [app triangles length];
    intros H; try reflexivity; try (exfalso; lia).
  f_equal. apply IH. lia.
Qed.

(** ** Simulation over a triangle list *)

Lemma valid_in_range indices index_count vertex_count :
  valid_input indices index_count vertex_count ->
  Forall (in_range vertex_count) (triangles indices).
Proof.
  intros [_ _ H _]. apply (triangles_in_range _ _ H).
Qed.

Lemma valid_faces indices index_count vertex_count :
  valid_input indices index_count vertex_count ->
  length (triangles indices) = (index_count / 3)%nat.
Proof. intros [H _ _ _]. rewrite length_triangles, H. reflexivity. Qed.

Lemma sim_run_length cs ts : forall s, length (sim_run cs s ts).1 = length s.1.
Proof.
  induction ts as [|t ts IH]; intros s; [reflexivity|].
  change (sim_run cs s (t :: ts)) with (sim_run cs (sim_step cs s t) ts).
  rewrite IH. apply tri_access_length.
Qed.

Lemma sim_run_snoc cs s ts t : sim_run cs s (ts ++ [t]) = sim_step cs (sim_run cs s ts) t.
Proof. apply foldl_snoc. Qed.

(** reading triangle [i] and running [updateCache] on it, as every loop does *)
Lemma read_updateCache indices cache_size vertex_count (s : sim) (i : nat) (t : tri) :
  triangles indices !! i = Some t ->
  in_range vertex_count t ->
  length s.1 = vertex_count ->
  indices !! (i * 3 + 0)%nat = Some t.1.1 /\
  indices !! (i * 3 + 1)%nat = Some t.1.2 /\
  indices !! (i * 3 + 2)%nat = Some t.2 /\
  updateCache t.1.1 t.1.2 t.2 cache_size s.1 s.2 =
    Some (miss_count (tri_access cache_size s t).1,
          (sim_step cache_size s t).1, (sim_step cache_size s t).2).
Proof.
  intros Ht (Ha & Hb & Hc) Hl. destruct t as [[a b] c]. simpl in *.
  apply triangles_lookup in Ht. destruct Ht as (H0 & H1 & H2).
  repeat (split; [assumption|]).
  rewrite updateCache_tri_access by (rewrite Hl; assumption).
  destruct s as [cache ts]. reflexivity.
Qed.

(** ** Hard boundaries *)

Lemma StronglySorted_lt_seq a n : StronglySorted lt (seq a n).
Proof.
  revert a. induction n as [|n IH]; intros a; simpl; constructor; [apply IH|].
  apply Forall_forall. intros x Hx. apply elem_of_seq in Hx. lia.
Qed.

Lemma StronglySorted_filter {A} (R : relation A) (P : A -> Prop) `{!forall x, Decision (P x)}
    (l : list A) :
  StronglySorted R l -> StronglySorted R (filter P l).
Proof.
  induction 1 as [|a l Hs IH Ha]; [constructor|].
  rewrite filter_cons. destruct (decide (P a)); [|exact IH].
  constructor; [exact IH|].
  apply Forall_forall. intros x Hx. apply list_elem_of_filter in Hx.
  rewrite Forall_forall in Ha. apply Ha, Hx.
Qed.

Lemma hard_boundaries_sorted cs vc tris : StronglySorted lt (hard_boundaries cs vc tris).
Proof. apply StronglySorted_filter, StronglySorted_lt_seq. Qed.

Lemma hard_boundaries_bound cs vc tris :
  Forall (fun b => b < length tris)%nat (hard_boundaries cs vc tris).
Proof.
  apply Forall_forall. intros b Hb. apply list_elem_of_filter in Hb.
  destruct Hb as [_ Hb]. apply elem_of_seq in Hb. lia.
Qed.

Lemma hard_boundaries_head cs vc tris :
  tris <> [] -> exists H', hard_boundaries cs vc tris = 0%nat :: H'.
Proof.
  intros Hne. unfold hard_boundaries. destruct tris as [|t tris]; [congruence|].
  simpl length. rewrite <- cons_seq, filter_cons.
  destruct (decide _) as [_|Hn]; [eauto|]. exfalso. apply Hn. left. reflexivity.
Qed.

Lemma hard_boundaries_length cs vc tris :
  (length (hard_boundaries cs vc tris) <= length tris)%nat.
Proof.
  unfold hard_boundaries. etransitivity; [apply length_filter|].
  rewrite length_seq. reflexivity.
Qed.

(** writing at the end of the filled prefix extends the prefix *)
Lemma take_store_snoc {A} (buf : list A) (r : nat) (v : A) :
  (r < length buf)%nat -> take (S r) (<[r := v]> buf) = take r buf ++ [v].
Proof.
  intros Hr. rewrite (take_S_r _ _ v) by (apply list_lookup_insert_eq; exact Hr).
  rewrite take_insert_ge by lia. reflexivity.
Qed.

Section HardLoop.
Variables (indices : list Z) (index_count vertex_count : nat) (cache_size : Z).
Variable destination : list Z.
Hypothesis Hvalid : valid_input indices index_count vertex_count.
Hypothesis Hdest : (index_count / 3 <= length destination)%nat.

Let tris := triangles indices.
Let s0 := hard_start vertex_count cache_size.

Lemma hardStep_inv (i : nat) (st : HardState) :
  (i < index_count / 3)%nat -> hard_inv destination cache_size s0 tris i st ->
  exists st', hardStep indices cache_size i st = Some st' /\
    hard_inv destination cache_size s0 tris (S i) st'.
Proof.
  intros Hi (Hlen & Hres & Htake & Hdrop & Hsim).
  pose proof (valid_faces _ _ _ Hvalid) as Hfaces. fold tris in Hfaces.
  destruct (lookup_lt_is_Some_2 tris i) as [t Ht]; [lia|].
  assert (Hr : in_range vertex_count t).
  { pose proof (valid_in_range _ _ _ Hvalid) as HF. rewrite Forall_forall in HF.
    apply HF. eapply list_elem_of_lookup_2. exact Ht. }
  assert (Hcl : length (hb_cache st, hb_timestamp st).1 = vertex_count).
  { rewrite Hsim, sim_run_length. apply length_replicate. }
  destruct (read_updateCache indices cache_size vertex_count
              (hb_cache st, hb_timestamp st) i t Ht Hr Hcl) as (Ra & Rb & Rc & Ru).
  unfold hardStep. rewrite Ra, Rb, Rc. cbn [mbind option_bind].
  cbn [fst snd] in Ru. rewrite Ru. cbn [mbind option_bind].
  assert (Hle : (hb_result st <= i)%nat).
  { rewrite Hres. etransitivity; [apply length_filter|]. rewrite length_seq. lia. }
  assert (Hflags : flags_at cache_size s0 tris i
                   = Some (tri_access cache_size (hb_cache st, hb_timestamp st) t).1).
  { unfold flags_at. rewrite Ht. cbn [mbind option_bind]. rewrite Hsim. reflexivity. }
  assert (Hsim' : sim_step cache_size (hb_cache st, hb_timestamp st) t
                  = sim_run cache_size s0 (take (S i) tris)).
  { rewrite (take_S_r _ _ _ Ht), sim_run_snoc, Hsim. reflexivity. }
  rewrite miss_count_all. unfold hard_inv.
  rewrite seq_S, filter_app. cbn [Nat.add].
  destruct (decide (is_hard cache_size s0 tris i)) as [Hh|Hn].
  - replace ((i =? 0)%nat || all_miss (tri_access cache_size (hb_cache st, hb_timestamp st) t).1)
      with true.
    2:{ symmetry. destruct Hh as [->|Hh]; [reflexivity|].
        rewrite Hflags in Hh. simpl in Hh. injection Hh as ->. apply orb_true_r. }
    rewrite store_Some by lia. cbn [mbind option_bind].
    eexists. split; [reflexivity|].
    cbn [hb_destination hb_result hb_cache hb_timestamp].
    rewrite (filter_cons_True _ i []) by exact Hh. rewrite filter_nil.
    rewrite length_insert, length_app, fmap_app. cbn [length fmap list_fmap].
    split; [exact Hlen|]. split; [lia|].
    split; [rewrite take_store_snoc by lia; rewrite Htake;
            rewrite wrap32_of_nat by (destruct Hvalid; lia); reflexivity|].
    split; [|rewrite <- Hsim'; destruct (sim_step _ _ _); reflexivity].
    rewrite drop_insert_lt by lia.
    replace (S (hb_result st)) with (hb_result st + 1)%nat by lia.
    rewrite <- !drop_drop, Hdrop. reflexivity.
  - replace ((i =? 0)%nat || all_miss (tri_access cache_size (hb_cache st, hb_timestamp st) t).1)
      with false.
    2:{ symmetry. apply orb_false_intro.
        - apply Nat.eqb_neq. intros ->. apply Hn. left. reflexivity.
        - apply not_true_is_false. intros Ha. apply Hn. right. rewrite Hflags. simpl.
          rewrite Ha. reflexivity. }
    eexists. split; [reflexivity|].
    cbn [hb_destination hb_result hb_cache hb_timestamp].
    rewrite (filter_cons_False _ i []) by exact Hn. rewrite filter_nil, app_nil_r.
    repeat (split; [assumption|]).
    rewrite <- Hsim'. destruct (sim_step _ _ _); reflexivity.
Qed.

Lemma generateHardBoundaries_run :
  exists destination',
    generateHardBoundaries destination indices index_count vertex_count cache_size
      = Some (destination', length (hard_boundaries cache_size vertex_count tris))
    /\ length destination' = length destination
    /\ take (length (hard_boundaries cache_size vertex_count tris)) destination'
       = Z.of_nat <$> hard_boundaries cache_size vertex_count tris
    /\ drop (length (hard_boundaries cache_size vertex_count tris)) destination'
       = drop (length (hard_boundaries cache_size vertex_count tris)) destination.
Proof.
  pose proof (valid_faces _ _ _ Hvalid) as Hfaces. fold tris in Hfaces.
  destruct (for_range_inv (hard_inv destination cache_size s0 tris) (index_count / 3) 0
              (hardStep indices cache_size)
              (mkHard destination 0 (replicate vertex_count 0) (wrap32 (cache_size + 1))))
    as (st & Hrun & Hinv).
  - unfold hard_inv. simpl. rewrite take_0. repeat split; reflexivity.
  - intros i st Hi. apply hardStep_inv. lia.
  - unfold generateHardBoundaries. rewrite Hrun. cbn [mbind option_bind].
    rewrite Nat.add_0_l in Hinv. destruct Hinv as (Hlen & Hres & Htake & Hdrop & _).
    unfold hard_boundaries. fold s0. rewrite Hfaces.
    replace (assert (hb_result st <=? index_count / 3)%nat) with (Some tt).
    2:{ symmetry. apply assert_Some, Nat.leb_le. rewrite Hres.
        etransitivity; [apply length_filter|]. rewrite length_seq. lia. }
    cbn [mbind option_bind]. rewrite <- Hres. eauto.
Qed.

End HardLoop.

(** ** Soft boundaries: the specification *)

(** *** Shape of what a walk emits *)

Lemma soft_walk_shape cs thr ts : forall i rm rf s,
  let E := (soft_walk cs thr i rm rf s ts).1 in
  Forall (fun e => i < e <= i + length ts)%nat E /\ StronglySorted lt E
  /\ (length E <= length ts)%nat.
Proof.
  induction ts as [|t ts IH]; intros i rm rf s; cbn zeta.
  - simpl. repeat constructor.
  - cbn [soft_walk length].
    destruct (F32.leb _ thr).
    + destruct (IH (S i) 0 0 (reset_cache cs (sim_step cs s t))) as (Hb & Hs & Hl).
      cbn [fst]. split; [|split].
      * constructor; [lia|]. eapply Forall_impl; [exact Hb|]. simpl. intros; lia.
      * constructor; [exact Hs|]. eapply Forall_impl; [exact Hb|]. simpl. intros; lia.
      * simpl. lia.
    + destruct (IH (S i) (wrap32 (rm + miss_count (tri_access cs s t).1)) (wrap32 (rf + 1))
                  (sim_step cs s t)) as (Hb & Hs & Hl).
      split; [|split].
      * eapply Forall_impl; [exact Hb|]. simpl. intros; lia.
      * exact Hs.
      * lia.
Qed.

Lemma soft_walk_length cs thr ts : forall i rm rf s,
  length (soft_walk cs thr i rm rf s ts).2.1 = length s.1.
Proof.
  induction ts as [|t ts IH]; intros i rm rf s; [reflexivity|].
  cbn [soft_walk]. destruct (F32.leb _ thr); cbn [fst snd]; rewrite IH.
  - unfold reset_cache. cbn [fst]. apply tri_access_length.
  - apply tri_access_length.
Qed.

Lemma total_misses_length cs ts : forall s total,
  length (total_misses cs s total ts).2.1 = length s.1.
Proof.
  induction ts as [|t ts IH]; intros s total; [reflexivity|].
  cbn [total_misses]. rewrite IH. apply tri_access_length.
Qed.

Lemma removelast_Forall {A} (P : A -> Prop) (l : list A) :
  Forall P l -> Forall P (removelast l).
Proof.
  intros H. rewrite removelast_firstn_len. apply Forall_take. exact H.
Qed.

Lemma removelast_sorted {A} (R : relation A) (l : list A) :
  StronglySorted R l -> StronglySorted R (removelast l).
Proof.
  intros H. rewrite removelast_firstn_len.
  rewrite <- (take_drop (Init.Nat.pred (length l)) l) in H.
  apply StronglySorted_app_1_l in H. exact H.
Qed.

(** in a strictly increasing list bounded by [hi], all but the last element
    are below [hi] *)
Lemma removelast_below (l : list nat) (hi : nat) :
  StronglySorted lt l -> Forall (fun e => e <= hi)%nat l ->
  Forall (fun e => e < hi)%nat (removelast l).
Proof.
  induction 1 as [|a l Hs IH Ha]; intros Hb; [constructor|].
  destruct l as [|b l]; [constructor|].
  change (removelast (a :: b :: l)) with (a :: removelast (b :: l)).
  inversion Hb as [|? ? Hahi Hb']; subst.
  constructor; [|apply IH; exact Hb'].
  inversion Ha as [|? ? Hab _]; subst. inversion Hb' as [|? ? Hbhi _]; subst. lia.
Qed.

(** the merge rule leaves the region start followed by all emitted
    boundaries but the last *)
Lemma pop_trailing_walk (start : nat) (E : list nat) :
  Forall (fun e => start < e)%nat E ->
  pop_trailing start (start :: E) = start :: removelast E.
Proof.
  intros HE. unfold pop_trailing.
  destruct E as [|e E]; [simpl; destruct (decide _); [reflexivity | congruence]|].
  destruct (decide _) as [Hl|Hl]; [|reflexivity].
  exfalso. change (last (start :: e :: E)) with (last (e :: E)) in Hl.
  apply last_Some in Hl. destruct Hl as [l' Hl].
  rewrite Hl in HE. apply Forall_app in HE. destruct HE as [_ HE].
  inversion HE; subst. lia.
Qed.

(** what a region keeps after the merge rule *)
Lemma soft_region_shape (cs : Z) (thr : float) (ts : list tri) (b e : nat) (s : sim) :
  (b < e <= length ts)%nat ->
  exists E,
    (soft_region cs thr ts b e s).1 = b :: E /\
    pop_trailing b (b :: E) = b :: removelast E /\
    Forall (fun x => b < x < e)%nat (removelast E) /\
    StronglySorted lt (b :: removelast E) /\
    (length (removelast E) < e - b)%nat /\
    Forall (fun x => b < x <= e)%nat E.
Proof.
  intros He. unfold soft_region. cbn zeta. cbn [fst].
  match goal with |- context [soft_walk ?a ?t ?i ?rm ?rf ?s0 ?r] =>
    pose proof (soft_walk_shape a t r i rm rf s0) as (Hb & Hs & Hl);
    set (E := (soft_walk a t i rm rf s0 r).1) in * end.
  rewrite length_take, length_drop in Hb, Hl.
  exists E. split; [reflexivity|].
  assert (HbE : Forall (fun x => b < x <= e)%nat E)
    by (eapply Forall_impl; [exact Hb|]; simpl; intros; lia).
  split; [apply pop_trailing_walk; eapply Forall_impl; [exact Hb|]; simpl; intros; lia|].
  assert (Hlt : Forall (fun x => x < e)%nat (removelast E)).
  { apply removelast_below; [exact Hs|]. eapply Forall_impl; [exact HbE|]. simpl. intros; lia. }
  assert (Hgt : Forall (fun x => b < x)%nat (removelast E)).
  { apply removelast_Forall. eapply Forall_impl; [exact HbE|]. simpl. intros; lia. }
  split; [|split; [|split]].
  - rewrite Forall_forall in *. intros x Hx. split; [apply Hgt | apply Hlt]; exact Hx.
  - constructor; [apply removelast_sorted; exact Hs | exact Hgt].
  - rewrite removelast_firstn_len, length_take. lia.
  - exact HbE.
Qed.

Lemma soft_region_length (cs : Z) (thr : float) (ts : list tri) (b e : nat) (s : sim) :
  length (soft_region cs thr ts b e s).2.1 = length s.1.
Proof.
  unfold soft_region. cbn zeta. cbn [snd].
  rewrite soft_walk_length. cbn [reset_cache fst]. rewrite total_misses_length.
  reflexivity.
Qed.

Lemma soft_boundaries_from_shape (cs : Z) (thr : float) (ts : list tri) (B' : list nat) :
  forall s : sim,
  StronglySorted lt B' -> Forall (fun b => b < length ts)%nat B' ->
  let S := soft_boundaries_from cs thr ts B' s in
  B' `sublist_of` S /\
  StronglySorted lt S /\
  Forall (fun x => region_end B' (length ts) <= x < length ts)%nat S /\
  (length B' <= length S)%nat /\
  (length S <= length ts - region_end B' (length ts))%nat /\
  head S = head B'.
Proof.
  induction B' as [|b B'' IH]; intros s Hs Hb; cbn zeta.
  - simpl. repeat split; try constructor; lia.
  - cbn [soft_boundaries_from]. apply StronglySorted_inv in Hs. destruct Hs as [Hs Hbb].
    inversion Hb as [|? ? HbF Hb'']; subst.
    set (e := region_end B'' (length ts)).
    assert (He : (b < e <= length ts)%nat).
    { unfold e. destruct B'' as [|b' B3]; simpl; [lia|].
      inversion Hbb; subst. inversion Hb''; subst. lia. }
    destruct (soft_region_shape cs thr ts b e s He) as (E & HL & Hpop & HE & HsE & HlE & _).
    rewrite HL, Hpop.
    destruct (IH (soft_region cs thr ts b e s).2 Hs Hb'') as (I1 & I2 & I3 & I4 & I5 & I6).
    fold e in I3, I5.
    set (S'' := soft_boundaries_from cs thr ts B'' (soft_region cs thr ts b e s).2) in *.
    split; [|split; [|split; [|split; [|split]]]].
    + cbn [app]. apply sublist_skip. apply sublist_inserts_l. exact I1.
    + apply StronglySorted_app_2; [|exact HsE|exact I2].
      intros x1 x2 H1 H2. rewrite Forall_forall in I3, HE. apply I3 in H2.
      apply elem_of_cons in H1. destruct H1 as [->|H1]; [lia|]. apply HE in H1. lia.
    + cbn [region_end]. apply Forall_app. split.
      * constructor; [lia|]. eapply Forall_impl; [exact HE|]. simpl. intros; lia.
      * eapply Forall_impl; [exact I3|]. simpl. intros; lia.
    + cbn [app length]. rewrite length_app. lia.
    + cbn [app length region_end]. rewrite length_app. lia.
    + reflexivity.
Qed.

(** the test of the trailing boundary, on a buffer whose filled part ends
    with the boundaries [L] *)
Lemma popTrailing_run (start : nat) (w : WalkState) (P : list Z) (L : list nat) :
  L <> [] ->
  wk_result w = (length P + length L)%nat ->
  take (wk_result w) (wk_destination w) = P ++ (Z.of_nat <$> L) ->
  exists st' x,
    popTrailing start w = Some st' /\
    last L = Some x /\
    wk_destination w !! (wk_result w - 1)%nat = Some (Z.of_nat x) /\
    sb_destination st' = wk_destination w /\
    sb_result st' = (length P + length (pop_trailing start L))%nat /\
    take (sb_result st') (sb_destination st') = P ++ (Z.of_nat <$> pop_trailing start L) /\
    sb_cache st' = wk_cache w /\ sb_timestamp st' = wk_timestamp w.
Proof.
  intros Hne Hres Htake.
  destruct (exists_last Hne) as (L0 & x & ->).
  rewrite length_app in Hres. cbn [length] in Hres.
  assert (Hlast : wk_destination w !! (wk_result w - 1)%nat = Some (Z.of_nat x)).
  { rewrite <- (lookup_take_lt _ (wk_result w)) by lia.
    rewrite Htake, fmap_app, app_assoc.
    replace (wk_result w - 1)%nat with (length (P ++ (Z.of_nat <$> L0)))
      by (rewrite length_app, length_fmap; lia).
    apply list_lookup_middle. reflexivity. }
  unfold popTrailing, pop_trailing. rewrite Hlast. cbn [mbind option_bind].
  rewrite last_snoc. eexists _, x. split; [reflexivity|].
  split; [reflexivity|]. split; [reflexivity|].
  cbn [sb_destination sb_result sb_cache sb_timestamp].
  destruct (decide (Some x = Some start)) as [Heq|Hneq].
  - injection Heq as ->. rewrite bool_decide_eq_false_2 by (intros H; apply H; reflexivity).
    rewrite length_app. cbn [length]. repeat split; solve [assumption | reflexivity].
  - rewrite bool_decide_eq_true_2 by (intros H; apply Hneq; f_equal; lia).
    rewrite removelast_last.
    split; [reflexivity|]. split; [lia|]. split; [|auto].
    replace (wk_result w - 1)%nat with (length (P ++ (Z.of_nat <$> L0)))
      by (rewrite length_app, length_fmap; lia).
    replace (take (length (P ++ (Z.of_nat <$> L0))) (wk_destination w))
      with (take (length (P ++ (Z.of_nat <$> L0)))
              (take (wk_result w) (wk_destination w)))
      by (rewrite take_take; f_equal; rewrite length_app, length_fmap; lia).
    rewrite Htake, fmap_app, app_assoc. apply take_app_length.
Qed.

(** ** Soft boundaries: the loops of [generateSoftBoundaries] *)

Section SoftLoops.
Variables (indices : list Z) (index_count vertex_count : nat) (cache_size : Z).
Hypothesis Hvalid : valid_input indices index_count vertex_count.

Let tris := triangles indices.

Lemma region_triangle (i : nat) :
  (i < length tris)%nat ->
  exists t, tris !! i = Some t /\ in_range vertex_count t
    /\ drop i tris = t :: drop (S i) tris.
Proof.
  intros Hi. destruct (lookup_lt_is_Some_2 tris i) as [t Ht]; [lia|].
  exists t. split; [exact Ht|]. split; [|apply drop_S; exact Ht].
  pose proof (valid_in_range _ _ _ Hvalid) as HF. rewrite Forall_forall in HF.
  apply HF. eapply list_elem_of_lookup_2. exact Ht.
Qed.

Lemma measureStep_run (i : nat) (s : sim) (total : Z) (t : tri) :
  tris !! i = Some t -> in_range vertex_count t -> length s.1 = vertex_count ->
  measureStep indices cache_size i (s.1, s.2, total)
  = Some ((sim_step cache_size s t).1, (sim_step cache_size s t).2,
          wrap32 (total + miss_count (tri_access cache_size s t).1)).
Proof.
  intros Ht Hr Hl.
  destruct (read_updateCache indices cache_size vertex_count s i t Ht Hr Hl)
    as (Ra & Rb & Rc & Ru).
  unfold measureStep. rewrite Ra, Rb, Rc. cbn [mbind option_bind].
  rewrite Ru. reflexivity.
Qed.

Lemma measure_loop (n : nat) : forall (i : nat) (s : sim) (total : Z),
  (i + n <= length tris)%nat -> length s.1 = vertex_count ->
  for_range n i (measureStep indices cache_size) (s.1, s.2, total)
  = let r := total_misses cache_size s total (take n (drop i tris)) in
    Some (r.2.1, r.2.2, r.1).
Proof.
  induction n as [|n IH]; intros i s total Hi Hl; [reflexivity|].
  destruct (region_triangle i) as (t & Ht & Hr & Hd); [lia|].
  rewrite for_range_S, (measureStep_run i s total t Ht Hr Hl). cbn [mbind option_bind].
  rewrite IH; [| lia | unfold sim_step; rewrite tri_access_length; exact Hl].
  rewrite Hd. reflexivity.
Qed.

(** one round of the walk *)
Lemma walkStep_run (thr : float) (i : nat) (w : WalkState) (t : tri) :
  tris !! i = Some t -> in_range vertex_count t -> length (wk_cache w) = vertex_count ->
  0 <= wk_running_faces w -> wk_running_faces w + 1 < 4294967296 ->
  (wk_result w < length (wk_destination w))%nat ->
  let s := (wk_cache w, wk_timestamp w) in
  let s' := sim_step cache_size s t in
  let rm := wrap32 (wk_running_misses w + miss_count (tri_access cache_size s t).1) in
  let rf := wrap32 (wk_running_faces w + 1) in
  walkStep indices cache_size thr i w =
    Some (if F32.leb (miss_rate rm rf) thr
          then mkWalk (<[wk_result w := wrap32 (Z.of_nat (i + 1))]> (wk_destination w))
                 (S (wk_result w)) (reset_cache cache_size s').1
                 (reset_cache cache_size s').2 0 0
          else mkWalk (wk_destination w) (wk_result w) s'.1 s'.2 rm rf).
Proof.
  intros Ht Hr Hl Hrf0 Hrf Hroom. cbn zeta.
  destruct (read_updateCache indices cache_size vertex_count
              (wk_cache w, wk_timestamp w) i t Ht Hr Hl) as (Ra & Rb & Rc & Ru).
  unfold walkStep. rewrite Ra, Rb, Rc. cbn [mbind option_bind].
  cbn [fst snd] in Ru. rewrite Ru. cbn [mbind option_bind].
  assert (Hrf' : wrap32 (wk_running_faces w + 1) = wk_running_faces w + 1)
    by (apply wrap32_small; lia).
  unfold F32.div. rewrite F32Facts.of_Z_pos_nonzero by (rewrite Hrf'; lia).
  cbn [mbind option_bind]. unfold miss_rate, fdiv.
  destruct (F32.leb _ thr); [|reflexivity].
  rewrite store_Some by lia. reflexivity.
Qed.

Lemma walk_loop (thr : float) (n : nat) : forall (i : nat) (w : WalkState),
  (i + n <= length tris)%nat ->
  length (wk_cache w) = vertex_count ->
  0 <= wk_running_faces w -> wk_running_faces w + Z.of_nat n < 4294967296 ->
  (wk_result w + n <= length (wk_destination w))%nat ->
  exists w', for_range n i (walkStep indices cache_size thr) w = Some w' /\
    let r := soft_walk cache_size thr i (wk_running_misses w) (wk_running_faces w)
               (wk_cache w, wk_timestamp w) (take n (drop i tris)) in
    length (wk_destination w') = length (wk_destination w) /\
    wk_result w' = (wk_result w + length r.1)%nat /\
    take (wk_result w') (wk_destination w')
      = take (wk_result w) (wk_destination w) ++ (Z.of_nat <$> r.1) /\
    (wk_cache w', wk_timestamp w') = r.2.
Proof.
  pose proof (valid_faces _ _ _ Hvalid) as Hfaces. fold tris in Hfaces.
  pose proof (vi_count _ _ _ Hvalid) as H32.
  induction n as [|n IH]; intros i w Hi Hl Hrf0 Hrf Hroom.
  - exists w. split; [reflexivity|]. cbn zeta. rewrite take_0. simpl.
    rewrite Nat.add_0_r, app_nil_r. auto.
  - destruct (region_triangle i) as (t & Ht & Hr & Hd); [lia|].
    rewrite for_range_S, (walkStep_run thr i w t Ht Hr Hl) by lia.
    cbn [mbind option_bind]. rewrite Hd. cbn [take soft_walk]. cbn zeta.
    set (s' := sim_step cache_size (wk_cache w, wk_timestamp w) t).
    assert (Hl' : length s'.1 = vertex_count)
      by (unfold s', sim_step; rewrite tri_access_length; exact Hl).
    assert (Hrf' : wrap32 (wk_running_faces w + 1) = wk_running_faces w + 1)
      by (apply wrap32_small; lia).
    destruct (F32.leb _ thr).
    + match goal with |- context [for_range n (S i) _ ?w1] =>
        destruct (IH (S i) w1) as (w' & Hrun & Hlen & Hres & Htake & Hst) end;
        cbn [wk_destination wk_result wk_cache wk_timestamp wk_running_misses
             wk_running_faces reset_cache fst snd];
        try rewrite length_insert; try lia; try exact Hl'.
      exists w'. split; [exact Hrun|].
      cbn [wk_destination wk_result wk_cache wk_timestamp wk_running_misses
           wk_running_faces] in *.
      rewrite length_insert in Hlen.
      replace ((reset_cache cache_size s').1, (reset_cache cache_size s').2)
        with (reset_cache cache_size s') in * by reflexivity.
      cbn [fst snd length fmap list_fmap].
      split; [exact Hlen|]. split; [lia|]. split; [|exact Hst].
      rewrite Htake, take_store_snoc by lia.
      rewrite wrap32_of_nat by lia. rewrite <- app_assoc.
      replace (i + 1)%nat with (S i) by lia. reflexivity.
    + match goal with |- context [for_range n (S i) _ ?w1] =>
        destruct (IH (S i) w1) as (w' & Hrun & Hlen & Hres & Htake & Hst) end;
        cbn [wk_destination wk_result wk_cache wk_timestamp wk_running_misses
             wk_running_faces]; try lia; try exact Hl'.
      exists w'. split; [exact Hrun|].
      cbn [wk_destination wk_result wk_cache wk_timestamp wk_running_misses
           wk_running_faces] in *.
      replace (s'.1, s'.2) with s' in * by (destruct s'; reflexivity).
      auto.
Qed.

(** *** One region *)

Variables (clusters : list Z) (cluster_count : nat) (threshold : float).
Variable B : list nat.
Hypothesis HB : take cluster_count clusters = Z.of_nat <$> B.
Hypothesis HBlen : length B = cluster_count.

Lemma cluster_read (it b : nat) :
  B !! it = Some b -> clusters !! it = Some (Z.of_nat b).
Proof.
  intros Hb. assert (Hit : (it < cluster_count)%nat).
  { rewrite <- HBlen. eapply lookup_lt_Some. exact Hb. }
  rewrite <- (lookup_take_lt clusters cluster_count it Hit), HB, list_lookup_fmap, Hb.
  reflexivity.
Qed.

Lemma region_reads (it b : nat) (B' : list nat) :
  drop it B = b :: B' ->
  Z.to_nat <$> clusters !! it = Some b /\
  (if (it + 1 <? cluster_count)%nat then Z.to_nat <$> clusters !! (it + 1)%nat
   else Some (index_count / 3)%nat) = Some (region_end B' (length tris)).
Proof.
  intros Hd.
  assert (Hb : B !! it = Some b).
  { rewrite <- (Nat.add_0_r it), <- lookup_drop, Hd. reflexivity. }
  assert (Hd' : drop (it + 1) B = B').
  { rewrite <- drop_drop, Hd. reflexivity. }
  split; [rewrite (cluster_read it b Hb); simpl; f_equal; lia|].
  assert (Hlen : length B' = (cluster_count - (it + 1))%nat).
  { rewrite <- Hd', length_drop, HBlen. reflexivity. }
  destruct B' as [|b' B'']; simpl in Hlen.
  - apply lookup_lt_Some in Hb. rewrite HBlen in Hb.
    replace (it + 1 <? cluster_count)%nat with false by (symmetry; apply Nat.ltb_ge; lia).
    simpl. f_equal. symmetry. apply (valid_faces _ _ _ Hvalid).
  - replace (it + 1 <? cluster_count)%nat with true by (symmetry; apply Nat.ltb_lt; lia).
    assert (Hb' : B !! (it + 1)%nat = Some b').
    { rewrite <- (Nat.add_0_r (it + 1)), <- lookup_drop, Hd'. reflexivity. }
    rewrite (cluster_read _ _ Hb'). simpl. f_equal. lia.
Qed.

Lemma softRegionWalk_run (it b : nat) (B' : list nat) (st : SoftState) :
  drop it B = b :: B' ->
  let e := region_end B' (length tris) in
  (b < e <= length tris)%nat ->
  length (sb_cache st) = vertex_count ->
  (sb_result st + (e - b) < length (sb_destination st))%nat ->
  exists w,
    softRegionWalk indices index_count clusters cluster_count cache_size threshold it st
      = Some (b, w) /\
    let r := soft_region cache_size threshold tris b e (sb_cache st, sb_timestamp st) in
    length (wk_destination w) = length (sb_destination st) /\
    wk_result w = (sb_result st + length r.1)%nat /\
    take (wk_result w) (wk_destination w)
      = take (sb_result st) (sb_destination st) ++ (Z.of_nat <$> r.1) /\
    (wk_cache w, wk_timestamp w) = r.2.
Proof.
  intros Hd e He Hl Hroom.
  pose proof (valid_faces _ _ _ Hvalid) as Hfaces. fold tris in Hfaces.
  pose proof (vi_count _ _ _ Hvalid) as H32.
  destruct (region_reads it b B' Hd) as (Rs & Re). fold e in Re.
  unfold softRegionWalk. rewrite Rs. cbn [mbind option_bind]. rewrite Re.
  cbn [mbind option_bind].
  replace (assert (b <? e)%nat) with (Some tt)
    by (symmetry; apply assert_Some, Nat.ltb_lt; lia).
  cbn [mbind option_bind].
  set (s := (sb_cache st, sb_timestamp st)).
  change (sb_cache st, wrap32 (sb_timestamp st + wrap32 (cache_size + 1)), 0)
    with ((reset_cache cache_size s).1, (reset_cache cache_size s).2, 0).
  rewrite measure_loop by (cbn [reset_cache fst]; solve [lia | exact Hl]).
  cbn zeta. cbn [mbind option_bind].
  set (region := take (e - b) (drop b tris)).
  assert (Hregion : length region = (e - b)%nat).
  { unfold region. rewrite length_take, length_drop. lia. }
  unfold F32.div, F32.of_nat. rewrite F32Facts.of_Z_pos_nonzero by lia.
  cbn [mbind option_bind].
  rewrite store_Some by lia. cbn [mbind option_bind].
  set (m := total_misses cache_size (reset_cache cache_size s) 0 region).
  assert (Hl2 : length m.2.1 = vertex_count).
  { unfold m. rewrite total_misses_length. exact Hl. }
  match goal with |- context [for_range _ b (walkStep _ _ ?thr) ?w0] =>
    destruct (walk_loop thr (e - b) b w0) as (w & Hrun & Hlen & Hres & Htake & Hst) end;
    cbn [wk_destination wk_result wk_cache wk_timestamp wk_running_misses wk_running_faces];
    try rewrite length_insert; try lia; try exact Hl2.
  rewrite Hrun. cbn [mbind option_bind]. exists w. split; [reflexivity|].
  cbn [wk_destination wk_result wk_cache wk_timestamp wk_running_misses wk_running_faces]
    in Hlen, Hres, Htake, Hst.
  rewrite length_insert in Hlen.
  unfold soft_region. fold region. fold m. cbn zeta. cbn [fst snd].
  unfold region_threshold. fold m. rewrite Hregion.
  change (m.2.1, wrap32 (m.2.2 + wrap32 (cache_size + 1))) with (reset_cache cache_size m.2)
    in *.
  unfold fdiv, F32.of_nat. subst region.
  split; [exact Hlen|]. split; [cbn [length]; lia|]. split; [|exact Hst].
  rewrite Htake, take_store_snoc by lia.
  rewrite wrap32_of_nat by lia. rewrite <- app_assoc. reflexivity.
Qed.

Lemma softRegion_run (it b : nat) (B' : list nat) (st : SoftState) :
  drop it B = b :: B' ->
  let e := region_end B' (length tris) in
  (b < e <= length tris)%nat ->
  length (sb_cache st) = vertex_count ->
  (sb_result st + (e - b) < length (sb_destination st))%nat ->
  exists st',
    softRegion indices index_count clusters cluster_count cache_size threshold it st
      = Some st' /\
    let r := soft_region cache_size threshold tris b e (sb_cache st, sb_timestamp st) in
    length (sb_destination st') = length (sb_destination st) /\
    sb_result st' = (sb_result st + length (pop_trailing b r.1))%nat /\
    take (sb_result st') (sb_destination st')
      = take (sb_result st) (sb_destination st) ++ (Z.of_nat <$> pop_trailing b r.1) /\
    (sb_cache st', sb_timestamp st') = r.2.
Proof.
  intros Hd e He Hl Hroom.
  destruct (softRegionWalk_run it b B' st Hd He Hl Hroom)
    as (w & Hrun & Hlen & Hres & Htake & Hst).
  fold e in Hres, Htake, Hst.
  destruct (soft_region_shape cache_size threshold tris b e
              (sb_cache st, sb_timestamp st) He) as (E & HL & _).
  destruct (popTrailing_run b w (take (sb_result st) (sb_destination st))
              (soft_region cache_size threshold tris b e (sb_cache st, sb_timestamp st)).1)
    as (st' & x & Hpop & _ & _ & Hd' & Hr' & Ht' & Hc' & Hts').
  - rewrite HL. discriminate.
  - rewrite length_take. lia.
  - exact Htake.
  - exists st'. unfold softRegion. rewrite Hrun. cbn [mbind option_bind].
    split; [exact Hpop|]. cbn zeta. rewrite length_take in Hr'.
    split; [rewrite Hd'; exact Hlen|]. split; [lia|]. split; [exact Ht'|].
    rewrite Hc', Hts'. exact Hst.
Qed.

(** *** All regions *)

Lemma soft_loop (B' : list nat) : forall (it : nat) (st : SoftState),
  drop it B = B' ->
  StronglySorted lt B' -> Forall (fun b => b < length tris)%nat B' ->
  length (sb_cache st) = vertex_count ->
  (sb_result st <= region_end B' (length tris))%nat ->
  (length tris < length (sb_destination st))%nat ->
  exists st',
    for_range (length B') it
      (softRegion indices index_count clusters cluster_count cache_size threshold) st
      = Some st' /\
    let S := soft_boundaries_from cache_size threshold tris B'
               (sb_cache st, sb_timestamp st) in
    length (sb_destination st') = length (sb_destination st) /\
    sb_result st' = (sb_result st + length S)%nat /\
    take (sb_result st') (sb_destination st')
      = take (sb_result st) (sb_destination st) ++ (Z.of_nat <$> S).
Proof.
  induction B' as [|b B'' IH]; intros it st Hd Hs Hb Hl Hres Hroom.
  - exists st. split; [reflexivity|]. simpl. rewrite Nat.add_0_r, app_nil_r. auto.
  - cbn [region_end] in Hres.
    pose proof Hs as Hs0. apply StronglySorted_inv in Hs. destruct Hs as [Hs Hbb].
    apply Forall_cons in Hb. destruct Hb as [HbF Hb''].
    set (e := region_end B'' (length tris)).
    assert (He : (b < e <= length tris)%nat).
    { unfold e. destruct B'' as [|b' B3]; simpl; [lia|].
      apply Forall_cons in Hbb. apply Forall_cons in Hb''. lia. }
    destruct (softRegion_run it b B'' st Hd He Hl) as (st1 & Hrun & Hlen & Hr1 & Ht1 & Hst1);
      [fold e; lia|]. fold e in Hr1, Ht1, Hst1.
    destruct (soft_region_shape cache_size threshold tris b e
                (sb_cache st, sb_timestamp st) He) as (E & HL & Hpop & HE & HsE & HlE & _).
    destruct (IH (S it) st1) as (st' & Hrun' & Hlen' & Hr' & Ht'); try assumption.
    + replace (S it) with (it + 1)%nat by lia. rewrite <- drop_drop, Hd. reflexivity.
    + pose proof (soft_region_length cache_size threshold tris b e
                    (sb_cache st, sb_timestamp st)) as HL2.
      rewrite <- Hst1 in HL2. cbn [fst] in HL2. rewrite HL2. exact Hl.
    + fold e. rewrite Hr1, HL, Hpop. cbn [length]. lia.
    + rewrite Hlen. exact Hroom.
    + exists st'. cbn [length]. rewrite for_range_S, Hrun. cbn [mbind option_bind].
      split; [exact Hrun'|]. cbn [soft_boundaries_from]. fold e.
      rewrite Hst1 in Hr', Ht'. cbn zeta.
      set (S'' := soft_boundaries_from cache_size threshold tris B''
                    (soft_region cache_size threshold tris b e
                       (sb_cache st, sb_timestamp st)).2) in *.
      split; [rewrite Hlen', Hlen; reflexivity|].
      split; [rewrite Hr', Hr1, length_app; lia|].
      rewrite Ht', Ht1, fmap_app, app_assoc. reflexivity.
Qed.

Lemma generateSoftBoundaries_run (destination : list Z) :
  StronglySorted lt B -> Forall (fun b => b < length tris)%nat B ->
  (length tris < length destination)%nat ->
  let S := soft_boundaries cache_size threshold vertex_count tris B in
  exists destination',
    generateSoftBoundaries destination indices index_count vertex_count clusters
      cluster_count cache_size threshold = Some (destination', length S)
    /\ length destination' = length destination
    /\ take (length S) destination' = Z.of_nat <$> S.
Proof.
  intros Hs Hb Hroom S.
  pose proof (valid_faces _ _ _ Hvalid) as Hfaces. fold tris in Hfaces.
  destruct (soft_loop B 0 (mkSoft destination 0 (replicate vertex_count 0) 0))
    as (st' & Hrun & Hlen & Hres & Htake);
    cbn [sb_destination sb_result sb_cache sb_timestamp];
    try assumption; try reflexivity; try lia; try apply length_replicate.
  cbn [sb_destination sb_result sb_cache sb_timestamp] in *.
  fold (soft_boundaries cache_size threshold vertex_count tris B) in Hres, Htake.
  fold S in Hres, Htake. rewrite take_0 in Htake. cbn [app Nat.add] in Hres, Htake.
  destruct (soft_boundaries_from_shape cache_size threshold tris B
              (replicate vertex_count 0, 0) Hs Hb) as (_ & _ & _ & Hge & Hle & _).
  fold (soft_boundaries cache_size threshold vertex_count tris B) in Hge, Hle.
  fold S in Hge, Hle.
  unfold generateSoftBoundaries. rewrite HBlen in Hrun. rewrite Hrun.
  cbn [mbind option_bind].
  replace (assert (cluster_count <=? sb_result st')%nat) with (Some tt)
    by (symmetry; apply assert_Some, Nat.leb_le; lia).
  replace (assert (sb_result st' <=? index_count / 3)%nat) with (Some tt)
    by (symmetry; apply assert_Some, Nat.leb_le; lia).
  cbn [mbind option_bind]. exists (sb_destination st').
  rewrite Hres. rewrite Hres in Htake. auto.
Qed.

End SoftLoops.

(** ** The two boundary passes in sequence *)

Lemma boundaries_run (hard_destination soft_destination indices : list Z)
    (index_count vertex_count : nat) (cache_size : Z) (threshold : float) :
  valid_input indices index_count vertex_count ->
  (index_count / 3 <= length hard_destination)%nat ->
  (index_count / 3 < length soft_destination)%nat ->
  let tris := triangles indices in
  let H := hard_boundaries cache_size vertex_count tris in
  let S := soft_boundaries cache_size threshold vertex_count tris H in
  exists hard_clusters soft_clusters,
    generateHardBoundaries hard_destination indices index_count vertex_count cache_size
      = Some (hard_clusters, length H) /\
    take (length H) hard_clusters = Z.of_nat <$> H /\
    generateSoftBoundaries soft_destination indices index_count vertex_count
      hard_clusters (length H) cache_size threshold = Some (soft_clusters, length S) /\
    take (length S) soft_clusters = Z.of_nat <$> S /\
    length soft_clusters = length soft_destination.
Proof.
  intros Hvalid Hhd Hsd tris H S.
  pose proof (valid_faces _ _ _ Hvalid) as Hfaces. fold tris in Hfaces.
  destruct (generateHardBoundaries_run indices index_count vertex_count cache_size
              hard_destination Hvalid Hhd) as (hc & Hhard & Hlen & Htake & _).
  fold tris in Hhard, Htake. fold H in Hhard, Htake.
  destruct (generateSoftBoundaries_run indices index_count vertex_count cache_size Hvalid
              hc (length H) threshold H Htake eq_refl soft_destination)
    as (sc & Hsoft & Hslen & Hstake).
  - apply hard_boundaries_sorted.
  - apply hard_boundaries_bound.
  - fold tris. lia.
  - exists hc, sc. fold tris in Hsoft, Hstake. fold S in Hsoft, Hstake. auto.
Qed.

Lemma soft_boundaries_shape (cache_size : Z) (threshold : float) (vertex_count : nat)
    (tris : list tri) :
  tris <> [] ->
  let H := hard_boundaries cache_size vertex_count tris in
  let S := soft_boundaries cache_size threshold vertex_count tris H in
  H `sublist_of` S /\ StronglySorted lt S /\
  Forall (fun x => x < length tris)%nat S /\
  (length H <= length S <= length tris)%nat /\ (1 <= length S)%nat /\
  head S = Some 0%nat.
Proof.
  intros Hne H S.
  destruct (hard_boundaries_head cache_size vertex_count tris Hne) as [H' HH]. fold H in HH.
  destruct (soft_boundaries_from_shape cache_size threshold tris H
              (replicate vertex_count 0, 0)) as (S1 & S2 & S3 & S4 & S5 & S6).
  - apply hard_boundaries_sorted.
  - apply hard_boundaries_bound.
  - unfold S, soft_boundaries.
    set (S' := soft_boundaries_from cache_size threshold tris H (replicate vertex_count 0, 0))
      in *.
    split; [exact S1|]. split; [exact S2|].
    rewrite HH in S3, S4, S5, S6. cbn [region_end length head] in S3, S4, S5, S6. rewrite HH.
    split; [eapply Forall_impl; [exact S3|]; simpl; intros; lia|].
    cbn [length]. repeat split; solve [lia | exact S6].
Qed.

(** in a strictly increasing list of numbers an element is at least its index *)
Lemma sorted_index_le (l : list nat) : forall (lo c b : nat),
  StronglySorted lt l -> Forall (fun x => lo <= x)%nat l -> l !! c = Some b ->
  (lo + c <= b)%nat.
Proof.
  induction l as [|a l IH]; intros lo c b Hs Hlo Hc; [discriminate Hc|].
  apply StronglySorted_inv in Hs. destruct Hs as [Hs Ha].
  apply Forall_cons in Hlo. destruct Hlo as [Hlo _].
  destruct c as [|c]; simpl in Hc.
  - injection Hc as <-. lia.
  - assert (H : (Datatypes.S a + c <= b)%nat).
    { apply (IH (Datatypes.S a) c b Hs); [|exact Hc].
      eapply Forall_impl; [exact Ha|]. simpl. intros; lia. }
    lia.
Qed.

(** ** The cluster scorer *)

Lemma position_Some vertex_positions vertex_stride_float vertex_count (index : Z) :
  positions_ok vertex_positions vertex_stride_float vertex_count ->
  0 <= index < Z.of_nat vertex_count ->
  exists p, position vertex_positions vertex_stride_float index = Some p.
Proof.
  intros Hok Hi. specialize (Hok (Z.to_nat index)).
  assert (Hlt : (vertex_stride_float * Z.to_nat index + 2 < length vertex_positions)%nat)
    by (apply Hok; lia).
  unfold position.
  destruct (lookup_lt_is_Some_2 vertex_positions (vertex_stride_float * Z.to_nat index + 0))
    as [p0 ->]; [lia|].
  destruct (lookup_lt_is_Some_2 vertex_positions (vertex_stride_float * Z.to_nat index + 1))
    as [p1 ->]; [lia|].
  destruct (lookup_lt_is_Some_2 vertex_positions (vertex_stride_float * Z.to_nat index + 2))
    as [p2 ->]; [lia|].
  eexists. reflexivity.
Qed.

(** the guards of [clusterScore]: neither reciprocal divides by a zero *)
Lemma guarded_reciprocal (x : float) :
  (if F32.eqb x F32.zero then Some F32.zero else F32.div F32.one x)
  = Some (if F32.is_zero x then F32.zero else fdiv F32.one x).
Proof.
  rewrite F32Facts.eqb_zero_is_zero. unfold F32.div.
  destruct (F32.is_zero x); reflexivity.
Qed.

Lemma clusterScore_run (cluster_area : float) (cluster_centroid cluster_normal mesh_centroid : vec3) :
  clusterScore cluster_area cluster_centroid cluster_normal mesh_centroid =
    let c := scale cluster_centroid (reciprocal_or_zero cluster_area) in
    let n := scale cluster_normal (reciprocal_or_zero (norm cluster_normal)) in
    Some (c, n, dot (vsub c mesh_centroid) n).
Proof.
  destruct cluster_centroid as [[c0 c1] c2]. destruct cluster_normal as [[n0 n1] n2].
  destruct mesh_centroid as [[m0 m1] m2].
  unfold clusterScore. rewrite guarded_reciprocal. cbn [mbind option_bind].
  unfold norm, scale, dot, vsub. cbn [fst snd].
  rewrite guarded_reciprocal. cbn [mbind option_bind]. reflexivity.
Qed.

Section SortData.
Variables (indices : list Z) (index_count vertex_count : nat).
Variables (vertex_positions : list float) (vertex_stride_float : nat).
Hypothesis Hvalid : valid_input indices index_count vertex_count.
Hypothesis Hpos : positions_ok vertex_positions vertex_stride_float vertex_count.

Lemma index_position (i : nat) :
  (i < index_count)%nat ->
  exists v p, indices !! i = Some v /\ position vertex_positions vertex_stride_float v = Some p.
Proof.
  intros Hi. destruct Hvalid as [Hlen _ Hrange _].
  destruct (lookup_lt_is_Some_2 indices i) as [v Hv]; [lia|].
  rewrite Forall_forall in Hrange.
  destruct (position_Some vertex_positions vertex_stride_float vertex_count v Hpos) as [p Hp].
  - apply Hrange. eapply list_elem_of_lookup_2. exact Hv.
  - eauto.
Qed.

Lemma centroid_loop :
  exists m, for_range index_count 0 (centroidStep indices vertex_positions vertex_stride_float)
              vec3_zero = Some m.
Proof.
  destruct (for_range_inv (fun _ _ => True) index_count 0
              (centroidStep indices vertex_positions vertex_stride_float) vec3_zero)
    as (m & Hm & _); [exact I | | eauto].
  intros i [[m0 m1] m2] Hi _. destruct (index_position i) as (v & [[p0 p1] p2] & Hv & Hp); [lia|].
  unfold centroidStep. rewrite Hv. cbn [mbind option_bind]. rewrite Hp. cbn [mbind option_bind].
  eauto.
Qed.

Lemma accumulateStep_Some (i : nat) (acc : float * vec3 * vec3) :
  (i + 2 < index_count)%nat ->
  exists acc', accumulateStep indices vertex_positions vertex_stride_float i acc = Some acc'.
Proof.
  intros Hi. destruct acc as [[area [[c0 c1] c2]] [[n0 n1] n2]].
  destruct (index_position (i + 0)) as (v0 & [[p0x p0y] p0z] & Hv0 & Hp0); [lia|].
  destruct (index_position (i + 1)) as (v1 & [[p1x p1y] p1z] & Hv1 & Hp1); [lia|].
  destruct (index_position (i + 2)) as (v2 & [[p2x p2y] p2z] & Hv2 & Hp2); [lia|].
  unfold accumulateStep. rewrite Hv0, Hv1, Hv2. cbn [mbind option_bind].
  rewrite Hp0, Hp1, Hp2. cbn [mbind option_bind].
  unfold F32.div. change (F32.is_zero F32.three) with false. cbn [mbind option_bind].
  eauto.
Qed.

Lemma accumulate_loop (n cluster_begin : nat) (acc : float * vec3 * vec3) :
  (cluster_begin + 3 * n <= index_count)%nat ->
  exists acc',
    for_range n 0
      (fun k => accumulateStep indices vertex_positions vertex_stride_float
                  (cluster_begin + 3 * k)) acc = Some acc'.
Proof.
  intros Hn.
  destruct (for_range_inv (fun _ _ => True) n 0
              (fun k => accumulateStep indices vertex_positions vertex_stride_float
                          (cluster_begin + 3 * k)) acc) as (acc' & Hr & _);
    [exact I | | eauto].
  intros k a Hk _. destruct (accumulateStep_Some (cluster_begin + 3 * k) a) as [a' Ha]; [lia|].
  eauto.
Qed.

Variables (clusters : list Z) (cluster_count : nat) (S : list nat).
Hypothesis HS : take cluster_count clusters = Z.of_nat <$> S.
Hypothesis HSlen : length S = cluster_count.
Hypothesis HSsorted : StronglySorted lt S.
Hypothesis HSbound : Forall (fun b => b < index_count / 3)%nat S.

(** the bounds of cluster [c]: its start, and the start of the next cluster
    or the triangle count *)
Lemma cluster_bounds (c : nat) :
  (c < cluster_count)%nat ->
  exists b B', drop c S = b :: B' /\
    (b < region_end B' (index_count / 3) <= index_count / 3)%nat.
Proof.
  intros Hc. destruct (drop c S) as [|b B'] eqn:Hd.
  - apply (f_equal length) in Hd. rewrite length_drop in Hd. simpl in Hd. lia.
  - exists b, B'. split; [reflexivity|].
    assert (Hs : StronglySorted lt (b :: B')).
    { rewrite <- Hd. rewrite <- (take_drop c S) in HSsorted.
      apply StronglySorted_app_1_r in HSsorted. exact HSsorted. }
    assert (Hb : Forall (fun b => b < index_count / 3)%nat (b :: B')).
    { rewrite <- Hd. apply Forall_drop. exact HSbound. }
    apply StronglySorted_inv in Hs. destruct Hs as [_ Hs].
    apply Forall_cons in Hb. destruct Hb as [Hb HB'].
    destruct B' as [|b' B'']; cbn [region_end]; [lia|].
    apply Forall_cons in Hs. apply Forall_cons in HB'. lia.
Qed.

Lemma sortDataStep_run (mesh_centroid : vec3) (c : nat) (sort_data : list ClusterSortData) :
  (c < cluster_count)%nat -> length sort_data = cluster_count ->
  exists d,
    sortDataStep indices index_count vertex_positions vertex_stride_float clusters
      cluster_count mesh_centroid c sort_data
    = Some (<[c := mkSortData (Z.of_nat c) d]> sort_data).
Proof.
  intros Hc Hlen.
  pose proof (vi_count _ _ _ Hvalid) as H32. pose proof (vi_triangles _ _ _ Hvalid) as H3.
  destruct (cluster_bounds c Hc) as (b & B' & Hd & Hbe).
  assert (Hb : S !! c = Some b).
  { rewrite <- (Nat.add_0_r c), <- lookup_drop, Hd. reflexivity. }
  assert (Hd' : drop (c + 1) S = B') by (rewrite <- drop_drop, Hd; reflexivity).
  assert (Hcb : (0 + c <= b)%nat).
  { apply (sorted_index_le S 0 c b HSsorted); [|exact Hb].
    apply Forall_forall. intros; lia. }
  unfold sortDataStep.
  rewrite (cluster_read clusters cluster_count S HS HSlen c b Hb). cbn [fmap option_fmap option_map].
  cbn [mbind option_bind].
  rewrite (wrap32_small (Z.of_nat b * 3)) by lia.
  replace (Z.to_nat (Z.of_nat b * 3)) with (b * 3)%nat by lia.
  set (e := region_end B' (index_count / 3)) in *.
  assert (Hend : (if (c + 1 <? cluster_count)%nat
                  then (fun c0 : Z => Z.to_nat (wrap32 (c0 * 3))) <$> clusters !! (c + 1)%nat
                  else Some index_count) = Some (e * 3)%nat).
  { assert (HlB : length B' = (cluster_count - (c + 1))%nat)
      by (rewrite <- Hd', length_drop, HSlen; reflexivity).
    destruct B' as [|b' B'']; cbn [length] in HlB.
    - replace (c + 1 <? cluster_count)%nat with false by (symmetry; apply Nat.ltb_ge; lia).
      unfold e. cbn [region_end]. f_equal. lia.
    - replace (c + 1 <? cluster_count)%nat with true by (symmetry; apply Nat.ltb_lt; lia).
      assert (Hb' : S !! (c + 1)%nat = Some b').
      { rewrite <- (Nat.add_0_r (c + 1)), <- lookup_drop, Hd'. reflexivity. }
      rewrite (cluster_read clusters cluster_count S HS HSlen _ _ Hb').
      cbn [fmap option_fmap option_map]. f_equal. unfold e in *. cbn [region_end] in *.
      rewrite wrap32_small by lia. lia. }
  rewrite Hend. cbn [mbind option_bind].
  replace (assert (b * 3 <? e * 3)%nat) with (Some tt)
    by (symmetry; apply assert_Some, Nat.ltb_lt; lia).
  cbn [mbind option_bind].
  destruct (accumulate_loop ((e * 3 - b * 3 + 2) / 3) (b * 3) (F32.zero, vec3_zero, vec3_zero))
    as ([[area cen] nor] & ->); [lia|].
  cbn [mbind option_bind]. rewrite clusterScore_run. cbn zeta. cbn [mbind option_bind].
  rewrite store_Some by lia. rewrite wrap32_of_nat by lia. eauto.
Qed.

Lemma sortData_loop (mesh_centroid : vec3) (sort_data : list ClusterSortData) :
  length sort_data = cluster_count ->
  exists sort_data',
    for_range cluster_count 0
      (sortDataStep indices index_count vertex_positions vertex_stride_float clusters
         cluster_count mesh_centroid) sort_data = Some sort_data'
    /\ cluster <$> sort_data' = Z.of_nat <$> seq 0 cluster_count.
Proof.
  intros Hlen.
  destruct (for_range_inv
              (fun c sd => length sd = cluster_count /\
                           take c (cluster <$> sd) = Z.of_nat <$> seq 0 c)
              cluster_count 0
              (sortDataStep indices index_count vertex_positions vertex_stride_float clusters
                 cluster_count mesh_centroid) sort_data) as (sd' & Hrun & Hl' & Ht').
  - split; [exact Hlen|]. rewrite take_0. reflexivity.
  - intros c sd Hc [Hl Ht]. destruct (sortDataStep_run mesh_centroid c sd) as [d Hd]; [lia|exact Hl|].
    eexists. split; [exact Hd|]. split; [rewrite length_insert; exact Hl|].
    rewrite list_fmap_insert. cbn [cluster].
    rewrite take_store_snoc by (rewrite length_fmap; lia).
    rewrite Ht, seq_S, fmap_app. reflexivity.
  - exists sd'. split; [exact Hrun|]. cbn [Nat.add] in Ht'.
    rewrite take_ge in Ht' by (rewrite length_fmap; lia). exact Ht'.
Qed.

Lemma calculateSortData_run (sort_data : list ClusterSortData) (vertex_positions_stride : nat) :
  (vertex_positions_stride / 4)%nat = vertex_stride_float ->
  index_count <> 0%nat ->
  length sort_data = cluster_count ->
  exists sort_data',
    calculateSortData sort_data indices index_count vertex_positions vertex_positions_stride
      clusters cluster_count = Some sort_data'
    /\ cluster <$> sort_data' = Z.of_nat <$> seq 0 cluster_count.
Proof.
  intros Hstride Hne Hlen. unfold calculateSortData. rewrite Hstride.
  destruct centroid_loop as ([[m0 m1] m2] & ->). cbn [mbind option_bind].
  unfold F32.div at 1 2 3. unfold F32.of_nat.
  rewrite F32Facts.of_Z_pos_nonzero by lia. cbn [mbind option_bind].
  apply sortData_loop. exact Hlen.
Qed.

End SortData.

(** ** The cluster sequencer *)

Lemma chunks_from (tris : list tri) (S : list nat) (n : nat) : forall k : nat,
  StronglySorted lt S -> Forall (fun b => b < length tris)%nat S ->
  (k + n = length S)%nat ->
  seq k n ≫= chunk tris S = drop (region_end (drop k S) (length tris)) tris.
Proof.
  induction n as [|n IH]; intros k Hs Hb Hk.
  - rewrite (drop_ge S k) by lia. cbn [region_end seq]. rewrite drop_all. reflexivity.
  - cbn [seq]. rewrite bind_cons, IH by (try assumption; lia).
    destruct (drop k S) as [|b B'] eqn:Hd.
    { apply (f_equal length) in Hd. rewrite length_drop in Hd. simpl in Hd. lia. }
    assert (Hd' : drop (Datatypes.S k) S = B').
    { replace (Datatypes.S k) with (k + 1)%nat by lia. rewrite <- drop_drop, Hd. reflexivity. }
    unfold chunk. rewrite Hd, Hd'. cbn [region_end].
    set (e := region_end B' (length tris)).
    assert (He : (b <= e)%nat).
    { assert (Hs' : StronglySorted lt (b :: B')).
      { rewrite <- Hd. rewrite <- (take_drop k S) in Hs.
        apply StronglySorted_app_1_r in Hs. exact Hs. }
      assert (Hb' : Forall (fun b => b < length tris)%nat (b :: B'))
        by (rewrite <- Hd; apply Forall_drop; exact Hb).
      apply StronglySorted_inv in Hs'. destruct Hs' as [_ Hs'].
      apply Forall_cons in Hb'. destruct Hb' as [Hb1 Hb2].
      unfold e. destruct B' as [|b' B'']; cbn [region_end]; [lia|].
      apply Forall_cons in Hs'. lia. }
    replace (drop e tris) with (drop (e - b) (drop b tris))
      by (rewrite drop_drop; f_equal; lia).
    apply take_drop.
Qed.

Lemma chunks_all (tris : list tri) (S : list nat) :
  StronglySorted lt S -> Forall (fun b => b < length tris)%nat S ->
  head S = Some 0%nat ->
  seq 0 (length S) ≫= chunk tris S = tris.
Proof.
  intros Hs Hb Hh. rewrite (chunks_from tris S (length S) 0 Hs Hb) by lia.
  rewrite drop_0. destruct S as [|b S']; [discriminate Hh|].
  injection Hh as ->. reflexivity.
Qed.

Section Sequencer.
Variables (indices : list Z) (index_count vertex_count : nat).
Hypothesis Hvalid : valid_input indices index_count vertex_count.

Let tris := triangles indices.

Lemma copyStep_run (i : nat) (destination : list Z) (offset : nat) (t : tri) :
  tris !! i = Some t -> (offset + 3 <= length destination)%nat ->
  copyStep indices i (destination, offset)
  = Some (<[(offset + 2)%nat := t.2]> (<[(offset + 1)%nat := t.1.2]> (<[offset := t.1.1]> destination)),
          (offset + 3)%nat).
Proof.
  intros Ht Hroom. destruct t as [[a b] c]. apply triangles_lookup in Ht.
  destruct Ht as (Ha & Hb & Hc). unfold copyStep.
  replace (3 * i + 0)%nat with (i * 3 + 0)%nat by lia.
  replace (3 * i + 1)%nat with (i * 3 + 1)%nat by lia.
  replace (3 * i + 2)%nat with (i * 3 + 2)%nat by lia.
  rewrite Ha, Hb, Hc. cbn [mbind option_bind fst snd].
  rewrite store_Some by lia. cbn [mbind option_bind].
  rewrite store_Some by (rewrite length_insert; lia). cbn [mbind option_bind].
  rewrite store_Some by (rewrite !length_insert; lia). cbn [mbind option_bind].
  do 3 f_equal; try lia.
  replace (Datatypes.S (Datatypes.S offset)) with (offset + 2)%nat by lia.
  replace (Datatypes.S offset) with (offset + 1)%nat by lia. reflexivity.
Qed.

Lemma copy_loop (n : nat) : forall (i : nat) (destination : list Z) (offset : nat),
  (i + n <= length tris)%nat -> (offset + 3 * n <= length destination)%nat ->
  (offset mod 3 = 0)%nat ->
  exists destination',
    for_range n i (copyStep indices) (destination, offset)
      = Some (destination', (offset + 3 * n)%nat) /\
    length destination' = length destination /\
    triangles (take (offset + 3 * n) destination')
      = triangles (take offset destination) ++ take n (drop i tris) /\
    drop (offset + 3 * n) destination' = drop (offset + 3 * n) destination.
Proof.
  induction n as [|n IH]; intros i destination offset Hi Hroom Hmod.
  - exists destination. rewrite Nat.mul_0_r, Nat.add_0_r, take_0, app_nil_r.
    repeat split; reflexivity.
  - destruct (lookup_lt_is_Some_2 tris i) as [t Ht]; [lia|].
    rewrite for_range_S, (copyStep_run i destination offset t Ht) by lia.
    cbn [mbind option_bind].
    set (d3 := <[(offset + 2)%nat := t.2]> (<[(offset + 1)%nat := t.1.2]> (<[offset := t.1.1]> destination))).
    assert (Hl3 : length d3 = length destination) by (unfold d3; rewrite !length_insert; reflexivity).
    destruct (IH (Datatypes.S i) d3 (offset + 3)%nat) as (d' & Hrun & Hlen & Htri & Hdrop);
      try lia.
    exists d'. replace (offset + 3 * Datatypes.S n)%nat with (offset + 3 + 3 * n)%nat by lia.
    split; [exact Hrun|]. split; [lia|]. split.
    + rewrite Htri. rewrite (drop_S _ _ _ Ht). cbn [take].
      assert (Ht3 : take (offset + 3) d3 = take offset destination ++ [t.1.1; t.1.2; t.2]).
      { unfold d3.
        replace (offset + 3)%nat with (Datatypes.S (offset + 2)) by lia.
        rewrite take_store_snoc by (rewrite !length_insert; lia).
        replace (offset + 2)%nat with (Datatypes.S (offset + 1)) by lia.
        rewrite take_store_snoc by (rewrite !length_insert; lia).
        replace (offset + 1)%nat with (Datatypes.S offset) by lia.
        rewrite take_store_snoc by lia. rewrite <- !app_assoc. reflexivity. }
      rewrite Ht3, triangles_app by (rewrite length_take; lia).
      destruct t as [[a b] c]. cbn [triangles fst snd]. rewrite <- app_assoc. reflexivity.
    + rewrite Hdrop. unfold d3. rewrite !drop_insert_lt by lia. reflexivity.
Qed.

Variables (clusters : list Z) (cluster_count : nat) (S : list nat).
Hypothesis HS : take cluster_count clusters = Z.of_nat <$> S.
Hypothesis HSlen : length S = cluster_count.
Hypothesis HSsorted : StronglySorted lt S.
Hypothesis HSbound : Forall (fun b => b < index_count / 3)%nat S.
Hypothesis HShead : head S = Some 0%nat.

Variable sort_data : list ClusterSortData.
Hypothesis Hperm : cluster <$> sort_data ≡ₚ Z.of_nat <$> seq 0 cluster_count.

Let ids : list nat := (fun d => Z.to_nat (cluster d)) <$> sort_data.

Lemma ids_perm : ids ≡ₚ seq 0 cluster_count.
Proof.
  unfold ids. rewrite (list_fmap_compose cluster Z.to_nat). rewrite Hperm.
  rewrite <- list_fmap_compose. rewrite <- (list_fmap_id (seq 0 cluster_count)) at 2.
  replace (Z.to_nat ∘ Z.of_nat <$> seq 0 cluster_count) with (id <$> seq 0 cluster_count);
    [reflexivity|].
  apply list_fmap_ext. intros _ x _. simpl. lia.
Qed.

Lemma ids_chunks : ids ≫= chunk tris S ≡ₚ tris.
Proof.
  pose proof (valid_faces _ _ _ Hvalid) as Hfaces. fold tris in Hfaces.
  rewrite ids_perm, <- HSlen. rewrite chunks_all; try assumption; [reflexivity|].
  rewrite Hfaces. exact HSbound.
Qed.

Lemma ids_prefix_length (k : nat) :
  (length (take k ids ≫= chunk tris S) <= index_count / 3)%nat.
Proof.
  pose proof (valid_faces _ _ _ Hvalid) as Hfaces. fold tris in Hfaces.
  rewrite <- Hfaces, <- (Permutation_length ids_chunks).
  rewrite <- (take_drop k ids) at 2. rewrite bind_app, length_app. lia.
Qed.

Lemma emitStep_inv (destination : list Z) (it : nat) (st : list Z * nat) :
  (index_count <= length destination)%nat ->
  (it < cluster_count)%nat -> emit_inv index_count tris S ids destination it st ->
  exists st',
    emitStep indices index_count clusters cluster_count sort_data it st = Some st' /\
    emit_inv index_count tris S ids destination (Datatypes.S it) st'.
Proof.
  intros Hdest Hit (Hlen & Hoff & Htri & Hframe).
  pose proof (valid_faces _ _ _ Hvalid) as Hfaces. fold tris in Hfaces.
  pose proof (vi_triangles _ _ _ Hvalid) as H3.
  assert (Hidl : length ids = cluster_count).
  { rewrite (Permutation_length ids_perm). apply length_seq. }
  destruct (lookup_lt_is_Some_2 ids it) as [c Hc]; [lia|].
  assert (Hcc : (c < cluster_count)%nat).
  { assert (Hin : c ∈ seq 0 cluster_count).
    { rewrite <- ids_perm. eapply list_elem_of_lookup_2. exact Hc. }
    apply elem_of_seq in Hin. lia. }
  destruct (cluster_bounds index_count cluster_count S HSlen HSsorted HSbound c Hcc)
    as (b & B' & Hd & Hbe).
  destruct (region_reads indices index_count vertex_count Hvalid clusters cluster_count S HS
              HSlen c b B' Hd) as (Rs & Re).
  fold tris in Re. rewrite Hfaces in Re.
  set (e := region_end B' (index_count / 3)) in *.
  unfold emitStep.
  unfold ids in Hc. rewrite list_lookup_fmap in Hc. rewrite Hc. cbn [mbind option_bind].
  replace (assert (c <? cluster_count)%nat) with (Some tt)
    by (symmetry; apply assert_Some, Nat.ltb_lt; lia).
  cbn [mbind option_bind]. rewrite Rs. cbn [mbind option_bind]. rewrite Re.
  cbn [mbind option_bind].
  replace (assert (b <? e)%nat) with (Some tt)
    by (symmetry; apply assert_Some, Nat.ltb_lt; lia).
  cbn [mbind option_bind].
  assert (Hchunk : chunk tris S c = take (e - b) (drop b tris)).
  { unfold chunk. rewrite Hd, Hfaces. reflexivity. }
  assert (Htake : take (Datatypes.S it) ids = take it ids ++ [c]).
  { apply take_S_r. unfold ids. rewrite list_lookup_fmap. exact Hc. }
  assert (Hnext : take (Datatypes.S it) ids ≫= chunk tris S
                  = (take it ids ≫= chunk tris S) ++ take (e - b) (drop b tris)).
  { rewrite Htake, bind_app, bind_singleton, Hchunk. reflexivity. }
  pose proof (ids_prefix_length (Datatypes.S it)) as Hle.
  rewrite Hnext, length_app, length_take, length_drop in Hle.
  destruct st as [d off]. cbn [fst snd] in *.
  destruct (copy_loop (e - b) b d off) as (d' & Hrun & Hlen' & Htri' & Hdrop'); try lia.
  exists (d', (off + 3 * (e - b))%nat). split; [exact Hrun|].
  unfold emit_inv. cbn [fst snd]. rewrite Hnext, length_app, length_take, length_drop.
  split; [lia|]. split; [lia|]. split; [rewrite Htri', Htri; reflexivity|].
  rewrite <- Hframe.
  replace index_count with ((off + 3 * (e - b)) + (index_count - (off + 3 * (e - b))))%nat
    by lia.
  rewrite <- (drop_drop d' (index_count - (off + 3 * (e - b))) (off + 3 * (e - b))).
  rewrite <- (drop_drop d (index_count - (off + 3 * (e - b))) (off + 3 * (e - b))).
  rewrite Hdrop'. reflexivity.
Qed.

Lemma emit_loop (destination : list Z) :
  (index_count <= length destination)%nat ->
  exists destination',
    for_range cluster_count 0
      (emitStep indices index_count clusters cluster_count sort_data) (destination, 0%nat)
      = Some (destination', index_count) /\
    length destination' = length destination /\
    triangles (take index_count destination') ≡ₚ tris /\
    drop index_count destination' = drop index_count destination.
Proof.
  intros Hdest.
  pose proof (valid_faces _ _ _ Hvalid) as Hfaces. fold tris in Hfaces.
  pose proof (vi_triangles _ _ _ Hvalid) as H3.
  destruct (for_range_inv (emit_inv index_count tris S ids destination) cluster_count 0
              (emitStep indices index_count clusters cluster_count sort_data)
              (destination, 0%nat)) as ([d' off] & Hrun & Hlen & Hoff & Htri & Hframe).
  - unfold emit_inv. cbn [fst snd]. rewrite !take_0. repeat split; reflexivity.
  - intros it st Hit. apply emitStep_inv; [exact Hdest | lia].
  - cbn [fst snd Nat.add] in *.
    assert (Hidl : length ids = cluster_count).
    { rewrite (Permutation_length ids_perm). apply length_seq. }
    rewrite take_ge in Hoff, Htri by lia.
    rewrite (Permutation_length ids_chunks), Hfaces in Hoff.
    replace off with index_count in * by lia.
    exists d'. split; [exact Hrun|]. split; [exact Hlen|].
    split; [rewrite Htri; apply ids_chunks | exact Hframe].
Qed.

End Sequencer.

(** * The properties *)

(** ** The entry point *)

Lemma asserts_pass (index_count vertex_positions_stride : nat) (cache_size : Z) :
  (index_count mod 3 = 0)%nat ->
  (0 < vertex_positions_stride <= 256)%nat ->
  (vertex_positions_stride mod 4 = 0)%nat ->
  3 <= cache_size ->
  assert (index_count mod 3 =? 0)%nat = Some tt /\
  assert ((0 <? vertex_positions_stride)%nat && (vertex_positions_stride <=? 256)%nat) = Some tt /\
  assert (vertex_positions_stride mod 4 =? 0)%nat = Some tt /\
  assert (3 <=? cache_size) = Some tt.
Proof.
  intros H3 Hs H4 Hc. repeat split; apply assert_Some.
  - apply Nat.eqb_eq. exact H3.
  - apply andb_true_intro. split; [apply Nat.ltb_lt | apply Nat.leb_le]; lia.
  - apply Nat.eqb_eq. exact H4.
  - apply Z.leb_le. exact Hc.
Qed.

(** C9: with [index_count = 0] or [vertex_count = 0], and the asserted
    preconditions satisfied, [meshopt_optimizeOverdraw] returns with the
    destination buffer exactly as it received it: no element is written. *)
Theorem optimizeOverdraw_empty_noop
    (std_sort : list ClusterSortData -> list ClusterSortData)
    (destination : list Z) (indices_arg : IndexArg) (index_count : nat)
    (vertex_positions : list float) (vertex_count vertex_positions_stride : nat)
    (cache_size : Z) (threshold : float) :
  (index_count mod 3 = 0)%nat ->
  (0 < vertex_positions_stride <= 256)%nat ->
  (vertex_positions_stride mod 4 = 0)%nat ->
  3 <= cache_size ->
  index_count = 0%nat \/ vertex_count = 0%nat ->
  meshopt_optimizeOverdraw std_sort destination indices_arg index_count vertex_positions
    vertex_count vertex_positions_stride cache_size threshold = Some destination.
Proof.
  intros H3 Hs H4 Hc Hempty.
  destruct (asserts_pass index_count vertex_positions_stride cache_size H3 Hs H4 Hc)
    as (A1 & A2 & A3 & A4).
  unfold meshopt_optimizeOverdraw. rewrite A1, A2, A3, A4. cbn [mbind option_bind].
  replace ((index_count =? 0)%nat || (vertex_count =? 0)%nat) with true; [reflexivity|].
  symmetry. apply orb_true_intro.
  destruct Hempty as [->| ->]; [left | right]; reflexivity.
Qed.

(** C1: on every valid input (whole triangles, fewer than 2^32 indices,
    stride within bounds, [cache_size >= 3], every index below
    [vertex_count], buffers as large as the interface says, [std::sort]
    rearranging its argument), [meshopt_optimizeOverdraw] returns; it has
    written the first [index_count] elements of the destination and nothing
    else; the triangles of the output, as ordered triples, are a permutation
    of the triangles of the input, and so are the indices themselves. *)
Theorem optimizeOverdraw_permutation
    (std_sort : list ClusterSortData -> list ClusterSortData)
    (destination : list Z) (indices_arg : IndexArg) (index_count : nat)
    (vertex_positions : list float) (vertex_count vertex_positions_stride : nat)
    (cache_size : Z) (threshold : float) :
  (forall l, std_sort l ≡ₚ l) ->
  valid_input (input_indices indices_arg destination index_count) index_count vertex_count ->
  (0 < vertex_positions_stride <= 256)%nat ->
  (vertex_positions_stride mod 4 = 0)%nat ->
  3 <= cache_size ->
  positions_ok vertex_positions (vertex_positions_stride / 4) vertex_count ->
  (index_count <= length destination)%nat ->
  exists destination',
    meshopt_optimizeOverdraw std_sort destination indices_arg index_count vertex_positions
      vertex_count vertex_positions_stride cache_size threshold = Some destination' /\
    length destination' = length destination /\
    drop index_count destination' = drop index_count destination /\
    triangles (take index_count destination')
      ≡ₚ triangles (input_indices indices_arg destination index_count) /\
    take index_count destination' ≡ₚ input_indices indices_arg destination index_count.
Proof.
  intros Hsort Hvalid Hs H4 Hc Hpos Hdest.
  cut (exists destination',
         meshopt_optimizeOverdraw std_sort destination indices_arg index_count
           vertex_positions vertex_count vertex_positions_stride cache_size threshold
           = Some destination' /\
         length destination' = length destination /\
         drop index_count destination' = drop index_count destination /\
         triangles (take index_count destination')
           ≡ₚ triangles (input_indices indices_arg destination index_count)).
  { intros (d' & Hrun & Hl & Hf & Hp). exists d'. repeat (split; [assumption|]).
    rewrite <- (untriangles_triangles (take index_count d')),
            <- (untriangles_triangles (input_indices indices_arg destination index_count)).
    - unfold untriangles. rewrite Hp. reflexivity.
    - rewrite (vi_length _ _ _ Hvalid). exact (vi_triangles _ _ _ Hvalid).
    - rewrite length_take, Hl. pose proof (vi_triangles _ _ _ Hvalid). lia. }
  set (indices := input_indices indices_arg destination index_count) in *.
  pose proof (vi_triangles _ _ _ Hvalid) as H3.
  pose proof (vi_length _ _ _ Hvalid) as Hlen.
  pose proof (valid_faces _ _ _ Hvalid) as Hfaces.
  destruct (asserts_pass index_count vertex_positions_stride cache_size H3 Hs H4 Hc)
    as (A1 & A2 & A3 & A4).
  unfold meshopt_optimizeOverdraw. rewrite A1, A2, A3, A4. cbn [mbind option_bind].
  destruct (Nat.eq_dec index_count 0%nat) as [H0|Hne].
  { exists destination. rewrite H0. cbn [Nat.eqb orb]. rewrite take_0.
    destruct indices as [|x l]; [|cbn [length] in Hlen; lia].
    repeat split; reflexivity. }
  assert (Hvc : vertex_count <> 0%nat).
  { intros ->. destruct indices as [|x l]; [cbn [length] in Hlen; lia|].
    pose proof (vi_range _ _ _ Hvalid) as Hr. apply Forall_cons in Hr. lia. }
  replace ((index_count =? 0)%nat || (vertex_count =? 0)%nat) with false.
  2:{ symmetry. apply orb_false_intro; apply Nat.eqb_neq; assumption. }
  fold (input_indices indices_arg destination index_count). fold indices.
  destruct (boundaries_run (replicate (index_count / 3) 0) (replicate (index_count / 3 + 1) 0)
              indices index_count vertex_count cache_size threshold Hvalid)
    as (hc & sc & Hhard & Hhtake & Hsoft & Hstake & Hslen);
    [rewrite length_replicate; lia | rewrite length_replicate; lia |].
  set (tris := triangles indices) in *.
  set (H := hard_boundaries cache_size vertex_count tris) in *.
  set (S := soft_boundaries cache_size threshold vertex_count tris H) in *.
  assert (Htne : tris <> []).
  { intros Hnil. rewrite Hnil in Hfaces. cbn [length] in Hfaces. lia. }
  destruct (soft_boundaries_shape cache_size threshold vertex_count tris Htne)
    as (_ & Ssorted & Sbound & _ & _ & Shead).
  fold H in Ssorted, Sbound, Shead. fold S in Ssorted, Sbound, Shead.
  rewrite Hfaces in Sbound.
  rewrite Hhard. cbn [mbind option_bind]. rewrite Hsoft. cbn [mbind option_bind].
  destruct (calculateSortData_run indices index_count vertex_count vertex_positions
              (vertex_positions_stride / 4) Hvalid Hpos sc (length S) S Hstake eq_refl
              Ssorted Sbound (replicate (length S) (mkSortData 0 F32.zero))
              vertex_positions_stride eq_refl Hne)
    as (sd & Hcalc & Hids); [apply length_replicate|].
  rewrite Hcalc. cbn [mbind option_bind].
  destruct (emit_loop indices index_count vertex_count Hvalid sc (length S) S Hstake eq_refl
              Ssorted Sbound Shead (std_sort sd)) with (destination := destination)
    as (d' & Hrun & Hdlen & Hperm & Hframe).
  - rewrite Hsort. rewrite Hids. reflexivity.
  - exact Hdest.
  - rewrite Hrun. cbn [mbind option_bind].
    replace (assert (index_count =? index_count)%nat) with (Some tt)
      by (symmetry; apply assert_Some, Nat.eqb_refl).
    cbn [mbind option_bind]. exists d'. auto.
Qed.

(** *** The concrete mesh *)

Lemma insert_sorted_perm (x : ClusterSortData) (l : list ClusterSortData) :
  insert_sorted x l ≡ₚ x :: l.
Proof.
  induction l as [|y l IH]; [reflexivity|].
  simpl. destruct (ClusterSortData_lt y x); [|reflexivity].
  rewrite IH. apply Permutation_swap.
Qed.

Lemma insertion_sort_perm (l : list ClusterSortData) : insertion_sort l ≡ₚ l.
Proof.
  induction l as [|x l IH]; [reflexivity|].
  unfold insertion_sort in *. simpl. rewrite insert_sorted_perm, IH. reflexivity.
Qed.

Lemma mesh_valid : valid_input mesh_indices 15 7.
Proof.
  constructor; [reflexivity | reflexivity | | reflexivity].
  unfold mesh_indices. repeat constructor; lia.
Qed.

Lemma mesh_positions_ok : positions_ok mesh_positions (12 / 4) 7.
Proof. intros v Hv. change (3 * v + 2 < 21)%nat. lia. Qed.

Lemma optimizeOverdraw_empty_noop_witness :
  meshopt_optimizeOverdraw insertion_sort [7; 8; 9] (OtherBuffer []) 0 [] 0 12 16 F32.one
  = Some [7; 8; 9].
Proof.
  apply optimizeOverdraw_empty_noop; [reflexivity | lia | reflexivity | lia | left; reflexivity].
Defined.

Lemma optimizeOverdraw_permutation_witness :
  exists destination',
    meshopt_optimizeOverdraw insertion_sort (replicate 15 0) (OtherBuffer mesh_indices) 15
      mesh_positions 7 12 16 F32.one = Some destination' /\
    length destination' = 15%nat /\
    drop 15 destination' = [] /\
    triangles (take 15 destination') ≡ₚ triangles mesh_indices /\
    take 15 destination' ≡ₚ mesh_indices.
Proof.
  apply (optimizeOverdraw_permutation insertion_sort (replicate 15 0) (OtherBuffer mesh_indices)
           15 mesh_positions 7 12 16 F32.one).
  - exact insertion_sort_perm.
  - exact mesh_valid.
  - lia.
  - reflexivity.
  - lia.
  - exact mesh_positions_ok.
  - simpl. lia.
Defined.

(** ** The cache simulation *)

(** C2: [updateCache] on a triangle (a, b, c) tests a, then b, then c, each
    against the state its predecessors left; a test is a hit iff
    [timestamp - last_used[v] <= cache_size] (in [unsigned] arithmetic); a
    miss stores the current timestamp in [last_used[v]] and advances the
    timestamp by one; the value returned is the number of misses among the
    three tests. *)
Theorem updateCache_spec (a b c cache_size : Z) (cache_timestamps : list Z) (timestamp : Z) :
  0 <= a < Z.of_nat (length cache_timestamps) ->
  0 <= b < Z.of_nat (length cache_timestamps) ->
  0 <= c < Z.of_nat (length cache_timestamps) ->
  let s0 := (cache_timestamps, timestamp) in
  let ra := access cache_size s0 a in
  let rb := access cache_size ra.2 b in
  let rc := access cache_size rb.2 c in
  updateCache a b c cache_size cache_timestamps timestamp
    = Some (Z.b2z ra.1 + Z.b2z rb.1 + Z.b2z rc.1, rc.2.1, rc.2.2) /\
  (forall (s : sim) (v : Z),
     ((access cache_size s v).1 = false <-> wrap32 (s.2 - last_used s v) <= cache_size) /\
     ((access cache_size s v).1 = false -> (access cache_size s v).2 = s) /\
     ((access cache_size s v).1 = true ->
        (access cache_size s v).2 = (<[Z.to_nat v := s.2]> (s.1), wrap32 (s.2 + 1)))).
Proof.
  intros Ha Hb Hc. cbn zeta. split.
  - rewrite updateCache_tri_access by assumption. unfold tri_access. cbn zeta.
    destruct (access cache_size (cache_timestamps, timestamp) a) as [ma s1]. cbn [fst snd].
    destruct (access cache_size s1 b) as [mb s2]. cbn [fst snd].
    destruct (access cache_size s2 c) as [mc s3]. reflexivity.
  - intros s v. unfold access.
    destruct (decide (cache_hit cache_size s v)) as [Hh|Hm]; cbn [fst snd];
      unfold cache_hit in *.
    + repeat split; solve [auto | discriminate].
    + repeat split; solve [auto | discriminate | intros; contradiction].
Qed.

Lemma updateCache_spec_witness :
  updateCache 0 1 1 16 [0; 0; 0] 17 = Some (2, [17; 18; 0], 19).
Proof.
  destruct (updateCache_spec 0 1 1 16 [0; 0; 0] 17) as [H _]; [simpl; lia ..|].
  exact H.
Defined.

(** ** The hard boundary detector *)

(** C3: on a valid, non-empty index buffer [generateHardBoundaries], running
    one simulation over all triangles in input order, records triangle index
    [i] if and only if [i = 0] or all three vertices of triangle [i] miss;
    the entries are in increasing order, the first entry is 0 and there are
    at most as many entries as triangles. *)
Theorem generateHardBoundaries_spec (destination indices : list Z)
    (index_count vertex_count : nat) (cache_size : Z) :
  valid_input indices index_count vertex_count ->
  index_count <> 0%nat ->
  (index_count / 3 <= length destination)%nat ->
  let tris := triangles indices in
  let s0 := hard_start vertex_count cache_size in
  exists (destination' : list Z) (result : nat),
    generateHardBoundaries destination indices index_count vertex_count cache_size
      = Some (destination', result) /\
    (forall i : nat,
       Z.of_nat i ∈ take result destination' <->
       (i < index_count / 3)%nat /\
       (i = 0%nat \/
        exists m, flags_at cache_size s0 tris i = Some m /\ m = (true, true, true))) /\
    take result destination'
      = Z.of_nat <$> filter (is_hard cache_size s0 tris) (seq 0 (index_count / 3)) /\
    head destination' = Some 0 /\
    (result <= index_count / 3)%nat.
Proof.
  intros Hvalid Hne Hdest tris s0.
  pose proof (valid_faces _ _ _ Hvalid) as Hfaces. fold tris in Hfaces.
  pose proof (vi_triangles _ _ _ Hvalid) as H3.
  destruct (generateHardBoundaries_run indices index_count vertex_count cache_size
              destination Hvalid Hdest) as (d' & Hrun & Hlen & Htake & _).
  fold tris in Hrun, Htake.
  set (H := hard_boundaries cache_size vertex_count tris) in *.
  assert (HH : H = filter (is_hard cache_size s0 tris) (seq 0 (index_count / 3)))
    by (unfold H, hard_boundaries; rewrite Hfaces; reflexivity).
  assert (Htne : tris <> []).
  { intros Hnil. rewrite Hnil in Hfaces. cbn [length] in Hfaces. lia. }
  destruct (hard_boundaries_head cache_size vertex_count tris Htne) as [H' Hhead]. fold H in Hhead.
  exists d', (length H). split; [exact Hrun|]. split; [|split; [|split]].
  - intros i. rewrite Htake. rewrite (list_elem_of_fmap_inj Z.of_nat).
    rewrite HH, list_elem_of_filter, elem_of_seq. unfold is_hard.
    split.
    + intros [[->|Hm] Hi]; (split; [lia|]); [left; reflexivity|]. right.
      destruct (flags_at cache_size s0 tris i) as [[[[] []] []]|]; try discriminate Hm.
      eauto.
    + intros [Hi [->|(m & Hm & ->)]]; (split; [|lia]); [left; reflexivity|].
      right. rewrite Hm. reflexivity.
  - rewrite Htake, HH. reflexivity.
  - rewrite Hhead in Htake. cbn [length take fmap list_fmap] in Htake.
    destruct d' as [|x d']; [discriminate Htake|]. cbn [take] in Htake.
    injection Htake as -> _. reflexivity.
  - rewrite <- Hfaces. apply hard_boundaries_length.
Qed.

Lemma generateHardBoundaries_spec_witness :
  exists (destination' : list Z) (result : nat),
    generateHardBoundaries (replicate 5 0) mesh_indices 15 7 16 = Some (destination', result) /\
    take result destination' = [0; 4] /\ head destination' = Some 0 /\ (result <= 5)%nat.
Proof.
  destruct (generateHardBoundaries_spec (replicate 5 0) mesh_indices 15 7 16 mesh_valid)
    as (d & r & Hrun & _ & Htake & Hhead & Hle); [lia | simpl; lia |].
  exists d, r. split; [exact Hrun|]. split; [|split; [exact Hhead | exact Hle]].
  rewrite Htake. vm_compute. reflexivity.
Defined.

(** ** The soft boundary generator, one region *)

Lemma region_ready_drop indices index_count vertex_count clusters cluster_count B it b e st :
  region_ready indices index_count vertex_count clusters cluster_count B it b e st ->
  drop it B = b :: drop (it + 1) B /\
  e = region_end (drop (it + 1) B) (length (triangles indices)).
Proof.
  intros R. split.
  - replace (it + 1)%nat with (Datatypes.S it) by lia. apply drop_S. apply (rr_start _ _ _ _ _ _ _ _ _ _ R).
  - rewrite (valid_faces _ _ _ (rr_valid _ _ _ _ _ _ _ _ _ _ R)).
    apply (rr_end _ _ _ _ _ _ _ _ _ _ R).
Qed.

(** the run of one region, with everything the statements below need *)
Lemma region_run indices index_count vertex_count clusters cluster_count B it b e st
    (cache_size : Z) (threshold : float) :
  region_ready indices index_count vertex_count clusters cluster_count B it b e st ->
  let r := soft_region cache_size threshold (triangles indices) b e
             (sb_cache st, sb_timestamp st) in
  exists (E : list nat) (w : WalkState) (st' : SoftState) (x : nat),
    r.1 = b :: E /\
    Forall (fun y => b < y <= e)%nat E /\
    softRegionWalk indices index_count clusters cluster_count cache_size threshold it st
      = Some (b, w) /\
    wk_result w = (sb_result st + length (b :: E))%nat /\
    take (wk_result w) (wk_destination w)
      = take (sb_result st) (sb_destination st) ++ (Z.of_nat <$> b :: E) /\
    (wk_cache w, wk_timestamp w) = r.2 /\
    last (b :: E) = Some x /\
    wk_destination w !! (wk_result w - 1)%nat = Some (Z.of_nat x) /\
    popTrailing b w = Some st' /\
    softRegion indices index_count clusters cluster_count cache_size threshold it st
      = Some st' /\
    sb_destination st' = wk_destination w /\
    sb_result st' = (sb_result st + length (pop_trailing b (b :: E)))%nat /\
    take (sb_result st') (sb_destination st')
      = take (sb_result st) (sb_destination st) ++ (Z.of_nat <$> pop_trailing b (b :: E)) /\
    pop_trailing b (b :: E) = b :: removelast E.
Proof.
  intros R r. destruct (region_ready_drop _ _ _ _ _ _ _ _ _ _ R) as [Hd He].
  pose proof (rr_valid _ _ _ _ _ _ _ _ _ _ R) as Hvalid.
  pose proof (valid_faces _ _ _ Hvalid) as Hfaces.
  pose proof (rr_bounds _ _ _ _ _ _ _ _ _ _ R) as Hbe.
  pose proof (rr_room _ _ _ _ _ _ _ _ _ _ R) as Hroom.
  destruct (softRegionWalk_run indices index_count vertex_count cache_size Hvalid clusters
              cluster_count threshold B (rr_clusters _ _ _ _ _ _ _ _ _ _ R)
              (rr_count _ _ _ _ _ _ _ _ _ _ R) it b (drop (it + 1) B) st Hd)
    as (w & Hrun & Hlen & Hres & Htake & Hst).
  { rewrite <- He, Hfaces. exact Hbe. }
  { exact (rr_cache _ _ _ _ _ _ _ _ _ _ R). }
  { rewrite <- He. exact Hroom. }
  rewrite <- He in Hres, Htake, Hst. fold r in Hres, Htake, Hst.
  destruct (soft_region_shape cache_size threshold (triangles indices) b e
              (sb_cache st, sb_timestamp st)) as (E & HL & Hpop & _ & _ & _ & HE).
  { rewrite Hfaces. exact Hbe. }
  fold r in HL. rewrite HL in Hres, Htake.
  destruct (popTrailing_run b w (take (sb_result st) (sb_destination st)) (b :: E))
    as (st' & x & Hp & Hlast & Hlook & Hd' & Hr' & Ht' & _).
  { discriminate. }
  { rewrite length_take. lia. }
  { exact Htake. }
  rewrite length_take in Hr'.
  exists E, w, st', x. unfold softRegion. rewrite Hrun. cbn [mbind option_bind].
  repeat (split; [first [assumption | reflexivity | lia]|]). exact Hpop.
Qed.

(** C6: in every region the trailing emitted boundary is removed if and only
    if it does not equal the region's own start. *)
Theorem trailing_boundary_removed_iff indices index_count vertex_count clusters
    cluster_count B it b e st (cache_size : Z) (threshold : float) :
  region_ready indices index_count vertex_count clusters cluster_count B it b e st ->
  exists (w : WalkState) (st' : SoftState) (trailing : nat),
    softRegionWalk indices index_count clusters cluster_count cache_size threshold it st
      = Some (b, w) /\
    (1 <= wk_result w)%nat /\
    wk_destination w !! (wk_result w - 1)%nat = Some (Z.of_nat trailing) /\
    softRegion indices index_count clusters cluster_count cache_size threshold it st
      = Some st' /\
    sb_destination st' = wk_destination w /\
    (sb_result st' = (wk_result w - 1)%nat <-> trailing <> b) /\
    (sb_result st' = wk_result w <-> trailing = b).
Proof.
  intros R.
  destruct (region_run _ _ _ _ _ _ _ _ _ _ cache_size threshold R)
    as (E & w & st' & x & _ & _ & Hrun & Hres & _ & _ & Hlast & Hlook & _ & Hsoft & Hd
        & Hr' & _ & _).
  exists w, st', x. split; [exact Hrun|]. cbn [length] in Hres. split; [lia|].
  split; [exact Hlook|]. split; [exact Hsoft|]. split; [exact Hd|].
  unfold pop_trailing in Hr'. rewrite Hlast in Hr'.
  destruct (decide (Some x = Some b)) as [Heq|Hneq].
  - injection Heq as ->. cbn [length] in Hr'. split; split; intros; solve [lia | congruence].
  - assert (Hxb : x <> b) by congruence.
    rewrite removelast_firstn_len, length_take in Hr'. cbn [length] in Hr'.
    split; split; intros; solve [lia | congruence].
Qed.

(** *** The concrete region *)

Lemma walk_valid : valid_input walk_indices 12 4.
Proof.
  constructor; [reflexivity | reflexivity | | reflexivity].
  unfold walk_indices. repeat constructor; lia.
Qed.

Lemma walk_ready : region_ready walk_indices 12 4 [0] 1 [0%nat] 0 0 4 walk_start.
Proof.
  constructor; try reflexivity; [exact walk_valid | | ]; vm_compute; lia.
Qed.

Lemma trailing_boundary_removed_iff_witness :
  exists (w : WalkState) (st' : SoftState) (trailing : nat),
    softRegionWalk walk_indices 12 [0] 1 16 F32.one 0 walk_start = Some (0%nat, w) /\
    (1 <= wk_result w)%nat /\
    wk_destination w !! (wk_result w - 1)%nat = Some (Z.of_nat trailing) /\
    softRegion walk_indices 12 [0] 1 16 F32.one 0 walk_start = Some st' /\
    sb_destination st' = wk_destination w /\
    (sb_result st' = (wk_result w - 1)%nat <-> trailing <> 0%nat) /\
    (sb_result st' = wk_result w <-> trailing = 0%nat).
Proof.
  exact (trailing_boundary_removed_iff walk_indices 12 4 [0] 1 [0%nat] 0 0 4 walk_start 16
           F32.one walk_ready).
Defined.

(** in the region [0, 4) of [walk_indices] the walk emits 3 after the third
    triangle and nothing after the fourth; 3 starts the non-empty cluster
    [3, 4), and it is dropped *)
Lemma dropped_only_at_region_end_fails : ~ dropped_only_at_region_end.
Proof.
  intros Hclaim.
  destruct (Hclaim walk_indices 12%nat 4%nat [0] 1%nat [0%nat] 0%nat 0%nat 4%nat walk_start 16
              F32.one
              (mkWalk [0; 3; 0; 0; 0] 2 [58; 59; 40; 60] 61 3 1)
              (mkSoft [0; 3; 0; 0; 0] 1 [58; 59; 40; 60] 61) 3%nat walk_ready)
    as [_ H]; try (vm_compute; reflexivity).
  discriminate H.
Qed.

(** C5, amended: after walking a region the generator drops the last
    emitted boundary whenever the walk emitted one, whether that boundary
    equals the region end or lies inside the region; the region keeps its
    start followed by all boundaries of the walk but the last, and every
    boundary it keeps lies in [start, end). *)
Theorem trailing_boundary_dropped indices index_count vertex_count clusters
    cluster_count B it b e st (cache_size : Z) (threshold : float) :
  region_ready indices index_count vertex_count clusters cluster_count B it b e st ->
  exists (E : list nat) (w : WalkState) (st' : SoftState),
    softRegionWalk indices index_count clusters cluster_count cache_size threshold it st
      = Some (b, w) /\
    take (wk_result w) (wk_destination w)
      = take (sb_result st) (sb_destination st) ++ (Z.of_nat <$> b :: E) /\
    softRegion indices index_count clusters cluster_count cache_size threshold it st
      = Some st' /\
    take (sb_result st') (sb_destination st')
      = take (sb_result st) (sb_destination st) ++ (Z.of_nat <$> b :: removelast E) /\
    (forall x, last E = Some x ->
       (b < x <= e)%nat /\ sb_result st' = (wk_result w - 1)%nat) /\
    (E = [] -> sb_result st' = wk_result w) /\
    Forall (fun y => b <= y < e)%nat (b :: removelast E).
Proof.
  intros R.
  destruct (region_run _ _ _ _ _ _ _ _ _ _ cache_size threshold R)
    as (E & w & st' & x & HL & HE & Hrun & Hres & Htake & _ & _ & _ & _ & Hsoft & _
        & Hr' & Ht' & Hpop).
  pose proof (rr_bounds _ _ _ _ _ _ _ _ _ _ R) as Hbe.
  rewrite Hpop in Hr', Ht'.
  assert (Hrl : length (removelast E) = Init.Nat.pred (length E)).
  { rewrite removelast_firstn_len, length_take. lia. }
  cbn [length] in Hr', Hres.
  exists E, w, st'. repeat (split; [assumption|]). split; [|split].
  - intros y Hy. apply last_Some in Hy. destruct Hy as [E0 ->].
    rewrite length_app in *. cbn [length] in *.
    apply Forall_app in HE. destruct HE as [_ HE]. apply Forall_cons in HE. lia.
  - intros ->. cbn [length removelast] in *. lia.
  - constructor; [lia|].
    assert (Hs : StronglySorted lt E /\ Forall (fun y => y <= e)%nat E).
    { split; [|eapply Forall_impl; [exact HE|]; simpl; intros; lia].
      pose proof (valid_faces _ _ _ (rr_valid _ _ _ _ _ _ _ _ _ _ R)) as Hfaces.
      unfold soft_region in HL. cbn zeta in HL. cbn [fst] in HL. injection HL as <-.
      apply soft_walk_shape. }
    destruct Hs as [Hs Hle].
    pose proof (removelast_below E e Hs Hle) as Hlt.
    pose proof (removelast_Forall _ E HE) as Hgt.
    rewrite Forall_forall in *. intros y Hy. specialize (Hlt y Hy). specialize (Hgt y Hy).
    simpl in Hgt. lia.
Qed.

Lemma trailing_boundary_dropped_witness :
  exists (E : list nat) (w : WalkState) (st' : SoftState),
    softRegionWalk walk_indices 12 [0] 1 16 F32.one 0 walk_start = Some (0%nat, w) /\
    take (wk_result w) (wk_destination w) = Z.of_nat <$> 0%nat :: E /\
    softRegion walk_indices 12 [0] 1 16 F32.one 0 walk_start = Some st' /\
    take (sb_result st') (sb_destination st') = Z.of_nat <$> 0%nat :: removelast E.
Proof.
  destruct (trailing_boundary_dropped walk_indices 12 4 [0] 1 [0%nat] 0 0 4 walk_start 16
              F32.one walk_ready) as (E & w & st' & H1 & H2 & H3 & H4 & _).
  exists E, w, st'. auto.
Defined.

(** *** Is the cache cold after a reset? *)

Lemma reset_age (cs ts x : Z) :
  0 <= cs < 4294967296 ->
  (wrap32 (wrap32 (ts + wrap32 (cs + 1)) - x) <= cs <-> 4294967296 <= wrap32 (ts - x) + cs + 1).
Proof. intros H. unfold wrap32. lia. Qed.

(** after [timestamp += cache_size + 1] every vertex misses exactly when no
    entry is so old that its age wraps around with the advance *)
Lemma reset_cold_iff (cache_size : Z) (s : sim) :
  0 <= cache_size < 4294967296 ->
  (cold cache_size (reset_cache cache_size s) <->
   Forall (fun x => wrap32 (s.2 - x) + cache_size + 1 < 4294967296) s.1).
Proof.
  intros Hcs. unfold cold, cache_hit, last_used, reset_cache. cbn [fst snd].
  rewrite Forall_lookup. split.
  - intros H i x Hx. specialize (H (Z.of_nat i)).
    rewrite Nat2Z.id, Hx in H. cbn [default from_option] in H. unfold id in H.
    rewrite reset_age in H by exact Hcs.
    apply lookup_lt_Some in Hx. lia.
  - intros H v Hv. destruct (lookup_lt_is_Some_2 s.1 (Z.to_nat v)) as [x Hx]; [lia|].
    rewrite Hx. cbn [default from_option]. unfold id. rewrite reset_age by exact Hcs.
    specialize (H _ _ Hx). lia.
Qed.

Lemma one_triangle_ready :
  region_ready [0; 1; 2] 3 3 [0] 1 [0%nat] 0 0 1 (mkSoft (replicate 2 0) 0 (replicate 3 0) 0).
Proof.
  constructor; try reflexivity; [| vm_compute; lia | vm_compute; lia].
  constructor; [reflexivity | reflexivity | repeat constructor; lia | reflexivity].
Qed.

(** with [cache_size = 2^32 - 1] the advance [cache_size + 1] wraps to 0:
    in the very first region of a mesh every vertex, never seen before, is
    a hit, the region measures 0 misses, and two identical triangles are cut
    into two clusters where a cold start gives one *)
Lemma first_simulation_cold_fails :
  ~ first_simulation_cold /\
  (total_misses 4294967295 (reset_cache 4294967295 (replicate 3 0, 0)) 0 [(0, 1, 2)]).1 = 0 /\
  generateSoftBoundaries (replicate 3 0) [0; 1; 2; 0; 1; 2] 6 3 [0; 0] 1 4294967295 F32.one
    = Some ([0; 1; 2], 2%nat) /\
  generateSoftBoundaries (replicate 3 0) [0; 1; 2; 0; 1; 2] 6 3 [0; 0] 1 16 F32.one
    = Some ([0; 2; 0], 1%nat).
Proof.
  split; [|split; [|split]]; [| vm_compute; reflexivity ..].
  intros Hclaim.
  specialize (Hclaim [0; 1; 2] 3%nat 3%nat [0] 1%nat [0%nat] 0%nat 0%nat 1%nat
                (mkSoft (replicate 2 0) 0 (replicate 3 0) 0) 4294967295 one_triangle_ready).
  apply (Hclaim ltac:(lia) 0); [simpl; lia|].
  vm_compute. discriminate.
Qed.

Lemma stamps_bounded_le (K K' : Z) (s : sim) :
  K <= K' -> stamps_bounded K s -> stamps_bounded K' s.
Proof. intros HK [H1 H2]. split; [lia | exact H2]. Qed.

Lemma access_bounded (cs K : Z) (s : sim) (v : Z) :
  K + 1 < 4294967296 -> stamps_bounded K s -> stamps_bounded (K + 1) (access cs s v).2.
Proof.
  intros HK [H1 H2]. unfold access.
  destruct (decide (cache_hit cs s v)); cbn [snd fst].
  - split; [lia | exact H2].
  - rewrite wrap32_small by lia. unfold stamps_bounded. cbn [fst snd]. split; [lia|].
    apply Forall_insert; [|cbn beta; lia]. eapply Forall_impl; [exact H2|].
    intros x Hx. cbn beta in Hx. lia.
Qed.

Lemma sim_step_bounded (cs K : Z) (s : sim) (t : tri) :
  K + 3 < 4294967296 -> stamps_bounded K s -> stamps_bounded (K + 3) (sim_step cs s t).
Proof.
  intros HK Hs. unfold sim_step, tri_access. destruct t as [[a b] c].
  pose proof (access_bounded cs K s a ltac:(lia) Hs) as H1.
  destruct (access cs s a) as [ma s1]. cbn [snd] in H1.
  pose proof (access_bounded cs (K + 1) s1 b ltac:(lia) H1) as H2.
  destruct (access cs s1 b) as [mb s2]. cbn [snd] in H2.
  pose proof (access_bounded cs (K + 1 + 1) s2 c ltac:(lia) H2) as H3.
  destruct (access cs s2 c) as [mc s3]. cbn [snd] in *.
  eapply stamps_bounded_le; [|exact H3]. lia.
Qed.

Lemma reset_bounded (cs K : Z) (s : sim) :
  0 <= cs -> K + cs + 1 < 4294967296 -> stamps_bounded K s ->
  stamps_bounded (K + cs + 1) (reset_cache cs s).
Proof.
  intros Hcs HK [H1 H2]. unfold reset_cache, stamps_bounded. cbn [fst snd].
  rewrite (wrap32_small (cs + 1)) by lia. rewrite wrap32_small by lia.
  split; [lia|]. eapply Forall_impl; [exact H2|]. intros x Hx. cbn beta in Hx. lia.
Qed.

(** a reset without wrap-around leaves no vertex in the cache *)
Lemma reset_cold (cs K : Z) (s : sim) :
  0 <= cs -> K + cs + 1 < 4294967296 -> stamps_bounded K s ->
  cold cs (reset_cache cs s).
Proof.
  intros Hcs HK [H1 H2] v Hv. unfold cache_hit, last_used, reset_cache in *. cbn [fst snd] in *.
  rewrite (wrap32_small (cs + 1)) by lia. rewrite (wrap32_small (s.2 + (cs + 1))) by lia.
  destruct (lookup_lt_is_Some_2 s.1 (Z.to_nat v)) as [x Hx]; [lia|].
  rewrite Hx. cbn [default from_option]. unfold id.
  rewrite Forall_lookup in H2. specialize (H2 _ _ Hx). cbn beta in H2.
  rewrite wrap32_small by lia. lia.
Qed.

Lemma total_misses_bounded (cs : Z) (ts : list tri) : forall (K : Z) (s : sim) (total : Z),
  K + 3 * Z.of_nat (length ts) < 4294967296 -> stamps_bounded K s ->
  stamps_bounded (K + 3 * Z.of_nat (length ts)) (total_misses cs s total ts).2.
Proof.
  induction ts as [|t r IH]; intros K s total HK Hs.
  - cbn [total_misses snd length]. eapply stamps_bounded_le; [|exact Hs]. lia.
  - cbn [total_misses]. cbn [length] in *.
    eapply stamps_bounded_le; [|apply (IH (K + 3))]; try lia.
    apply sim_step_bounded; [lia | exact Hs].
Qed.

Lemma soft_walk_bounded (cs : Z) (thr : float) (ts : list tri) :
  forall (K : Z) (i : nat) (rm rf : Z) (s : sim),
  0 <= cs -> K + (cs + 4) * Z.of_nat (length ts) < 4294967296 -> stamps_bounded K s ->
  stamps_bounded (K + (cs + 4) * Z.of_nat (length ts)) (soft_walk cs thr i rm rf s ts).2.
Proof.
  induction ts as [|t r IH]; intros K i rm rf s Hcs HK Hs.
  - cbn [soft_walk snd length]. eapply stamps_bounded_le; [|exact Hs]. lia.
  - cbn [soft_walk]. cbn [length] in *.
    pose proof (sim_step_bounded cs K s t ltac:(lia) Hs) as H1.
    destruct (F32.leb _ thr); cbn [snd].
    + eapply stamps_bounded_le; [|apply (IH (K + 3 + cs + 1))]; try lia.
      apply reset_bounded; [lia | lia | exact H1].
    + eapply stamps_bounded_le; [|apply (IH (K + 3))]; try lia. exact H1.
Qed.

Lemma soft_region_bounded (cs : Z) (thr : float) (tris : list tri) (b e : nat) (K : Z)
    (s : sim) :
  0 <= cs -> (b < e)%nat ->
  K + (3 * cs + 9) * Z.of_nat (e - b) < 4294967296 -> stamps_bounded K s ->
  stamps_bounded (K + (3 * cs + 9) * Z.of_nat (e - b)) (soft_region cs thr tris b e s).2.
Proof.
  intros Hcs Hbe HK Hs. unfold soft_region. cbn [snd].
  set (region := take (e - b) (drop b tris)).
  assert (Hn : Z.of_nat (length region) <= Z.of_nat (e - b))
    by (unfold region; rewrite length_take; lia).
  assert (H1n : 1 <= Z.of_nat (e - b)) by lia.
  set (n := Z.of_nat (e - b)) in *. set (k := Z.of_nat (length region)) in *.
  assert (Hk : 0 <= k) by (unfold k; lia).
  assert (Hb1 : K + cs + 1 < 4294967296) by nia.
  assert (Hb2 : K + cs + 1 + 3 * k < 4294967296) by nia.
  assert (Hb3 : K + cs + 1 + 3 * k + cs + 1 < 4294967296) by nia.
  assert (Hb4 : K + cs + 1 + 3 * k + cs + 1 + (cs + 4) * k < 4294967296) by nia.
  pose proof (reset_bounded cs K s Hcs Hb1 Hs) as H1.
  pose proof (total_misses_bounded cs region (K + cs + 1) (reset_cache cs s) 0 Hb2 H1) as H2.
  fold k in H2.
  pose proof (reset_bounded cs _ _ Hcs Hb3 H2) as H3.
  pose proof (soft_walk_bounded cs (region_threshold cs thr s region) region _ b 0 0 _ Hcs
                Hb4 H3) as H4.
  eapply stamps_bounded_le; [|exact H4]. fold k. nia.
Qed.

Lemma soft_walk_resets_cold (cs : Z) (thr : float) (ts : list tri) :
  forall (K : Z) (rm rf : Z) (s : sim),
  0 <= cs -> K + (cs + 4) * Z.of_nat (length ts) < 4294967296 -> stamps_bounded K s ->
  resets_cold cs thr rm rf s ts.
Proof.
  induction ts as [|t r IH]; intros K rm rf s Hcs HK Hs; [exact I|].
  cbn [resets_cold]. cbn [length] in HK.
  pose proof (sim_step_bounded cs K s t ltac:(lia) Hs) as H1.
  destruct (F32.leb _ thr).
  - split.
    + apply (reset_cold cs (K + 3)); [exact Hcs | lia | exact H1].
    + apply (IH (K + 3 + cs + 1)); [exact Hcs | lia |].
      apply reset_bounded; [exact Hcs | lia | exact H1].
  - apply (IH (K + 3)); [exact Hcs | lia | exact H1].
Qed.

Lemma region_budget (cs b n k T : Z) :
  0 <= cs -> 0 <= b -> 1 <= n -> 0 <= k <= n -> b + n <= T ->
  (3 * cs + 9) * T < 4294967296 ->
  (3 * cs + 9) * b + cs + 1 < 4294967296 /\
  (3 * cs + 9) * b + cs + 1 + 3 * k < 4294967296 /\
  (3 * cs + 9) * b + cs + 1 + 3 * k + cs + 1 < 4294967296 /\
  (3 * cs + 9) * b + cs + 1 + 3 * k + cs + 1 + (cs + 4) * k < 4294967296.
Proof.
  intros Hcs Hb Hn Hk HT Hmax.
  assert (E1 : cs * k <= cs * n) by (apply Z.mul_le_mono_nonneg_l; lia).
  assert (E2 : cs * 1 <= cs * n) by (apply Z.mul_le_mono_nonneg_l; lia).
  assert (E3 : cs * (b + n) <= cs * T) by (apply Z.mul_le_mono_nonneg_l; lia).
  assert (E4 : 0 <= cs * k) by (apply Z.mul_nonneg_nonneg; lia).
  rewrite Z.mul_add_distr_l in E3. rewrite Z.mul_1_r in E2.
  repeat split; lia.
Qed.

(** the rounds of the outer loop of [generateSoftBoundaries] before round [it] *)
Lemma soft_rounds (destination indices clusters : list Z)
    (index_count vertex_count cluster_count : nat) (cache_size : Z) (threshold : float)
    (B : list nat) (it : nat) :
  valid_input indices index_count vertex_count ->
  take cluster_count clusters = Z.of_nat <$> B ->
  length B = cluster_count ->
  StronglySorted lt B ->
  Forall (fun b => b < index_count / 3)%nat B ->
  (index_count / 3 < length destination)%nat ->
  0 <= cache_size ->
  (3 * cache_size + 9) * Z.of_nat (index_count / 3) < 4294967296 ->
  (it <= cluster_count)%nat ->
  exists st : SoftState,
    for_range it 0
      (softRegion indices index_count clusters cluster_count cache_size threshold)
      (mkSoft destination 0 (replicate vertex_count 0) 0) = Some st /\
    soft_inv destination vertex_count cache_size (index_count / 3) B it st.
Proof.
  intros Hvalid HB HBlen Hsorted Hbound Hroom Hcs Hmax Hit.
  pose proof (valid_faces _ _ _ Hvalid) as Hfaces.
  set (T := (index_count / 3)%nat) in *.
  apply (for_range_inv (soft_inv destination vertex_count cache_size T B) it 0).
  - unfold soft_inv. cbn [sb_destination sb_result sb_cache sb_timestamp].
    split; [reflexivity|]. split; [lia|]. split; [apply length_replicate|].
    split; cbn [fst snd].
    + assert (0 <= Z.of_nat (region_end (drop 0 B) T)) by lia. nia.
    + apply Forall_replicate. lia.
  - intros i s Hi (Hl & Hres & Hcache & Hst).
    destruct (cluster_bounds index_count cluster_count B HBlen Hsorted Hbound i)
      as (b & B' & Hd & Hbe); [lia|].
    fold T in Hbe. rewrite Hd in Hres, Hst. cbn [region_end] in Hres, Hst.
    destruct (softRegion_run indices index_count vertex_count cache_size Hvalid clusters
                cluster_count threshold B HB HBlen i b B' s Hd)
      as (s' & Hstep & Hl' & Hres' & _ & Hstate).
    { rewrite Hfaces. exact Hbe. }
    { exact Hcache. }
    { rewrite Hfaces. lia. }
    rewrite Hfaces in Hres', Hstate.
    set (e := region_end B' T) in *.
    exists s'. split; [exact Hstep|].
    assert (Hd' : drop (S i) B = B').
    { replace (S i) with (i + 1)%nat by lia. rewrite <- drop_drop, Hd. reflexivity. }
    unfold soft_inv. rewrite Hd'. fold e.
    split; [lia|]. split.
    { destruct (soft_region_shape cache_size threshold (triangles indices) b e
                  (sb_cache s, sb_timestamp s)) as (E & HE & Hpop & _ & _ & Hlen & _).
      { rewrite Hfaces. exact Hbe. }
      rewrite HE, Hpop in Hres'. cbn [length] in Hres'. lia. }
    split.
    { apply (f_equal (fun p => length p.1)) in Hstate. cbn [fst] in Hstate.
      rewrite soft_region_length in Hstate. cbn [fst] in Hstate. lia. }
    rewrite Hstate.
    eapply stamps_bounded_le;
      [|apply (soft_region_bounded cache_size threshold (triangles indices) b e
                 ((3 * cache_size + 9) * Z.of_nat b)); [exact Hcs | lia | | exact Hst]].
    + nia.
    + assert (Z.of_nat e <= Z.of_nat T) by lia.
      assert (Z.of_nat b + Z.of_nat (e - b) = Z.of_nat e) by lia. nia.
Qed.

(** C4, amended: provided no timestamp wraps around, for which
    [(3 * cache_size + 9) * triangle_count < 2^32] is enough, for every
    hard-bounded region [start, end) the generator first runs a cold-cache
    simulation over the whole region to compute
    [cluster_threshold = threshold * (total_misses / region_triangle_count)];
    it then emits [start], resets the cache, and in a second walk over the
    region emits [i + 1] exactly when the running miss count divided by the
    running triangle count is [<= cluster_threshold], resetting the running
    counters and the cache at each emission. Each of these resets, the one
    before the first simulation, the one before the walk and the one at each
    emission, leaves every vertex out of the cache. *)
Theorem soft_region_spec (destination indices clusters : list Z)
    (index_count vertex_count cluster_count : nat) (cache_size : Z) (threshold : float)
    (B : list nat) (it b e : nat) :
  valid_input indices index_count vertex_count ->
  take cluster_count clusters = Z.of_nat <$> B ->
  length B = cluster_count ->
  StronglySorted lt B ->
  Forall (fun b => b < index_count / 3)%nat B ->
  (index_count / 3 < length destination)%nat ->
  0 <= cache_size ->
  (3 * cache_size + 9) * Z.of_nat (index_count / 3) < 4294967296 ->
  B !! it = Some b ->
  e = region_end (drop (it + 1) B) (index_count / 3) ->
  exists (st : SoftState) (w : WalkState),
    for_range it 0
      (softRegion indices index_count clusters cluster_count cache_size threshold)
      (mkSoft destination 0 (replicate vertex_count 0) 0) = Some st /\
    let s := (sb_cache st, sb_timestamp st) in
    let region := take (e - b) (drop b (triangles indices)) in
    let measured := total_misses cache_size (reset_cache cache_size s) 0 region in
    let cluster_threshold :=
      F32.mul threshold (fdiv (F32.of_Z measured.1) (F32.of_nat (e - b))) in
    let walked :=
      soft_walk cache_size cluster_threshold b 0 0 (reset_cache cache_size measured.2) region in
    cold cache_size (reset_cache cache_size s) /\
    softRegionWalk indices index_count clusters cluster_count cache_size threshold it st
      = Some (b, w) /\
    take (wk_result w) (wk_destination w)
      = take (sb_result st) (sb_destination st) ++ (Z.of_nat <$> b :: walked.1) /\
    wk_result w = (sb_result st + length (b :: walked.1))%nat /\
    (wk_cache w, wk_timestamp w) = walked.2 /\
    cold cache_size (reset_cache cache_size measured.2) /\
    resets_cold cache_size cluster_threshold 0 0 (reset_cache cache_size measured.2) region.
Proof.
  intros Hvalid HB HBlen Hsorted Hbound Hroom Hcs Hmax Hb He.
  pose proof (valid_faces _ _ _ Hvalid) as Hfaces.
  assert (Hit : (it < cluster_count)%nat).
  { apply lookup_lt_Some in Hb. lia. }
  destruct (soft_rounds destination indices clusters index_count vertex_count cluster_count
              cache_size threshold B it Hvalid HB HBlen Hsorted Hbound Hroom Hcs Hmax)
    as (st & Hrounds & (Hl & Hres & Hcache & Hst)); [lia|].
  destruct (cluster_bounds index_count cluster_count B HBlen Hsorted Hbound it Hit)
    as (b0 & B' & Hd & Hbe).
  assert (b0 = b).
  { rewrite <- (Nat.add_0_r it), <- lookup_drop, Hd in Hb. injection Hb as ->. reflexivity. }
  subst b0.
  assert (Hd' : drop (it + 1) B = B').
  { rewrite <- drop_drop, Hd. reflexivity. }
  rewrite Hd' in He. subst e.
  set (T := (index_count / 3)%nat) in *. set (e := region_end B' T) in *.
  rewrite Hd in Hres, Hst. cbn [region_end] in Hres, Hst.
  destruct (softRegionWalk_run indices index_count vertex_count cache_size Hvalid clusters
              cluster_count threshold B HB HBlen it b B' st Hd)
    as (w & Hrun & _ & Hwres & Htake & Hstate).
  { rewrite Hfaces. exact Hbe. }
  { exact Hcache. }
  { rewrite Hfaces. fold T. fold e. lia. }
  rewrite Hfaces in Hwres, Htake, Hstate. fold T in Hwres, Htake, Hstate.
  fold e in Hwres, Htake, Hstate.
  exists st, w. split; [exact Hrounds|].
  intros s region measured cluster_threshold walked.
  assert (Hreg : soft_region cache_size threshold (triangles indices) b e s
                 = (b :: walked.1, walked.2)).
  { unfold soft_region, region_threshold. cbn zeta. fold region. fold measured.
    replace (length region) with (e - b)%nat
      by (unfold region; rewrite length_take, length_drop; lia).
    reflexivity. }
  fold s in Hwres, Htake, Hstate. rewrite Hreg in Hwres, Htake, Hstate.
  cbn [fst snd] in Hwres, Htake, Hstate.
  assert (Hn : Z.of_nat (length region) <= Z.of_nat (e - b))
    by (unfold region; rewrite length_take; lia).
  set (k := Z.of_nat (length region)) in *.
  set (K := (3 * cache_size + 9) * Z.of_nat b) in *.
  destruct (region_budget cache_size (Z.of_nat b) (Z.of_nat (e - b)) k (Z.of_nat T))
    as (Hb1 & Hb2 & Hb3 & Hb4); try lia.
  fold K in Hb1, Hb2, Hb3, Hb4.
  pose proof (reset_bounded cache_size K s Hcs Hb1 Hst) as B1.
  pose proof (total_misses_bounded cache_size region (K + cache_size + 1)
                (reset_cache cache_size s) 0 Hb2 B1) as B2.
  fold k in B2. fold measured in B2.
  pose proof (reset_bounded cache_size _ _ Hcs Hb3 B2) as B3.
  split; [exact (reset_cold cache_size K s Hcs Hb1 Hst)|].
  split; [exact Hrun|]. split; [exact Htake|]. split; [exact Hwres|].
  split; [exact Hstate|].
  split; [exact (reset_cold cache_size _ _ Hcs Hb3 B2)|].
  exact (soft_walk_resets_cold cache_size cluster_threshold region _ 0 0 _ Hcs Hb4 B3).
Qed.

Lemma soft_region_spec_witness :
  exists (st : SoftState) (w : WalkState),
    for_range 0 0 (softRegion mesh_indices 15 mesh_hard_clusters 2 16 F32.one)
      (mkSoft (replicate 6 0) 0 (replicate 7 0) 0) = Some st /\
    cold 16 (reset_cache 16 (sb_cache st, sb_timestamp st)) /\
    softRegionWalk mesh_indices 15 mesh_hard_clusters 2 16 F32.one 0 st = Some (0%nat, w) /\
    take (wk_result w) (wk_destination w) = [0; 3].
Proof.
  destruct (soft_region_spec (replicate 6 0) mesh_indices mesh_hard_clusters 15 7 2 16
              F32.one [0%nat; 4%nat] 0 0 4)
    as (st & w & Hrounds & Hcold & Hrun & Htake & _).
  - exact mesh_valid.
  - reflexivity.
  - reflexivity.
  - repeat constructor; lia.
  - repeat constructor; cbn; lia.
  - cbn. lia.
  - lia.
  - cbn. lia.
  - reflexivity.
  - reflexivity.
  - exists st, w. split; [exact Hrounds|]. split; [exact Hcold|]. split; [exact Hrun|].
    rewrite Htake. cbn [for_range] in Hrounds. injection Hrounds as <-.
    vm_compute. reflexivity.
Defined.

(** ** The soft boundary list of a mesh *)

(** C7: on every non-empty valid input the soft boundary list has at least
    as many entries as the hard boundary list and at most as many as there
    are triangles (so between 1 and T clusters for T triangles), starts with
    0, is strictly increasing, and stays below the triangle count. *)
Theorem soft_boundaries_invariants (hard_destination soft_destination indices : list Z)
    (index_count vertex_count : nat) (cache_size : Z) (threshold : float) :
  valid_input indices index_count vertex_count ->
  index_count <> 0%nat ->
  (index_count / 3 <= length hard_destination)%nat ->
  (index_count / 3 < length soft_destination)%nat ->
  exists (hard_clusters : list Z) (hard_cluster_count : nat)
         (soft_clusters : list Z) (soft_cluster_count : nat) (S : list nat),
    generateHardBoundaries hard_destination indices index_count vertex_count cache_size
      = Some (hard_clusters, hard_cluster_count) /\
    generateSoftBoundaries soft_destination indices index_count vertex_count
      hard_clusters hard_cluster_count cache_size threshold
      = Some (soft_clusters, soft_cluster_count) /\
    take soft_cluster_count soft_clusters = Z.of_nat <$> S /\
    (hard_cluster_count <= soft_cluster_count <= index_count / 3)%nat /\
    (1 <= soft_cluster_count)%nat /\
    head soft_clusters = Some 0 /\
    StronglySorted lt S /\
    Forall (fun x => x < index_count / 3)%nat S.
Proof.
  intros Hvalid Hne Hhd Hsd.
  pose proof (valid_faces _ _ _ Hvalid) as Hfaces.
  pose proof (vi_triangles _ _ _ Hvalid) as H3.
  destruct (boundaries_run hard_destination soft_destination indices index_count vertex_count
              cache_size threshold Hvalid Hhd Hsd)
    as (hc & sc & Hhard & _ & Hsoft & Hstake & _).
  assert (Htne : triangles indices <> []).
  { intros Hnil. rewrite Hnil in Hfaces. cbn [length] in Hfaces. lia. }
  destruct (soft_boundaries_shape cache_size threshold vertex_count (triangles indices) Htne)
    as (_ & Ssorted & Sbound & Slen & Sone & Shead).
  rewrite Hfaces in Sbound, Slen.
  eexists hc, _, sc, _, _. split; [exact Hhard|]. split; [exact Hsoft|].
  split; [exact Hstake|]. split; [exact Slen|]. split; [exact Sone|].
  split; [|split; [exact Ssorted | exact Sbound]].
  destruct (soft_boundaries _ _ _ _ _) as [|x S']; [discriminate Shead|].
  injection Shead as ->. cbn [length take fmap list_fmap] in Hstake.
  destruct sc as [|y sc]; [discriminate Hstake|]. injection Hstake as -> _. reflexivity.
Qed.

Lemma soft_boundaries_invariants_witness :
  exists (hard_clusters : list Z) (hard_cluster_count : nat)
         (soft_clusters : list Z) (soft_cluster_count : nat),
    generateHardBoundaries (replicate 5 0) mesh_indices 15 7 16
      = Some (hard_clusters, hard_cluster_count) /\
    generateSoftBoundaries (replicate 6 0) mesh_indices 15 7 hard_clusters
      hard_cluster_count 16 F32.one = Some (soft_clusters, soft_cluster_count) /\
    (hard_cluster_count <= soft_cluster_count <= 5)%nat /\
    head soft_clusters = Some 0.
Proof.
  destruct (soft_boundaries_invariants (replicate 5 0) (replicate 6 0) mesh_indices 15 7 16
              F32.one mesh_valid)
    as (hc & hn & sc & sn & S & H1 & H2 & _ & H3 & _ & H4 & _);
    [lia | simpl; lia | simpl; lia |].
  exists hc, hn, sc, sn. auto.
Defined.

(** C10: every hard boundary appears in the soft boundary list: the hard
    boundary list is a subsequence of the soft boundary list. *)
Theorem hard_sublist_of_soft (hard_destination soft_destination indices : list Z)
    (index_count vertex_count : nat) (cache_size : Z) (threshold : float) :
  valid_input indices index_count vertex_count ->
  (index_count / 3 <= length hard_destination)%nat ->
  (index_count / 3 < length soft_destination)%nat ->
  exists (hard_clusters : list Z) (hard_cluster_count : nat)
         (soft_clusters : list Z) (soft_cluster_count : nat),
    generateHardBoundaries hard_destination indices index_count vertex_count cache_size
      = Some (hard_clusters, hard_cluster_count) /\
    generateSoftBoundaries soft_destination indices index_count vertex_count
      hard_clusters hard_cluster_count cache_size threshold
      = Some (soft_clusters, soft_cluster_count) /\
    take hard_cluster_count hard_clusters `sublist_of` take soft_cluster_count soft_clusters.
Proof.
  intros Hvalid Hhd Hsd.
  destruct (boundaries_run hard_destination soft_destination indices index_count vertex_count
              cache_size threshold Hvalid Hhd Hsd)
    as (hc & sc & Hhard & Hhtake & Hsoft & Hstake & _).
  eexists hc, _, sc, _. split; [exact Hhard|]. split; [exact Hsoft|].
  rewrite Hhtake, Hstake. apply fmap_sublist.
  apply (soft_boundaries_from_shape cache_size threshold (triangles indices));
    [apply hard_boundaries_sorted | apply hard_boundaries_bound].
Qed.

Lemma hard_sublist_of_soft_witness :
  exists (hard_clusters : list Z) (hard_cluster_count : nat)
         (soft_clusters : list Z) (soft_cluster_count : nat),
    generateHardBoundaries (replicate 5 0) mesh_indices 15 7 16
      = Some (hard_clusters, hard_cluster_count) /\
    generateSoftBoundaries (replicate 6 0) mesh_indices 15 7 hard_clusters
      hard_cluster_count 16 F32.one = Some (soft_clusters, soft_cluster_count) /\
    take hard_cluster_count hard_clusters `sublist_of` take soft_cluster_count soft_clusters.
Proof.
  apply (hard_sublist_of_soft (replicate 5 0) (replicate 6 0) mesh_indices 15 7 16 F32.one
           mesh_valid); simpl; lia.
Defined.

(** ** The cluster scorer: the guarded reciprocals *)

Lemma sqrt_zero_finite (x : float) : F32.is_zero (F32.sqrt x) = true -> F32.is_finite x = true.
Proof.
  destruct x as [s|s| |s m e]; try reflexivity; try discriminate.
  destruct s; discriminate.
Qed.

Lemma add_finite_inv (x y : float) :
  F32.is_finite (F32.add x y) = true -> F32.is_finite x = true /\ F32.is_finite y = true.
Proof.
  destruct x as [sx|sx| |sx mx ex], y as [sy|sy| |sy my ey];
    try (split; reflexivity); try discriminate;
    destruct sx, sy; discriminate.
Qed.

Lemma mul_self_finite_inv (x : float) :
  F32.is_finite (F32.mul x x) = true -> F32.is_finite x = true.
Proof. destruct x as [s|s| |s m e]; try reflexivity; discriminate. Qed.

(** a normal whose magnitude is computed as zero has three finite components *)
Lemma norm_zero_finite (v : vec3) : F32.is_zero (norm v) = true -> finite3 v.
Proof.
  destruct v as [[x y] z]. unfold norm, finite3. cbn [fst snd]. intros H.
  apply sqrt_zero_finite, add_finite_inv in H. destruct H as [Hxy Hz].
  apply add_finite_inv in Hxy. destruct Hxy as [Hx Hy].
  auto using mul_self_finite_inv.
Qed.

Lemma scale_zero (v : vec3) : finite3 v -> zero3 (scale v F32.zero).
Proof.
  destruct v as [[x y] z]. unfold finite3, zero3, scale. cbn [fst snd].
  intros (Hx & Hy & Hz). auto using F32Facts.mul_finite_zero.
Qed.

(** the triangle has area 0, the sum of its three x coordinates overflows to
    infinity, infinity times the zero weight is NaN, and NaN times the zero
    reciprocal stays NaN: the centroid term of this degenerate cluster is not
    zero and its score is NaN *)
Lemma degenerate_terms_zero_fails :
  accumulateStep [0; 1; 2] far_positions 3 0 (F32.zero, vec3_zero, vec3_zero)
    = Some (F32.zero, (S754_nan, F32.zero, F32.zero), vec3_zero) /\
  calculateSortData [mkSortData 0 F32.zero] [0; 1; 2] 3 far_positions 12 [0; 0] 1
    = Some [mkSortData 0 S754_nan] /\
  ~ degenerate_terms_zero.
Proof.
  split; [vm_compute; reflexivity|]. split; [vm_compute; reflexivity|].
  intros Hclaim.
  destruct (Hclaim F32.zero (S754_nan, F32.zero, F32.zero) vec3_zero vec3_zero
              (S754_nan, F32.zero, F32.zero) vec3_zero S754_nan eq_refl) as [H _].
  destruct (H eq_refl) as [Hnan _]. discriminate Hnan.
Qed.

(** C8, amended: in the cluster scorer both reciprocals are guarded, so the
    scorer never divides by a zero: a total area equal to zero makes the
    centroid multiplied by zero instead of divided, and a normal magnitude
    equal to zero makes the normal multiplied by zero instead of divided.
    The normal term of such a cluster is zero; its centroid term is zero
    when the accumulated centroid is finite (an accumulated centroid that
    overflowed stays NaN). *)
Theorem clusterScore_guarded (cluster_area : float)
    (cluster_centroid cluster_normal mesh_centroid : vec3) :
  exists (c n : vec3) (score : float),
    clusterScore cluster_area cluster_centroid cluster_normal mesh_centroid
      = Some (c, n, score) /\
    score = dot (vsub c mesh_centroid) n /\
    (F32.is_zero cluster_area = true -> c = scale cluster_centroid F32.zero) /\
    (F32.is_zero cluster_area = false ->
       c = scale cluster_centroid (fdiv F32.one cluster_area) /\
       F32.div F32.one cluster_area = Some (fdiv F32.one cluster_area)) /\
    (F32.is_zero (norm cluster_normal) = true ->
       n = scale cluster_normal F32.zero /\ zero3 n) /\
    (F32.is_zero (norm cluster_normal) = false ->
       n = scale cluster_normal (fdiv F32.one (norm cluster_normal)) /\
       F32.div F32.one (norm cluster_normal) = Some (fdiv F32.one (norm cluster_normal))) /\
    (F32.is_zero cluster_area = true -> finite3 cluster_centroid -> zero3 c).
Proof.
  rewrite clusterScore_run. cbn zeta. eexists _, _, _. split; [reflexivity|].
  split; [reflexivity|]. unfold reciprocal_or_zero, F32.div.
  destruct (F32.is_zero cluster_area) eqn:Ha;
    destruct (F32.is_zero (norm cluster_normal)) eqn:Hn;
    repeat split; try discriminate; try reflexivity; intros;
    try (apply scale_zero; try assumption; apply norm_zero_finite; assumption).
Qed.

(** ** Running the scorer on the concrete mesh *)

Example scorer_runs :
  exists sort_data,
    calculateSortData (replicate 2 (mkSortData 0 F32.zero)) mesh_indices 15 mesh_positions 12
      [0; 4; 0; 0; 0; 0] 2 = Some sort_data /\
    cluster <$> sort_data = [0; 1].
Proof. eexists. split; vm_compute; reflexivity. Qed.

(** * Further properties of the code *)

(** ** Loops that return

    What a loop that did return says about each of its rounds. *)

Lemma for_range_Some_inv {St} (P : St -> Prop) (Q : nat -> Prop) n :
  forall i0 (body : nat -> St -> option St) s s',
  for_range n i0 body s = Some s' -> P s ->
  (forall i st st', (i0 <= i < i0 + n)%nat -> P st -> body i st = Some st' -> P st' /\ Q i) ->
  P s' /\ forall i, (i0 <= i < i0 + n)%nat -> Q i.
Proof.
  induction n as [|n IH]; intros i0 body s s' Hrun Hs Hstep.
  - injection Hrun as <-. split; [exact Hs | intros i Hi; lia].
  - rewrite for_range_S in Hrun. destruct (body i0 s) as [s1|] eqn:Hb; [|discriminate].
    cbn [mbind option_bind] in Hrun.
    destruct (Hstep i0 s s1) as [H1 Q0]; [lia | exact Hs | exact Hb |].
    destruct (IH (S i0) body s1 s' Hrun H1) as [Hs' HQ].
    + intros i st st' Hi. apply Hstep. lia.
    + split; [exact Hs'|]. intros i Hi.
      destruct (Nat.eq_dec i i0) as [->|Hne]; [exact Q0 | apply HQ; lia].
Qed.

Lemma assert_inv (b : bool) (u : unit) : assert b = Some u -> b = true.
Proof. destruct b; [reflexivity | discriminate]. Qed.

Lemma store_inv {A} (buf : list A) (i : nat) (v : A) (buf' : list A) :
  store buf i v = Some buf' -> (i < length buf)%nat /\ buf' = <[i := v]> buf
  /\ length buf' = length buf.
Proof.
  unfold store. destruct (decide (i < length buf)%nat) as [Hi|]; [|discriminate].
  intros [= <-]. rewrite length_insert. auto.
Qed.

(** ** updateCache: what a call changes *)

(** one test of [updateCache], as the source writes it *)
Lemma updateCache_test (cs : Z) (cache : list Z) (ts k : Z) (v : nat) (t : Z)
    (cache' : list Z) (ts' k' : Z) :
  (if cs <? wrap32 (ts - t)
   then (<[v := ts]> cache, wrap32 (ts + 1), k + 1)
   else (cache, ts, k)) = (cache', ts', k') ->
  length cache' = length cache /\
  (k' = k /\ cache' = cache /\ ts' = ts /\ wrap32 (ts - t) <= cs \/
   k' = k + 1 /\ cache' = <[v := ts]> cache /\ ts' = wrap32 (ts + 1) /\ cs < wrap32 (ts - t)).
Proof.
  destruct (cs <? wrap32 (ts - t)) eqn:E; intros [= <- <- <-].
  - apply Z.ltb_lt in E. rewrite length_insert. split; [reflexivity|]. right. auto.
  - apply Z.ltb_ge in E. split; [reflexivity|]. left. auto.
Qed.

Lemma updateCache_inv (a b c cs : Z) (cache : list Z) (ts m : Z) (cache' : list Z) (ts' : Z) :
  updateCache a b c cs cache ts = Some (m, cache', ts') ->
  exists ta c1 t1 k1 tb c2 t2 k2 tc,
    cache !! Z.to_nat a = Some ta /\
    (if cs <? wrap32 (ts - ta)
     then (<[Z.to_nat a := ts]> cache, wrap32 (ts + 1), 0 + 1)
     else (cache, ts, 0)) = (c1, t1, k1) /\
    c1 !! Z.to_nat b = Some tb /\
    (if cs <? wrap32 (t1 - tb)
     then (<[Z.to_nat b := t1]> c1, wrap32 (t1 + 1), k1 + 1)
     else (c1, t1, k1)) = (c2, t2, k2) /\
    c2 !! Z.to_nat c = Some tc /\
    (if cs <? wrap32 (t2 - tc)
     then (<[Z.to_nat c := t2]> c2, wrap32 (t2 + 1), k2 + 1)
     else (c2, t2, k2)) = (cache', ts', m).
Proof.
  unfold updateCache. intros H.
  destruct (cache !! Z.to_nat a) as [ta|] eqn:Ha; [|discriminate].
  cbn [mbind option_bind] in H.
  destruct (if cs <? wrap32 (ts - ta)
            then (<[Z.to_nat a := ts]> cache, wrap32 (ts + 1), 0 + 1)
            else (cache, ts, 0)) as [[c1 t1] k1] eqn:E1.
  destruct (c1 !! Z.to_nat b) as [tb|] eqn:Hb; [|discriminate].
  cbn [mbind option_bind] in H.
  destruct (if cs <? wrap32 (t1 - tb)
            then (<[Z.to_nat b := t1]> c1, wrap32 (t1 + 1), k1 + 1)
            else (c1, t1, k1)) as [[c2 t2] k2] eqn:E2.
  destruct (c2 !! Z.to_nat c) as [tc|] eqn:Hc; [|discriminate].
  cbn [mbind option_bind] in H.
  destruct (if cs <? wrap32 (t2 - tc)
            then (<[Z.to_nat c := t2]> c2, wrap32 (t2 + 1), k2 + 1)
            else (c2, t2, k2)) as [[c3 t3] k3] eqn:E3.
  injection H as <- <- <-.
  exists ta, c1, t1, k1, tb, c2, t2, k2, tc. auto 10.
Qed.

Lemma updateCache_reads (a b c cs : Z) (cache : list Z) (ts m : Z) (cache' : list Z)
    (ts' : Z) :
  updateCache a b c cs cache ts = Some (m, cache', ts') ->
  (Z.to_nat a < length cache)%nat /\ (Z.to_nat b < length cache)%nat /\
  (Z.to_nat c < length cache)%nat /\
  length cache' = length cache /\ 0 <= m <= 3.
Proof.
  intros H. apply updateCache_inv in H.
  destruct H as (ta & c1 & t1 & k1 & tb & c2 & t2 & k2 & tc & Ha & E1 & Hb & E2 & Hc & E3).
  apply updateCache_test in E1, E2, E3.
  destruct E1 as [L1 E1], E2 as [L2 E2], E3 as [L3 E3].
  apply lookup_lt_Some in Ha, Hb, Hc. repeat split; lia.
Qed.

Lemma updateCache_no_miss (a b c cs : Z) (cache : list Z) (ts : Z) (cache' : list Z)
    (ts' : Z) :
  updateCache a b c cs cache ts = Some (0, cache', ts') -> cache' = cache /\ ts' = ts.
Proof.
  intros H. apply updateCache_inv in H.
  destruct H as (ta & c1 & t1 & k1 & tb & c2 & t2 & k2 & tc & Ha & E1 & Hb & E2 & Hc & E3).
  apply updateCache_test in E1, E2, E3.
  destruct E1 as [_ [(-> & -> & -> & _)|(-> & _ & -> & _)]],
           E2 as [_ [(? & -> & -> & _)|(? & _ & -> & _)]],
           E3 as [_ [(? & -> & -> & _)|(? & _ & -> & _)]]; try lia.
  split; reflexivity.
Qed.

(** X1: a call of [updateCache] that returns has read the three entries
    [a], [b], [c] inside the timestamp array; it leaves the length of the
    array and every other entry unchanged, counts between 0 and 3 misses,
    advances the timestamp by exactly the number of misses (modulo 2^32), and
    changes nothing at all when it counts no miss. *)
Theorem updateCache_effects (a b c cs : Z) (cache : list Z) (ts m : Z) (cache' : list Z)
    (ts' : Z) :
  updateCache a b c cs cache ts = Some (m, cache', ts') ->
  (Z.to_nat a < length cache)%nat /\ (Z.to_nat b < length cache)%nat /\
  (Z.to_nat c < length cache)%nat /\
  length cache' = length cache /\
  0 <= m <= 3 /\
  wrap32 ts' = wrap32 (ts + m) /\
  (m = 0 -> cache' = cache /\ ts' = ts) /\
  (forall j : nat, j <> Z.to_nat a -> j <> Z.to_nat b -> j <> Z.to_nat c ->
     cache' !! j = cache !! j).
Proof.
  intros H. apply updateCache_inv in H.
  destruct H as (ta & c1 & t1 & k1 & tb & c2 & t2 & k2 & tc & Ha & E1 & Hb & E2 & Hc & E3).
  apply updateCache_test in E1, E2, E3.
  destruct E1 as [L1 E1], E2 as [L2 E2], E3 as [L3 E3].
  apply lookup_lt_Some in Ha, Hb, Hc.
  split; [exact Ha|]. split; [lia|]. split; [lia|]. split; [lia|].
  split; [lia|].
  split.
  { destruct E1 as [(-> & _ & -> & _)|(-> & _ & -> & _)],
             E2 as [(-> & _ & -> & _)|(-> & _ & -> & _)],
             E3 as [(-> & _ & -> & _)|(-> & _ & -> & _)]; unfold wrap32; lia. }
  split.
  { intros ->.
    destruct E1 as [(-> & -> & -> & _)|(-> & _ & -> & _)],
             E2 as [(? & -> & -> & _)|(? & _ & -> & _)],
             E3 as [(? & -> & -> & _)|(? & _ & -> & _)]; try lia. split; reflexivity. }
  intros j Ja Jb Jc.
  destruct E1 as [(_ & -> & _ & _)|(_ & -> & _ & _)],
           E2 as [(_ & -> & _ & _)|(_ & -> & _ & _)],
           E3 as [(_ & -> & _ & _)|(_ & -> & _ & _)];
    rewrite ?list_lookup_insert_ne by congruence; reflexivity.
Qed.

Lemma updateCache_effects_witness :
  length [17; 18; 0] = length [0; 0; 0] /\ 0 <= 2 <= 3 /\ wrap32 19 = wrap32 (17 + 2) /\
  [17; 18; 0] !! 2%nat = [0; 0; 0] !! 2%nat.
Proof.
  destruct (updateCache_effects 0 1 1 16 [0; 0; 0] 17 2 [17; 18; 0] 19 eq_refl)
    as (_ & _ & _ & Hl & Hm & Ht & _ & Hf).
  split; [exact Hl|]. split; [exact Hm|]. split; [exact Ht|].
  apply Hf; cbn; lia.
Defined.

(** ** updateCache: repeated vertices and repeated triangles *)

Lemma wrap32_succ_age (ts : Z) : wrap32 (wrap32 (ts + 1) - ts) = 1.
Proof. unfold wrap32. lia. Qed.

Lemma wrap32_succ2_age (ts : Z) : wrap32 (wrap32 (wrap32 (ts + 1) + 1) - ts) = 2.
Proof. unfold wrap32. lia. Qed.

Lemma wrap32_succ3_age (ts : Z) :
  wrap32 (wrap32 (wrap32 (wrap32 (ts + 1) + 1) + 1) - ts) = 3.
Proof. unfold wrap32. lia. Qed.

(** a triangle with a repeated vertex never counts three misses *)
Lemma updateCache_repeated_vertex (a b c cs : Z) (cache : list Z) (ts m : Z)
    (cache' : list Z) (ts' : Z) :
  2 <= cs -> a = b \/ b = c \/ a = c ->
  updateCache a b c cs cache ts = Some (m, cache', ts') -> m <= 2.
Proof.
  intros Hcs Hdeg H. apply updateCache_inv in H.
  destruct H as (ta & c1 & t1 & k1 & tb & c2 & t2 & k2 & tc & Ha & E1 & Hb & E2 & Hc & E3).
  apply updateCache_test in E1, E2, E3.
  destruct E1 as [L1 E1], E2 as [L2 E2], E3 as [L3 E3].
  pose proof (lookup_lt_Some _ _ _ Ha) as La.
  pose proof (lookup_lt_Some _ _ _ Hb) as Lb.
  destruct E1 as [(-> & -> & -> & A1)|(-> & -> & -> & A1)]; [lia|].
  destruct E2 as [(-> & -> & -> & A2)|(-> & -> & -> & A2)]; [lia|].
  destruct E3 as [(-> & -> & -> & A3)|(-> & -> & -> & A3)]; [lia|].
  exfalso.
  destruct Hdeg as [->|[->| ->]].
  - rewrite list_lookup_insert_eq in Hb by exact La. injection Hb as <-.
    rewrite wrap32_succ_age in A2. lia.
  - rewrite list_lookup_insert_eq in Hc by exact Lb. injection Hc as <-.
    rewrite wrap32_succ_age in A3. lia.
  - destruct (decide (Z.to_nat b = Z.to_nat c)) as [Ebc|Nbc].
    + rewrite Ebc, list_lookup_insert_eq in Hc by (rewrite length_insert; exact La).
      injection Hc as <-. rewrite wrap32_succ_age in A3. lia.
    + rewrite list_lookup_insert_ne, list_lookup_insert_eq in Hc by (exact La || exact Nbc).
      injection Hc as <-. rewrite wrap32_succ2_age in A3. lia.
Qed.

Ltac lookup_simpl :=
  repeat match goal with
  | H : <[?i := _]> ?l !! ?i = Some _ |- _ =>
      rewrite list_lookup_insert_eq in H by (rewrite ?length_insert; lia)
  | H : <[?i := _]> ?l !! ?j = Some _ |- _ =>
      rewrite list_lookup_insert_ne in H by congruence
  | H : Some _ = Some _ |- _ => injection H as H
  end.

(** two calls on the same triangle, one right after the other, count at
    most three misses together *)
Lemma updateCache_twice (a b c cs : Z) (cache : list Z) (ts m1 : Z) (c1 : list Z) (t1 m2 : Z)
    (c2 : list Z) (t2 : Z) :
  3 <= cs ->
  updateCache a b c cs cache ts = Some (m1, c1, t1) ->
  updateCache a b c cs c1 t1 = Some (m2, c2, t2) ->
  m1 + m2 <= 3.
Proof.
  intros Hcs H1 H2. apply updateCache_inv in H1, H2.
  destruct H1 as (ta & ca & ua & ka & tb & cb & ub & kb & tc & La & Ea & Lb & Eb & Lc & Ec).
  destruct H2 as (ta' & ca' & ua' & ka' & tb' & cb' & ub' & kb' & tc' & La' & Ea' & Lb' & Eb'
                  & Lc' & Ec').
  apply updateCache_test in Ea, Eb, Ec, Ea', Eb', Ec'.
  destruct Ea as [_ Ea], Eb as [_ Eb], Ec as [_ Ec], Ea' as [_ Ea'], Eb' as [_ Eb'],
    Ec' as [_ Ec'].
  pose proof (lookup_lt_Some _ _ _ La) as Ba.
  assert (Bb : (Z.to_nat b < length cache)%nat).
  { apply lookup_lt_Some in Lb.
    destruct Ea as [(_ & -> & _)|(_ & -> & _)]; rewrite ?length_insert in Lb; exact Lb. }
  assert (Bc : (Z.to_nat c < length cache)%nat).
  { apply lookup_lt_Some in Lc.
    destruct Ea as [(_ & -> & _)|(_ & -> & _)], Eb as [(_ & -> & _)|(_ & -> & _)];
      rewrite ?length_insert in Lc; exact Lc. }
  destruct Ea as [(-> & -> & -> & Aa)|(-> & -> & -> & Aa)];
  destruct Eb as [(-> & -> & -> & Ab)|(-> & -> & -> & Ab)];
  destruct Ec as [(-> & -> & -> & Ac)|(-> & -> & -> & Ac)];
  destruct Ea' as [(-> & -> & -> & Aa')|(-> & -> & -> & Aa')];
  destruct Eb' as [(-> & -> & -> & Ab')|(-> & -> & -> & Ab')];
  destruct Ec' as [(-> & -> & -> & Ac')|(-> & -> & -> & Ac')];
  try lia; exfalso;
  destruct (decide (Z.to_nat a = Z.to_nat b)) as [Eab|Nab];
  destruct (decide (Z.to_nat b = Z.to_nat c)) as [Ebc|Nbc];
  destruct (decide (Z.to_nat a = Z.to_nat c)) as [Eac|Nac];
  try congruence;
  try rewrite <- Eab in *; try rewrite <- Ebc in *; try rewrite <- Eac in *;
  lookup_simpl; subst;
  rewrite ?wrap32_succ_age, ?wrap32_succ2_age, ?wrap32_succ3_age in *; lia.
Qed.

(** a triangle that repeats its predecessor never counts three misses *)
Lemma updateCache_repeated_triangle (a b c cs : Z) (cache : list Z) (ts m1 : Z)
    (c1 : list Z) (t1 m2 : Z) (c2 : list Z) (t2 : Z) :
  3 <= cs ->
  updateCache a b c cs cache ts = Some (m1, c1, t1) ->
  updateCache a b c cs c1 t1 = Some (m2, c2, t2) ->
  m2 <= 2.
Proof.
  intros Hcs H1 H2.
  pose proof (updateCache_twice _ _ _ _ _ _ _ _ _ _ _ _ Hcs H1 H2) as Hsum.
  pose proof (updateCache_reads _ _ _ _ _ _ _ _ _ H1) as (_ & _ & _ & _ & Hm1).
  destruct (decide (m1 = 0)) as [E|N]; [|lia]. subst m1.
  destruct (updateCache_no_miss _ _ _ _ _ _ _ _ H1) as [-> ->].
  rewrite H1 in H2. injection H2 as <- _ _. lia.
Qed.

(** ** The hard boundary detector: which triangles start a region *)

(** X2: with [cache_size >= 2] every hard boundary other than 0 is a
    triangle whose three vertices are pairwise distinct: a triangle with a
    repeated vertex never counts three misses. *)
Theorem hard_boundary_not_degenerate (destination indices : list Z)
    (index_count vertex_count : nat) (cache_size : Z) :
  valid_input indices index_count vertex_count ->
  (index_count / 3 <= length destination)%nat ->
  2 <= cache_size ->
  exists (destination' : list Z) (result : nat),
    generateHardBoundaries destination indices index_count vertex_count cache_size
      = Some (destination', result) /\
    forall i : nat, Z.of_nat i ∈ take result destination' -> i <> 0%nat ->
      exists a b c, triangles indices !! i = Some (a, b, c) /\ a <> b /\ b <> c /\ a <> c.
Proof.
  intros Hvalid Hdest Hcs.
  destruct (generateHardBoundaries_run indices index_count vertex_count cache_size destination
              Hvalid Hdest) as (d' & Hrun & _ & Htake & _).
  exists d', (length (hard_boundaries cache_size vertex_count (triangles indices))).
  split; [exact Hrun|]. intros i Hi Hne. rewrite Htake in Hi.
  apply list_elem_of_fmap in Hi. destruct Hi as (j & Hj & Hin).
  apply Nat2Z.inj in Hj. subst j.
  unfold hard_boundaries in Hin. apply list_elem_of_filter in Hin. destruct Hin as [Hhard _].
  destruct Hhard as [->|Hflags]; [contradiction|].
  unfold flags_at in Hflags.
  destruct (triangles indices !! i) as [t|] eqn:Ht; [|discriminate].
  cbn [mbind option_bind fmap option_fmap option_map] in Hflags. injection Hflags as Hall.
  set (s := sim_run cache_size (hard_start vertex_count cache_size) (take i (triangles indices)))
    in *.
  assert (Hin : in_range vertex_count t).
  { pose proof (valid_in_range _ _ _ Hvalid) as Hr. rewrite Forall_lookup in Hr.
    exact (Hr i t Ht). }
  assert (Hlen : length s.1 = vertex_count).
  { unfold s. rewrite sim_run_length. apply length_replicate. }
  destruct (read_updateCache indices cache_size vertex_count s i t Ht Hin Hlen)
    as (_ & _ & _ & Hupd).
  rewrite <- miss_count_all in Hall. apply Z.eqb_eq in Hall. rewrite Hall in Hupd.
  destruct t as [[a b] c]. cbn [fst snd] in Hupd. exists a, b, c. split; [reflexivity|].
  destruct (decide (a = b)) as [Eab|Nab].
  { pose proof (updateCache_repeated_vertex _ _ _ _ _ _ _ _ _ Hcs (or_introl Eab) Hupd). lia. }
  destruct (decide (b = c)) as [Ebc|Nbc].
  { pose proof (updateCache_repeated_vertex _ _ _ _ _ _ _ _ _ Hcs
                  (or_intror (or_introl Ebc)) Hupd). lia. }
  destruct (decide (a = c)) as [Eac|Nac].
  { pose proof (updateCache_repeated_vertex _ _ _ _ _ _ _ _ _ Hcs
                  (or_intror (or_intror Eac)) Hupd). lia. }
  auto.
Qed.

Lemma hard_boundary_not_degenerate_witness :
  exists (destination' : list Z) (result : nat),
    generateHardBoundaries (replicate 5 0) mesh_indices 15 7 16 = Some (destination', result) /\
    forall i : nat, Z.of_nat i ∈ take result destination' -> i <> 0%nat ->
      exists a b c, triangles mesh_indices !! i = Some (a, b, c) /\ a <> b /\ b <> c /\ a <> c.
Proof.
  apply (hard_boundary_not_degenerate (replicate 5 0) mesh_indices 15 7 16).
  - exact mesh_valid.
  - cbn. lia.
  - lia.
Defined.

(** X3: in the state in which [generateHardBoundaries] starts (all stored
    timestamps 0, timestamp [cache_size + 1] modulo 2^32) a triangle counts at
    least one miss when [cache_size < 2^32 - 1], and no miss at all when
    [cache_size = 2^32 - 1], where the start timestamp wraps to 0; for
    [2 <= cache_size <= 2^32 - 4] it counts three misses exactly when its
    three vertices are pairwise distinct, so that in this range the test
    [i == 0] of the detector only matters for a degenerate first triangle. *)
Theorem first_triangle_misses (a b c cache_size : Z) (vertex_count : nat) :
  0 <= a < Z.of_nat vertex_count -> 0 <= b < Z.of_nat vertex_count ->
  0 <= c < Z.of_nat vertex_count ->
  0 <= cache_size < 4294967296 ->
  exists (m : Z) (cache' : list Z) (ts' : Z),
    updateCache a b c cache_size (hard_start vertex_count cache_size).1
      (hard_start vertex_count cache_size).2 = Some (m, cache', ts') /\
    (cache_size < 4294967295 -> 1 <= m) /\
    (cache_size = 4294967295 -> m = 0) /\
    (2 <= cache_size -> cache_size + 3 < 4294967296 ->
       (m = 3 <-> a <> b /\ b <> c /\ a <> c)).
Proof.
  intros Ha Hb Hc Hcs. unfold hard_start. cbn [fst snd].
  pose proof (updateCache_tri_access a b c cache_size (replicate vertex_count 0)
                (wrap32 (cache_size + 1))) as Hrun.
  rewrite length_replicate in Hrun. specialize (Hrun Ha Hb Hc). cbn zeta in Hrun.
  eexists _, _, _. split; [exact Hrun|].
  set (m := miss_count _) in *. clearbody m.
  set (cache' := (tri_access _ _ _).2.1) in *. clearbody cache'.
  set (ts' := (tri_access _ _ _).2.2) in *. clearbody ts'.
  pose proof Hrun as Hinv. apply updateCache_inv in Hinv.
  destruct Hinv as (ta & c1 & t1 & k1 & tb & c2 & t2 & k2 & tc & La & E1 & Lb & E2 & Lc & E3).
  apply updateCache_test in E1, E2, E3.
  destruct E1 as [L1 E1], E2 as [L2 E2], E3 as [L3 E3].
  rewrite lookup_replicate_2 in La by lia. injection La as <-.
  rewrite Z.sub_0_r in E1.
  split; [|split].
  - intros Hlt. rewrite (wrap32_small (cache_size + 1)) in E1 by lia.
    rewrite (wrap32_small (cache_size + 1)) in E1 by lia.
    destruct E1 as [(_ & _ & _ & A1)|(-> & _)]; lia.
  - intros ->. change (wrap32 (4294967295 + 1)) with 0 in *.
    change (wrap32 0) with 0 in E1.
    destruct E1 as [(-> & -> & -> & _)|(_ & _ & _ & A1)]; [|lia].
    rewrite lookup_replicate_2 in Lb by lia. injection Lb as <-.
    change (wrap32 (0 - 0)) with 0 in E2.
    destruct E2 as [(-> & -> & -> & _)|(_ & _ & _ & A2)]; [|lia].
    rewrite lookup_replicate_2 in Lc by lia. injection Lc as <-.
    change (wrap32 (0 - 0)) with 0 in E3.
    destruct E3 as [(-> & _)|(_ & _ & _ & A3)]; [reflexivity | lia].
  - intros H2 Hmax.
    rewrite (wrap32_small (cache_size + 1)) in * by lia.
    rewrite (wrap32_small (cache_size + 1)) in E1 by lia.
    destruct E1 as [(_ & _ & _ & A1)|(-> & -> & -> & A1)]; [lia|].
    rewrite (wrap32_small (cache_size + 1 + 1)) in * by lia.
    split.
    + intros ->.
      destruct (decide (a = b)) as [Eab|Nab].
      { pose proof (updateCache_repeated_vertex _ _ _ _ _ _ _ _ _ H2 (or_introl Eab) Hrun).
        lia. }
      destruct (decide (b = c)) as [Ebc|Nbc].
      { pose proof (updateCache_repeated_vertex _ _ _ _ _ _ _ _ _ H2
                      (or_intror (or_introl Ebc)) Hrun). lia. }
      destruct (decide (a = c)) as [Eac|Nac].
      { pose proof (updateCache_repeated_vertex _ _ _ _ _ _ _ _ _ H2
                      (or_intror (or_intror Eac)) Hrun). lia. }
      auto.
    + intros (Nab & Nbc & Nac).
      rewrite list_lookup_insert_ne, lookup_replicate_2 in Lb by lia. injection Lb as <-.
      rewrite Z.sub_0_r in E2. rewrite (wrap32_small (cache_size + 1 + 1)) in E2 by lia.
      destruct E2 as [(_ & _ & _ & A2)|(-> & -> & -> & A2)]; [lia|].
      rewrite (wrap32_small (cache_size + 1 + 1 + 1)) in * by lia.
      rewrite !list_lookup_insert_ne, lookup_replicate_2 in Lc by lia. injection Lc as <-.
      rewrite Z.sub_0_r in E3. rewrite (wrap32_small (cache_size + 1 + 1 + 1)) in E3 by lia.
      destruct E3 as [(_ & _ & _ & A3)|(-> & _ & _ & A3)]; lia.
Qed.

Lemma first_triangle_misses_witness :
  exists (m : Z) (cache' : list Z) (ts' : Z),
    updateCache 0 1 2 16 (hard_start 3 16).1 (hard_start 3 16).2 = Some (m, cache', ts') /\
    (16 < 4294967295 -> 1 <= m) /\
    (16 = 4294967295 -> m = 0) /\
    (2 <= 16 -> 16 + 3 < 4294967296 -> (m = 3 <-> 0 <> 1 /\ 1 <> 2 /\ 0 <> 2)).
Proof. apply (first_triangle_misses 0 1 2 16 3); lia. Defined.

(** X4: with [cache_size >= 3] a triangle that repeats the triangle right
    before it is never a hard boundary. *)
Theorem repeated_triangle_not_hard_boundary (destination indices : list Z)
    (index_count vertex_count : nat) (cache_size : Z) :
  valid_input indices index_count vertex_count ->
  (index_count / 3 <= length destination)%nat ->
  3 <= cache_size ->
  exists (destination' : list Z) (result : nat),
    generateHardBoundaries destination indices index_count vertex_count cache_size
      = Some (destination', result) /\
    forall (i : nat) (t : tri),
      triangles indices !! i = Some t -> triangles indices !! (i + 1)%nat = Some t ->
      Z.of_nat (i + 1) ∉ take result destination'.
Proof.
  intros Hvalid Hdest Hcs.
  destruct (generateHardBoundaries_run indices index_count vertex_count cache_size destination
              Hvalid Hdest) as (d' & Hrun & _ & Htake & _).
  exists d', (length (hard_boundaries cache_size vertex_count (triangles indices))).
  split; [exact Hrun|]. intros i t Hi Hi1 Hin. rewrite Htake in Hin.
  apply list_elem_of_fmap in Hin. destruct Hin as (j & Hj & Hin).
  apply Nat2Z.inj in Hj. subst j.
  unfold hard_boundaries in Hin. apply list_elem_of_filter in Hin. destruct Hin as [Hhard _].
  destruct Hhard as [E|Hflags]; [lia|].
  unfold flags_at in Hflags. rewrite Hi1 in Hflags.
  cbn [mbind option_bind fmap option_fmap option_map] in Hflags. injection Hflags as Hall.
  replace (i + 1)%nat with (S i) in Hall by lia.
  rewrite (take_S_r _ _ _ Hi), sim_run_snoc in Hall.
  set (s := sim_run cache_size (hard_start vertex_count cache_size) (take i (triangles indices)))
    in *.
  assert (Hin : in_range vertex_count t).
  { pose proof (valid_in_range _ _ _ Hvalid) as Hr. rewrite Forall_lookup in Hr.
    exact (Hr i t Hi). }
  assert (Hlen : length s.1 = vertex_count).
  { unfold s. rewrite sim_run_length. apply length_replicate. }
  destruct (read_updateCache indices cache_size vertex_count s i t Hi Hin Hlen)
    as (_ & _ & _ & Hu1).
  assert (Hlen' : length (sim_step cache_size s t).1 = vertex_count).
  { unfold sim_step. rewrite tri_access_length. exact Hlen. }
  destruct (read_updateCache indices cache_size vertex_count (sim_step cache_size s t) (i + 1) t
              Hi1 Hin Hlen') as (_ & _ & _ & Hu2).
  rewrite <- miss_count_all in Hall. apply Z.eqb_eq in Hall. rewrite Hall in Hu2.
  pose proof (updateCache_repeated_triangle _ _ _ _ _ _ _ _ _ _ _ _ Hcs Hu1 Hu2). lia.
Qed.

Lemma repeated_triangle_not_hard_boundary_witness :
  exists (destination' : list Z) (result : nat),
    generateHardBoundaries (replicate 5 0) mesh_indices 15 7 16 = Some (destination', result) /\
    forall (i : nat) (t : tri),
      triangles mesh_indices !! i = Some t -> triangles mesh_indices !! (i + 1)%nat = Some t ->
      Z.of_nat (i + 1) ∉ take result destination'.
Proof.
  apply (repeated_triangle_not_hard_boundary (replicate 5 0) mesh_indices 15 7 16).
  - exact mesh_valid.
  - cbn. lia.
  - lia.
Defined.

Lemma triangles_take (k : nat) : forall l : list Z,
  triangles (take (3 * k) l) = take k (triangles l).
Proof.
  induction k as [|k IH]; intros l; [rewrite Nat.mul_0_r, !take_0; reflexivity|].
  replace (3 * S k)%nat with (S (S (S (3 * k)))) by lia.
  destruct l as [|a [|b [|c l]]]; try reflexivity.
  cbn [take triangles]. rewrite IH. reflexivity.
Qed.

Lemma filter_iff_elem {A} (P Q : A -> Prop) `{!forall x, Decision (P x)}
    `{!forall x, Decision (Q x)} (l : list A) :
  (forall x, x ∈ l -> (P x <-> Q x)) -> filter P l = filter Q l.
Proof.
  induction l as [|x l IH]; intros Hl; [reflexivity|].
  rewrite !filter_cons.
  assert (Hx : P x <-> Q x) by (apply Hl; left).
  rewrite IH by (intros y Hy; apply Hl; right; exact Hy).
  destruct (decide (P x)), (decide (Q x)); tauto.
Qed.

Lemma filter_none {A} (P : A -> Prop) `{!forall x, Decision (P x)} (l : list A) :
  (forall x, x ∈ l -> ~ P x) -> filter P l = [].
Proof.
  induction l as [|x l IH]; intros Hl; [reflexivity|].
  rewrite filter_cons. destruct (decide (P x)) as [Hp|_].
  - exfalso. apply (Hl x); [left | exact Hp].
  - apply IH. intros y Hy. apply Hl. right. exact Hy.
Qed.

Lemma flags_at_take (cs : Z) (s0 : sim) (tris : list tri) (k i : nat) :
  (i < k)%nat -> flags_at cs s0 (take k tris) i = flags_at cs s0 tris i.
Proof.
  intros Hi. unfold flags_at. rewrite lookup_take_lt by exact Hi.
  rewrite take_take. replace (i `min` k)%nat with i by lia. reflexivity.
Qed.

Lemma hard_boundaries_take (cs : Z) (vc : nat) (tris : list tri) (k : nat) :
  (k <= length tris)%nat ->
  hard_boundaries cs vc (take k tris) = filter (fun i => i < k)%nat (hard_boundaries cs vc tris).
Proof.
  intros Hk. unfold hard_boundaries. rewrite length_take.
  replace (k `min` length tris)%nat with k by lia.
  rewrite list_filter_filter.
  assert (Hseq : seq 0 (length tris) = seq 0 k ++ seq k (length tris - k)).
  { change k with (0 + k)%nat at 2. rewrite <- seq_app. f_equal. lia. }
  rewrite Hseq, filter_app. rewrite (filter_none _ (seq k _)).
  - rewrite app_nil_r. apply filter_iff_elem. intros i Hi. apply elem_of_seq in Hi.
    unfold is_hard. rewrite flags_at_take by lia. intuition lia.
  - intros i Hi. apply elem_of_seq in Hi. lia.
Qed.

(** X5: the hard boundaries of the first [k] triangles of a mesh are the
    hard boundaries of the whole mesh that lie below [k]: whether a triangle
    starts a region depends on the triangles before it only. *)
Theorem hard_boundaries_prefix (destination indices : list Z)
    (index_count vertex_count : nat) (cache_size : Z) (k : nat) :
  valid_input indices index_count vertex_count ->
  (index_count / 3 <= length destination)%nat ->
  (k <= index_count / 3)%nat ->
  exists (whole : list Z) (whole_count : nat) (part : list Z) (part_count : nat)
         (H : list nat),
    generateHardBoundaries destination indices index_count vertex_count cache_size
      = Some (whole, whole_count) /\
    generateHardBoundaries destination (take (3 * k) indices) (3 * k) vertex_count cache_size
      = Some (part, part_count) /\
    take whole_count whole = Z.of_nat <$> H /\
    take part_count part = Z.of_nat <$> filter (fun i => i < k)%nat H.
Proof.
  intros Hvalid Hdest Hk.
  pose proof (vi_length _ _ _ Hvalid) as Hlen.
  pose proof (vi_triangles _ _ _ Hvalid) as H3.
  assert (Hvalid' : valid_input (take (3 * k) indices) (3 * k) vertex_count).
  { constructor.
    - rewrite length_take. lia.
    - lia.
    - apply Forall_take. exact (vi_range _ _ _ Hvalid).
    - pose proof (vi_count _ _ _ Hvalid). lia. }
  destruct (generateHardBoundaries_run indices index_count vertex_count cache_size destination
              Hvalid Hdest) as (d1 & Hrun1 & _ & Htake1 & _).
  destruct (generateHardBoundaries_run (take (3 * k) indices) (3 * k) vertex_count cache_size
              destination Hvalid') as (d2 & Hrun2 & _ & Htake2 & _); [lia|].
  rewrite triangles_take in Hrun2, Htake2.
  rewrite hard_boundaries_take in Hrun2, Htake2
    by (rewrite (valid_faces _ _ _ Hvalid); exact Hk).
  eexists d1, _, d2, _, _. split; [exact Hrun1|]. split; [exact Hrun2|].
  split; [exact Htake1 | exact Htake2].
Qed.

Lemma hard_boundaries_prefix_witness :
  exists (whole : list Z) (whole_count : nat) (part : list Z) (part_count : nat)
         (H : list nat),
    generateHardBoundaries (replicate 5 0) mesh_indices 15 7 16 = Some (whole, whole_count) /\
    generateHardBoundaries (replicate 5 0) (take (3 * 4) mesh_indices) (3 * 4) 7 16
      = Some (part, part_count) /\
    take whole_count whole = Z.of_nat <$> H /\
    take part_count part = Z.of_nat <$> filter (fun i => i < 4)%nat H.
Proof.
  apply (hard_boundaries_prefix (replicate 5 0) mesh_indices 15 7 16 4).
  - exact mesh_valid.
  - cbn. lia.
  - cbn. lia.
Defined.

(** ** The two boundary passes: what they write *)

Lemma drop_S_frame {A} (d d0 : list A) (r : nat) :
  drop r d = drop r d0 -> drop (S r) d = drop (S r) d0.
Proof.
  intros H. replace (S r) with (r + 1)%nat by lia. rewrite <- !drop_drop, H. reflexivity.
Qed.

Lemma store_frame {A} (d d' d0 : list A) (r : nat) (v : A) :
  store d r v = Some d' -> length d = length d0 -> drop (S r) d = drop (S r) d0 ->
  length d' = length d0 /\ drop (S r) d' = drop (S r) d0.
Proof.
  intros Hs Hl Hd. apply store_inv in Hs. destruct Hs as (Hr & -> & Hl').
  split; [lia|]. rewrite drop_insert_lt by lia. exact Hd.
Qed.

Lemma hardStep_frame (indices : list Z) (cache_size : Z) (d0 : list Z) (i : nat)
    (st st' : HardState) :
  hardStep indices cache_size i st = Some st' ->
  length (hb_destination st) = length d0 /\
    drop (hb_result st) (hb_destination st) = drop (hb_result st) d0 ->
  length (hb_destination st') = length d0 /\
    drop (hb_result st') (hb_destination st') = drop (hb_result st') d0.
Proof.
  unfold hardStep. intros H [Hl Hd].
  destruct (indices !! (i * 3 + 0)%nat) as [a|]; [|discriminate].
  destruct (indices !! (i * 3 + 1)%nat) as [b|]; [|discriminate].
  destruct (indices !! (i * 3 + 2)%nat) as [c|]; [|discriminate].
  cbn [mbind option_bind] in H.
  destruct (updateCache a b c cache_size (hb_cache st) (hb_timestamp st))
    as [[[m cache'] ts']|]; [|discriminate].
  cbn [mbind option_bind] in H.
  destruct ((i =? 0)%nat || (m =? 3)).
  - destruct (store _ _ _) as [d|] eqn:Hs; [|discriminate]. cbn [mbind option_bind] in H.
    injection H as <-. cbn [hb_destination hb_result].
    eapply store_frame; [exact Hs | exact Hl | apply drop_S_frame, Hd].
  - injection H as <-. cbn [hb_destination hb_result]. auto.
Qed.

Lemma walkStep_frame (indices : list Z) (cache_size : Z) (thr : float) (d0 : list Z) (i : nat)
    (w w' : WalkState) :
  walkStep indices cache_size thr i w = Some w' ->
  length (wk_destination w) = length d0 /\ (1 <= wk_result w)%nat /\
    drop (wk_result w) (wk_destination w) = drop (wk_result w) d0 ->
  length (wk_destination w') = length d0 /\ (1 <= wk_result w')%nat /\
    drop (wk_result w') (wk_destination w') = drop (wk_result w') d0.
Proof.
  unfold walkStep. intros H (Hl & H1 & Hd).
  destruct (indices !! (i * 3 + 0)%nat) as [a|]; [|discriminate].
  destruct (indices !! (i * 3 + 1)%nat) as [b|]; [|discriminate].
  destruct (indices !! (i * 3 + 2)%nat) as [c|]; [|discriminate].
  cbn [mbind option_bind] in H.
  destruct (updateCache a b c cache_size (wk_cache w) (wk_timestamp w))
    as [[[m cache'] ts']|]; [|discriminate].
  cbn [mbind option_bind] in H.
  destruct (F32.div _ _) as [rate|]; [|discriminate]. cbn [mbind option_bind] in H.
  destruct (F32.leb rate thr).
  - destruct (store _ _ _) as [d|] eqn:Hs; [|discriminate]. cbn [mbind option_bind] in H.
    injection H as <-. cbn [wk_destination wk_result].
    destruct (store_frame _ _ d0 _ _ Hs Hl (drop_S_frame _ _ _ Hd)) as [Hl' Hd'].
    split; [exact Hl'|]. split; [lia | exact Hd'].
  - injection H as <-. cbn [wk_destination wk_result]. auto.
Qed.

Lemma softRegion_frame (indices : list Z) (index_count : nat) (clusters : list Z)
    (cluster_count : nat) (cache_size : Z) (threshold : float) (d0 : list Z) (it : nat)
    (st st' : SoftState) :
  softRegion indices index_count clusters cluster_count cache_size threshold it st = Some st' ->
  length (sb_destination st) = length d0 /\
    drop (S (sb_result st)) (sb_destination st) = drop (S (sb_result st)) d0 ->
  length (sb_destination st') = length d0 /\
    drop (S (sb_result st')) (sb_destination st') = drop (S (sb_result st')) d0.
Proof.
  unfold softRegion, softRegionWalk. intros H [Hl Hd].
  destruct (Z.to_nat <$> clusters !! it) as [start|]; [|discriminate].
  cbn [mbind option_bind] in H.
  destruct (if (it + 1 <? cluster_count)%nat then Z.to_nat <$> clusters !! (it + 1)%nat
            else Some (index_count / 3)%nat) as [end_|]; [|discriminate].
  cbn [mbind option_bind] in H.
  destruct (assert (start <? end_)%nat); [|discriminate]. cbn [mbind option_bind] in H.
  destruct (for_range (end_ - start) start (measureStep indices cache_size) _)
    as [[[c1 t1] m1]|]; [|discriminate].
  cbn [mbind option_bind] in H.
  destruct (F32.div _ _) as [acmr|]; [|discriminate]. cbn [mbind option_bind] in H.
  destruct (store _ _ _) as [d1|] eqn:Hs; [|discriminate]. cbn [mbind option_bind] in H.
  destruct (for_range (end_ - start) start (walkStep _ _ _) _) as [w|] eqn:Hw; [|discriminate].
  cbn [mbind option_bind] in H.
  destruct (store_frame _ _ d0 _ _ Hs Hl Hd) as [Hl1 Hd1].
  apply (for_range_Some_inv
           (fun w => length (wk_destination w) = length d0 /\ (1 <= wk_result w)%nat /\
                     drop (wk_result w) (wk_destination w) = drop (wk_result w) d0)
           (fun _ => True)) in Hw.
  2:{ cbn [wk_destination wk_result]. split; [exact Hl1|]. split; [lia | exact Hd1]. }
  2:{ intros i w1 w2 _ Hinv Hstep. split; [|exact I].
      eapply walkStep_frame; [exact Hstep | exact Hinv]. }
  destruct Hw as [(Hlw & H1w & Hdw) _].
  unfold popTrailing in H.
  destruct (wk_destination w !! (wk_result w - 1)%nat) as [last|]; [|discriminate].
  cbn [mbind option_bind] in H. injection H as <-. cbn [sb_destination sb_result].
  split; [exact Hlw|].
  destruct (bool_decide (last ≠ Z.of_nat start)).
  - replace (S (wk_result w - 1)) with (wk_result w) by lia. exact Hdw.
  - apply drop_S_frame. exact Hdw.
Qed.

(** X6: the hard boundary pass writes the entries below the count it
    returns and no other; the soft boundary pass may also write the entry
    just after the count it returns (a boundary that the merge rule removed),
    and no entry beyond it. Both leave the length of their buffer unchanged. *)
Theorem boundary_passes_frame (hard_destination soft_destination indices : list Z)
    (index_count vertex_count : nat) (cache_size : Z) (threshold : float)
    (hard_clusters : list Z) (hard_cluster_count : nat)
    (soft_clusters : list Z) (soft_cluster_count : nat) :
  generateHardBoundaries hard_destination indices index_count vertex_count cache_size
    = Some (hard_clusters, hard_cluster_count) ->
  generateSoftBoundaries soft_destination indices index_count vertex_count
    hard_clusters hard_cluster_count cache_size threshold
    = Some (soft_clusters, soft_cluster_count) ->
  length hard_clusters = length hard_destination /\
  drop hard_cluster_count hard_clusters = drop hard_cluster_count hard_destination /\
  length soft_clusters = length soft_destination /\
  drop (soft_cluster_count + 1) soft_clusters = drop (soft_cluster_count + 1) soft_destination.
Proof.
  unfold generateHardBoundaries, generateSoftBoundaries. intros Hh Hs.
  destruct (for_range (index_count / 3) 0 _ _) as [hst|] eqn:Hhl; [|discriminate].
  cbn [mbind option_bind] in Hh.
  destruct (assert (hb_result hst <=? index_count / 3)%nat); [|discriminate].
  cbn [mbind option_bind] in Hh. injection Hh as <- <-.
  destruct (for_range (hb_result hst) 0 _ _) as [sst|] eqn:Hsl; [|discriminate].
  cbn [mbind option_bind] in Hs.
  destruct (assert (hb_result hst <=? sb_result sst)%nat); [|discriminate].
  cbn [mbind option_bind] in Hs.
  destruct (assert (sb_result sst <=? index_count / 3)%nat); [|discriminate].
  cbn [mbind option_bind] in Hs. injection Hs as <- <-.
  apply (for_range_Some_inv
           (fun st => length (hb_destination st) = length hard_destination /\
                      drop (hb_result st) (hb_destination st)
                      = drop (hb_result st) hard_destination)
           (fun _ => True)) in Hhl.
  2:{ cbn [hb_destination hb_result]. auto. }
  2:{ intros i s1 s2 _ Hinv Hstep. split; [|exact I].
      eapply hardStep_frame; [exact Hstep | exact Hinv]. }
  apply (for_range_Some_inv
           (fun st => length (sb_destination st) = length soft_destination /\
                      drop (S (sb_result st)) (sb_destination st)
                      = drop (S (sb_result st)) soft_destination)
           (fun _ => True)) in Hsl.
  2:{ cbn [sb_destination sb_result]. auto. }
  2:{ intros i s1 s2 _ Hinv Hstep. split; [|exact I].
      eapply softRegion_frame; [exact Hstep | exact Hinv]. }
  destruct Hhl as [[Hl1 Hd1] _], Hsl as [[Hl2 Hd2] _].
  replace (sb_result sst + 1)%nat with (S (sb_result sst)) by lia. auto.
Qed.

Lemma boundary_passes_frame_witness :
  length mesh_hard_clusters = length (replicate 5 0) /\
  drop 2 mesh_hard_clusters = drop 2 (replicate 5 0) /\
  length mesh_soft_clusters = length (replicate 6 0) /\
  drop (2 + 1) mesh_soft_clusters = drop (2 + 1) (replicate 6 0) /\
  mesh_soft_clusters !! 2%nat <> replicate 6 0 !! 2%nat.
Proof.
  assert (Hh : generateHardBoundaries (replicate 5 0) mesh_indices 15 7 16
               = Some (mesh_hard_clusters, 2%nat)) by (vm_compute; reflexivity).
  assert (Hs : generateSoftBoundaries (replicate 6 0) mesh_indices 15 7 mesh_hard_clusters 2 16
                 F32.one = Some (mesh_soft_clusters, 2%nat)) by (vm_compute; reflexivity).
  destruct (boundary_passes_frame (replicate 5 0) (replicate 6 0) mesh_indices 15 7 16 F32.one
              mesh_hard_clusters 2 mesh_soft_clusters 2 Hh Hs) as (H1 & H2 & H3 & H4).
  repeat (split; [assumption|]). discriminate.
Defined.

(** ** The soft boundary generator: a threshold that is not a number *)

Lemma soft_walk_nan (cs : Z) (ts : list tri) : forall i rm rf s,
  (soft_walk cs S754_nan i rm rf s ts).1 = [].
Proof.
  induction ts as [|t r IH]; intros i rm rf s; [reflexivity|].
  cbn [soft_walk].
  assert (E : F32.leb (miss_rate (wrap32 (rm + miss_count (tri_access cs s t).1))
                          (wrap32 (rf + 1))) S754_nan = false).
  { unfold F32.leb, SFleb. destruct (miss_rate _ _); reflexivity. }
  rewrite E. apply IH.
Qed.

Lemma soft_boundaries_from_nan (cs : Z) (thr : float) (tris : list tri) (B : list nat) :
  threshold_nan thr = true ->
  forall s, soft_boundaries_from cs thr tris B s = B.
Proof.
  intros Hnan. destruct thr; try discriminate Hnan.
  induction B as [|b B' IH]; intros s; [reflexivity|].
  cbn [soft_boundaries_from]. rewrite IH.
  unfold soft_region, region_threshold. cbn [fst snd].
  change (F32.mul S754_nan ?x) with S754_nan.
  rewrite soft_walk_nan. unfold pop_trailing. cbn [last].
  destruct (decide (Some b = Some b)); [reflexivity | congruence].
Qed.

(** X7: with a NaN threshold no comparison of the walk succeeds: the soft
    boundary generator emits no boundary of its own and returns the hard
    boundaries. *)
Theorem nan_threshold_keeps_hard_boundaries (hard_destination soft_destination indices : list Z)
    (index_count vertex_count : nat) (cache_size : Z) (threshold : float) :
  valid_input indices index_count vertex_count ->
  (index_count / 3 <= length hard_destination)%nat ->
  (index_count / 3 < length soft_destination)%nat ->
  threshold_nan threshold = true ->
  exists (hard_clusters : list Z) (hard_cluster_count : nat) (soft_clusters : list Z),
    generateHardBoundaries hard_destination indices index_count vertex_count cache_size
      = Some (hard_clusters, hard_cluster_count) /\
    generateSoftBoundaries soft_destination indices index_count vertex_count
      hard_clusters hard_cluster_count cache_size threshold
      = Some (soft_clusters, hard_cluster_count) /\
    take hard_cluster_count soft_clusters = take hard_cluster_count hard_clusters.
Proof.
  intros Hvalid Hh Hs Hnan.
  destruct (boundaries_run hard_destination soft_destination indices index_count vertex_count
              cache_size threshold Hvalid Hh Hs)
    as (hc & sc & Hhard & Hhtake & Hsoft & Hstake & _).
  unfold soft_boundaries in Hsoft, Hstake.
  rewrite (soft_boundaries_from_nan _ _ _ _ Hnan) in Hsoft, Hstake.
  eexists hc, _, sc. split; [exact Hhard|]. split; [exact Hsoft|].
  rewrite Hstake, Hhtake. reflexivity.
Qed.

Lemma nan_threshold_keeps_hard_boundaries_witness :
  exists (hard_clusters : list Z) (hard_cluster_count : nat) (soft_clusters : list Z),
    generateHardBoundaries (replicate 5 0) mesh_indices 15 7 16
      = Some (hard_clusters, hard_cluster_count) /\
    generateSoftBoundaries (replicate 6 0) mesh_indices 15 7 hard_clusters hard_cluster_count
      16 S754_nan = Some (soft_clusters, hard_cluster_count) /\
    take hard_cluster_count soft_clusters = take hard_cluster_count hard_clusters.
Proof.
  apply (nan_threshold_keeps_hard_boundaries (replicate 5 0) (replicate 6 0) mesh_indices 15 7
           16 S754_nan).
  - exact mesh_valid.
  - cbn. lia.
  - cbn. lia.
  - reflexivity.
Defined.

(** ** The soft boundary generator: when a reset gives a cold cache *)

(** X8: as long as [(3 * cache_size + 9) * triangle_count < 2^32] no
    timestamp of [generateSoftBoundaries] wraps around: before every region the
    stored timestamps lie between 0 and the global one, and the reset that
    opens the region leaves every vertex out of the cache. *)
Theorem soft_regions_start_cold (destination indices clusters : list Z)
    (index_count vertex_count cluster_count : nat) (cache_size : Z) (threshold : float)
    (B : list nat) (it : nat) :
  valid_input indices index_count vertex_count ->
  take cluster_count clusters = Z.of_nat <$> B ->
  length B = cluster_count ->
  StronglySorted lt B ->
  Forall (fun b => b < index_count / 3)%nat B ->
  (index_count / 3 < length destination)%nat ->
  0 <= cache_size ->
  (3 * cache_size + 9) * Z.of_nat (index_count / 3) < 4294967296 ->
  (it < cluster_count)%nat ->
  exists st : SoftState,
    for_range it 0
      (softRegion indices index_count clusters cluster_count cache_size threshold)
      (mkSoft destination 0 (replicate vertex_count 0) 0) = Some st /\
    Forall (fun x => 0 <= x <= sb_timestamp st) (sb_cache st) /\
    sb_timestamp st + cache_size + 1 < 4294967296 /\
    cold cache_size (reset_cache cache_size (sb_cache st, sb_timestamp st)).
Proof.
  intros Hvalid HB HBlen Hsorted Hbound Hroom Hcs Hmax Hit.
  destruct (soft_rounds destination indices clusters index_count vertex_count cluster_count
              cache_size threshold B it Hvalid HB HBlen Hsorted Hbound Hroom Hcs Hmax)
    as (st & Hrun & (_ & _ & _ & Hst)); [lia|].
  exists st. split; [exact Hrun|].
  destruct (cluster_bounds index_count cluster_count B HBlen Hsorted Hbound it Hit)
    as (b & B' & Hd & Hbe).
  rewrite Hd in Hst. cbn [region_end] in Hst.
  assert (Hb : (3 * cache_size + 9) * Z.of_nat b + cache_size + 1 < 4294967296).
  { assert (Z.of_nat b + 1 <= Z.of_nat (index_count / 3)) by lia. nia. }
  pose proof Hst as [Hts Hall]. cbn [fst snd] in Hts, Hall.
  split; [exact Hall|]. split; [lia|].
  eapply reset_cold; [exact Hcs | exact Hb | exact Hst].
Qed.

Lemma soft_regions_start_cold_witness :
  exists st : SoftState,
    for_range 1 0 (softRegion mesh_indices 15 mesh_hard_clusters 2 16 F32.one)
      (mkSoft (replicate 6 0) 0 (replicate 7 0) 0) = Some st /\
    Forall (fun x => 0 <= x <= sb_timestamp st) (sb_cache st) /\
    sb_timestamp st + 16 + 1 < 4294967296 /\
    cold 16 (reset_cache 16 (sb_cache st, sb_timestamp st)).
Proof.
  apply (soft_regions_start_cold (replicate 6 0) mesh_indices mesh_hard_clusters 15 7 2 16
           F32.one [0%nat; 4%nat] 1).
  - exact mesh_valid.
  - reflexivity.
  - reflexivity.
  - repeat constructor; lia.
  - repeat constructor; cbn; lia.
  - cbn. lia.
  - lia.
  - cbn. lia.
  - lia.
Defined.

(** ** The soft boundary generator: one region at a time *)

Lemma same_ages_le (cs K K' : Z) (s s' : sim) :
  K <= K' -> same_ages cs K s s' -> same_ages cs K' s s'.
Proof.
  intros HK (H1 & H2 & H3 & H4).
  split; [eapply stamps_bounded_le; eassumption|].
  split; [eapply stamps_bounded_le; eassumption|]. auto.
Qed.

Lemma access_unfold (cs : Z) (s : sim) (v x : Z) :
  s.1 !! Z.to_nat v = Some x -> 0 <= s.2 - x < 4294967296 ->
  access cs s v =
    if decide (s.2 - x <= cs) then (false, s)
    else (true, (<[Z.to_nat v := s.2]> (s.1), wrap32 (s.2 + 1))).
Proof.
  intros Hx Hr. unfold access.
  destruct (decide (cache_hit cs s v)) as [Hh|Hm];
    unfold cache_hit, last_used in *; rewrite Hx in *; cbn [default from_option] in *;
    unfold id in *; rewrite wrap32_small in * by exact Hr;
    destruct (decide (s.2 - x <= cs)); try reflexivity; lia.
Qed.

Lemma access_same_ages (cs K : Z) (s s' : sim) (v : Z) :
  K + 1 < 4294967296 -> 0 <= v < Z.of_nat (length s.1) -> same_ages cs K s s' ->
  (access cs s v).1 = (access cs s' v).1 /\
  same_ages cs (K + 1) (access cs s v).2 (access cs s' v).2.
Proof.
  intros HK Hv (B1 & B2 & Hl & Hages).
  pose proof (access_bounded cs K s v HK B1) as B1'.
  pose proof (access_bounded cs K s' v HK B2) as B2'.
  destruct (lookup_lt_is_Some_2 s.1 (Z.to_nat v)) as [x Hx]; [lia|].
  destruct (lookup_lt_is_Some_2 s'.1 (Z.to_nat v)) as [x' Hx']; [lia|].
  pose proof (Hages _ _ _ Hx Hx') as Hv'.
  destruct B1 as [T1 F1], B2 as [T2 F2].
  pose proof F1 as G1. pose proof F2 as G2.
  rewrite Forall_lookup in G1, G2.
  pose proof (G1 _ _ Hx) as X1. pose proof (G2 _ _ Hx') as X2. cbn beta in X1, X2.
  rewrite (access_unfold cs s v x Hx) in * by lia.
  rewrite (access_unfold cs s' v x' Hx') in * by lia.
  destruct (decide (s.2 - x <= cs)) as [Hh|Hm], (decide (s'.2 - x' <= cs)) as [Hh'|Hm'];
    try lia; unfold same_ages; cbn [fst snd] in *.
  - split; [reflexivity|]. split; [assumption|]. split; [assumption|].
    split; [assumption|]. exact Hages.
  - split; [reflexivity|]. split; [assumption|]. split; [assumption|].
    split; [rewrite !length_insert; exact Hl|].
    rewrite !(wrap32_small (_ + 1)) by lia.
    intros i y y' Hy Hy'.
    destruct (decide (i = Z.to_nat v)) as [->|Hne].
    + rewrite list_lookup_insert_eq in Hy, Hy' by lia.
      injection Hy as <-. injection Hy' as <-. left. lia.
    + rewrite list_lookup_insert_ne in Hy, Hy' by congruence.
      destruct (Hages _ _ _ Hy Hy'); [left | right]; lia.
Qed.

Lemma tri_access_same_ages (cs K : Z) (s s' : sim) (t : tri) :
  K + 3 < 4294967296 -> in_range (length s.1) t -> same_ages cs K s s' ->
  (tri_access cs s t).1 = (tri_access cs s' t).1 /\
  same_ages cs (K + 3) (sim_step cs s t) (sim_step cs s' t).
Proof.
  intros HK Hin Hs. unfold sim_step, tri_access. destruct t as [[a b] c].
  destruct Hin as (Ha & Hb & Hc). cbn [fst snd] in Ha, Hb, Hc.
  destruct (access_same_ages cs K s s' a ltac:(lia) Ha Hs) as [Fa H1].
  pose proof (access_length cs s a) as La.
  destruct (access cs s a) as [ma s1], (access cs s' a) as [ma' s1'].
  cbn [fst snd] in *. subst ma'.
  destruct (access_same_ages cs (K + 1) s1 s1' b ltac:(lia) ltac:(lia) H1) as [Fb H2].
  pose proof (access_length cs s1 b) as Lb.
  destruct (access cs s1 b) as [mb s2], (access cs s1' b) as [mb' s2'].
  cbn [fst snd] in *. subst mb'.
  destruct (access_same_ages cs (K + 1 + 1) s2 s2' c ltac:(lia) ltac:(lia) H2) as [Fc H3].
  destruct (access cs s2 c) as [mc s3], (access cs s2' c) as [mc' s3'].
  cbn [fst snd] in *. subst mc'.
  split; [reflexivity|]. eapply same_ages_le; [|exact H3]. lia.
Qed.

Lemma reset_same_ages (cs K : Z) (s s' : sim) :
  0 <= cs -> K + cs + 1 < 4294967296 -> same_ages cs K s s' ->
  same_ages cs (K + cs + 1) (reset_cache cs s) (reset_cache cs s').
Proof.
  intros Hcs HK (B1 & B2 & Hl & Hages).
  pose proof (reset_bounded cs K s Hcs HK B1) as B1'.
  pose proof (reset_bounded cs K s' Hcs HK B2) as B2'.
  split; [exact B1'|]. split; [exact B2'|].
  destruct B1 as [T1 _], B2 as [T2 _].
  unfold reset_cache. cbn [fst snd]. split; [exact Hl|].
  rewrite (wrap32_small (cs + 1)) by lia. rewrite !(wrap32_small (_ + (cs + 1))) by lia.
  intros i x x' Hx Hx'. destruct (Hages _ _ _ Hx Hx'); [left | right]; lia.
Qed.

(** after a reset two states whose timestamps have not wrapped are alike:
    no vertex is in the cache of either *)
Lemma reset_alike (cs K : Z) (s s' : sim) :
  0 <= cs -> K + cs + 1 < 4294967296 ->
  stamps_bounded K s -> stamps_bounded K s' -> length s.1 = length s'.1 ->
  same_ages cs (K + cs + 1) (reset_cache cs s) (reset_cache cs s').
Proof.
  intros Hcs HK B1 B2 Hl.
  pose proof (reset_bounded cs K s Hcs HK B1) as B1'.
  pose proof (reset_bounded cs K s' Hcs HK B2) as B2'.
  split; [exact B1'|]. split; [exact B2'|].
  destruct B1 as [T1 F1], B2 as [T2 F2]. rewrite Forall_lookup in F1, F2.
  unfold reset_cache. cbn [fst snd]. split; [exact Hl|].
  rewrite (wrap32_small (cs + 1)) by lia. rewrite !(wrap32_small (_ + (cs + 1))) by lia.
  intros i x x' Hx Hx'. specialize (F1 _ _ Hx). specialize (F2 _ _ Hx'). cbn beta in F1, F2.
  right. lia.
Qed.

Lemma total_misses_same_ages (cs : Z) (ts : list tri) :
  forall (K : Z) (s s' : sim) (total : Z),
  K + 3 * Z.of_nat (length ts) < 4294967296 -> Forall (in_range (length s.1)) ts ->
  same_ages cs K s s' ->
  (total_misses cs s total ts).1 = (total_misses cs s' total ts).1 /\
  same_ages cs (K + 3 * Z.of_nat (length ts))
    (total_misses cs s total ts).2 (total_misses cs s' total ts).2.
Proof.
  induction ts as [|t r IH]; intros K s s' total HK Hin Hs.
  - cbn [total_misses fst snd length]. split; [reflexivity|].
    eapply same_ages_le; [|exact Hs]. lia.
  - cbn [total_misses]. cbn [length] in *.
    apply Forall_cons in Hin. destruct Hin as [Ht Hr].
    destruct (tri_access_same_ages cs K s s' t ltac:(lia) Ht Hs) as [Hf H1].
    rewrite Hf.
    destruct (IH (K + 3) (sim_step cs s t) (sim_step cs s' t)
                (wrap32 (total + miss_count (tri_access cs s' t).1))) as [E H2];
      [lia | | exact H1 |].
    { unfold sim_step. rewrite tri_access_length. exact Hr. }
    split; [exact E|]. eapply same_ages_le; [|exact H2]. lia.
Qed.

Lemma soft_walk_same_ages (cs : Z) (thr : float) (ts : list tri) :
  forall (K : Z) (i : nat) (rm rf : Z) (s s' : sim),
  0 <= cs -> K + (cs + 4) * Z.of_nat (length ts) < 4294967296 ->
  Forall (in_range (length s.1)) ts -> same_ages cs K s s' ->
  (soft_walk cs thr i rm rf s ts).1 = (soft_walk cs thr i rm rf s' ts).1 /\
  same_ages cs (K + (cs + 4) * Z.of_nat (length ts))
    (soft_walk cs thr i rm rf s ts).2 (soft_walk cs thr i rm rf s' ts).2.
Proof.
  induction ts as [|t r IH]; intros K i rm rf s s' Hcs HK Hin Hs.
  - cbn [soft_walk fst snd length]. split; [reflexivity|].
    eapply same_ages_le; [|exact Hs]. lia.
  - cbn [soft_walk]. cbn [length] in *.
    apply Forall_cons in Hin. destruct Hin as [Ht Hr].
    destruct (tri_access_same_ages cs K s s' t ltac:(lia) Ht Hs) as [Hf H1].
    rewrite Hf.
    assert (Hr' : Forall (in_range (length (sim_step cs s t).1)) r).
    { unfold sim_step. rewrite tri_access_length. exact Hr. }
    destruct (F32.leb _ thr); cbn [fst snd].
    + destruct (IH (K + 3 + cs + 1) (S i) 0 0 (reset_cache cs (sim_step cs s t))
                  (reset_cache cs (sim_step cs s' t)) Hcs) as [E H2];
        [lia | exact Hr' | apply reset_same_ages; [exact Hcs | lia | exact H1] |].
      split; [rewrite E; reflexivity|]. eapply same_ages_le; [|exact H2]. lia.
    + destruct (IH (K + 3) (S i) (wrap32 (rm + miss_count (tri_access cs s' t).1))
                  (wrap32 (rf + 1)) (sim_step cs s t) (sim_step cs s' t) Hcs) as [E H2];
        [lia | exact Hr' | exact H1 |].
      split; [exact E|]. eapply same_ages_le; [|exact H2]. lia.
Qed.

Lemma soft_walk_shift (cs : Z) (thr : float) (b : nat) (ts : list tri) :
  forall (i : nat) (rm rf : Z) (s : sim),
  (soft_walk cs thr (b + i) rm rf s ts).1
  = (fun x => b + x)%nat <$> (soft_walk cs thr i rm rf s ts).1.
Proof.
  induction ts as [|t r IH]; intros i rm rf s; [reflexivity|].
  cbn [soft_walk]. destruct (F32.leb _ thr); cbn [fst snd].
  - rewrite fmap_cons. f_equal; [lia|].
    replace (S (b + i)) with (b + S i)%nat by lia. apply IH.
  - replace (S (b + i)) with (b + S i)%nat by lia. apply IH.
Qed.

(** the boundaries of a region are those of the region taken alone, shifted
    by the region start *)
Lemma soft_region_local (cs : Z) (thr : float) (tris : list tri) (b e : nat) (K : Z)
    (s s' : sim) :
  0 <= cs -> (b < e <= length tris)%nat ->
  K + (3 * cs + 9) * Z.of_nat (e - b) < 4294967296 ->
  stamps_bounded K s -> stamps_bounded K s' -> length s.1 = length s'.1 ->
  Forall (in_range (length s.1)) tris ->
  (soft_region cs thr tris b e s).1
  = (fun x => b + x)%nat
      <$> (soft_region cs thr (take (e - b) (drop b tris)) 0 (e - b) s').1.
Proof.
  intros Hcs Hbe HK B1 B2 Hl Hin. unfold soft_region. cbn [fst snd].
  set (region := take (e - b) (drop b tris)).
  assert (Hn : length region = (e - b)%nat).
  { unfold region. rewrite length_take, length_drop. lia. }
  rewrite Nat.sub_0_r, drop_0. rewrite (take_ge region) by lia.
  assert (Hinr : Forall (in_range (length s.1)) region).
  { unfold region. apply Forall_take, Forall_drop. exact Hin. }
  assert (H1n : 1 <= Z.of_nat (e - b)) by lia.
  set (n := Z.of_nat (e - b)) in *.
  assert (Hk : Z.of_nat (length region) = n) by (unfold n; lia).
  assert (Hb1 : K + cs + 1 < 4294967296) by nia.
  assert (Hb2 : K + cs + 1 + 3 * n < 4294967296) by nia.
  assert (Hb3 : K + cs + 1 + 3 * n + cs + 1 < 4294967296) by nia.
  assert (Hb4 : K + cs + 1 + 3 * n + cs + 1 + (cs + 4) * n < 4294967296) by nia.
  pose proof (reset_alike cs K s s' Hcs Hb1 B1 B2 Hl) as R1.
  destruct (total_misses_same_ages cs region (K + cs + 1) (reset_cache cs s)
              (reset_cache cs s') 0) as [Etot R2];
    [rewrite Hk; exact Hb2 | exact Hinr | exact R1 |].
  rewrite Hk in R2.
  assert (Ethr : region_threshold cs thr s region = region_threshold cs thr s' region).
  { unfold region_threshold. rewrite Etot. reflexivity. }
  pose proof (reset_same_ages cs _ _ _ Hcs Hb3 R2) as R3.
  set (s2 := reset_cache cs (total_misses cs (reset_cache cs s) 0 region).2) in *.
  set (s2' := reset_cache cs (total_misses cs (reset_cache cs s') 0 region).2) in *.
  assert (Hin2 : Forall (in_range (length s2.1)) region).
  { unfold s2, reset_cache. cbn [fst]. rewrite total_misses_length. exact Hinr. }
  destruct (soft_walk_same_ages cs (region_threshold cs thr s region) region
              (K + cs + 1 + 3 * n + cs + 1) b 0 0 s2 s2' Hcs) as [Ewalk _];
    [rewrite Hk; exact Hb4 | exact Hin2 | exact R3 |].
  rewrite Ewalk, Ethr. rewrite fmap_cons. f_equal; [lia|].
  rewrite <- (Nat.add_0_r b) at 1. apply soft_walk_shift.
Qed.

Lemma triangles_drop (k : nat) : forall l : list Z,
  triangles (drop (3 * k) l) = drop k (triangles l).
Proof.
  induction k as [|k IH]; intros l; [rewrite Nat.mul_0_r, !drop_0; reflexivity|].
  replace (3 * S k)%nat with (S (S (S (3 * k)))) by lia.
  destruct l as [|a [|b [|c l]]]; cbn [drop triangles];
    rewrite ?drop_nil; try reflexivity.
  apply IH.
Qed.

Lemma removelast_fmap {A B} (f : A -> B) (l : list A) :
  removelast (f <$> l) = f <$> removelast l.
Proof.
  induction l as [|x [|y l] IH]; try reflexivity.
  cbn [fmap list_fmap removelast] in *. rewrite IH. reflexivity.
Qed.

Lemma pop_trailing_shift (b : nat) (l : list nat) :
  pop_trailing b ((fun x => b + x)%nat <$> l) = (fun x => b + x)%nat <$> pop_trailing 0 l.
Proof.
  unfold pop_trailing. rewrite fmap_last, removelast_fmap.
  destruct (last l) as [x|]; cbn [fmap option_fmap option_map].
  - destruct (decide (Some (b + x)%nat = Some b)) as [E|N],
             (decide (Some x = Some 0%nat)) as [E'|N']; try reflexivity.
    + exfalso. apply N'. f_equal. injection E. lia.
    + exfalso. apply N. f_equal. injection E'. lia.
  - destruct (decide (None = Some b)), (decide (None = Some 0%nat)); try discriminate.
    reflexivity.
Qed.

(** X9: as long as [(3 * cache_size + 9) * triangle_count < 2^32] the
    boundaries that [generateSoftBoundaries] emits for a region are the ones it
    emits when it is run on the triangles of that region alone, shifted by the
    region start: what came before the region has no influence. *)
Theorem soft_region_alone (destination alone_destination indices clusters : list Z)
    (index_count vertex_count cluster_count : nat) (cache_size : Z) (threshold : float)
    (B : list nat) (it b e : nat) :
  valid_input indices index_count vertex_count ->
  take cluster_count clusters = Z.of_nat <$> B ->
  length B = cluster_count ->
  StronglySorted lt B ->
  Forall (fun b => b < index_count / 3)%nat B ->
  (index_count / 3 < length destination)%nat ->
  0 <= cache_size ->
  (3 * cache_size + 9) * Z.of_nat (index_count / 3) < 4294967296 ->
  B !! it = Some b ->
  e = region_end (drop (it + 1) B) (index_count / 3) ->
  (e - b < length alone_destination)%nat ->
  exists (st st' : SoftState) (L : list nat) (alone : list Z) (alone_count : nat),
    for_range it 0
      (softRegion indices index_count clusters cluster_count cache_size threshold)
      (mkSoft destination 0 (replicate vertex_count 0) 0) = Some st /\
    softRegion indices index_count clusters cluster_count cache_size threshold it st
      = Some st' /\
    generateSoftBoundaries alone_destination (take (3 * (e - b)) (drop (3 * b) indices))
      (3 * (e - b)) vertex_count [0] 1 cache_size threshold = Some (alone, alone_count) /\
    take alone_count alone = Z.of_nat <$> L /\
    take (sb_result st') (sb_destination st')
      = take (sb_result st) (sb_destination st) ++ (Z.of_nat <$> ((fun x => b + x)%nat <$> L)).
Proof.
  intros Hvalid HB HBlen Hsorted Hbound Hroom Hcs Hmax Hb He Hroom'.
  pose proof (valid_faces _ _ _ Hvalid) as Hfaces.
  pose proof (vi_length _ _ _ Hvalid) as Hlen.
  pose proof (vi_triangles _ _ _ Hvalid) as H3.
  assert (Hit : (it < cluster_count)%nat).
  { apply lookup_lt_Some in Hb. lia. }
  destruct (soft_rounds destination indices clusters index_count vertex_count cluster_count
              cache_size threshold B it Hvalid HB HBlen Hsorted Hbound Hroom Hcs Hmax)
    as (st & Hrounds & (Hl & Hres & Hcache & Hst)); [lia|].
  destruct (cluster_bounds index_count cluster_count B HBlen Hsorted Hbound it Hit)
    as (b0 & B' & Hd & Hbe).
  assert (b0 = b).
  { rewrite <- (Nat.add_0_r it), <- lookup_drop, Hd in Hb. injection Hb as ->. reflexivity. }
  subst b0.
  assert (Hd' : drop (it + 1) B = B').
  { rewrite <- drop_drop, Hd. reflexivity. }
  rewrite Hd' in He. subst e.
  set (T := (index_count / 3)%nat) in *. set (e := region_end B' T) in *.
  rewrite Hd in Hres, Hst. cbn [region_end] in Hres, Hst.
  destruct (softRegion_run indices index_count vertex_count cache_size Hvalid clusters
              cluster_count threshold B HB HBlen it b B' st Hd)
    as (st' & Hstep & _ & _ & Htake & _).
  { rewrite Hfaces. exact Hbe. }
  { exact Hcache. }
  { rewrite Hfaces. fold T. fold e. lia. }
  rewrite Hfaces in Htake. fold T in Htake. fold e in Htake.
  (* the region taken alone *)
  set (n := (e - b)%nat) in *.
  set (indices' := take (3 * n) (drop (3 * b) indices)).
  assert (Hvalid' : valid_input indices' (3 * n) vertex_count).
  { constructor.
    - unfold indices'. rewrite length_take, length_drop. lia.
    - lia.
    - unfold indices'. apply Forall_take, Forall_drop. exact (vi_range _ _ _ Hvalid).
    - pose proof (vi_count _ _ _ Hvalid). lia. }
  assert (Htris' : triangles indices' = take n (drop b (triangles indices))).
  { unfold indices'. rewrite triangles_take, triangles_drop. reflexivity. }
  assert (Hn' : length (triangles indices') = n).
  { rewrite Htris', length_take, length_drop, Hfaces. lia. }
  destruct (generateSoftBoundaries_run indices' (3 * n) vertex_count cache_size Hvalid' [0] 1
              threshold [0%nat] eq_refl eq_refl alone_destination)
    as (alone & Halone & _ & Hatake).
  { repeat constructor. }
  { repeat constructor. lia. }
  { lia. }
  cbn zeta in Halone, Hatake.
  set (L := soft_boundaries cache_size threshold vertex_count (triangles indices') [0%nat])
    in *.
  exists st, st', L, alone, (length L).
  split; [exact Hrounds|]. split; [exact Hstep|]. split; [exact Halone|].
  split; [exact Hatake|].
  rewrite Htake. f_equal. f_equal.
  unfold L, soft_boundaries. cbn [soft_boundaries_from region_end]. rewrite app_nil_r.
  rewrite <- pop_trailing_shift. f_equal.
  rewrite Hn', Htris'.
  apply (soft_region_local cache_size threshold (triangles indices) b e
           ((3 * cache_size + 9) * Z.of_nat b)).
  - exact Hcs.
  - rewrite Hfaces. exact Hbe.
  - assert (Z.of_nat e <= Z.of_nat T) by lia.
    assert (Z.of_nat b + Z.of_nat (e - b) = Z.of_nat e) by lia. nia.
  - exact Hst.
  - split; cbn [fst snd]; [nia | apply Forall_replicate; lia].
  - cbn [fst]. rewrite length_replicate. exact Hcache.
  - cbn [fst]. rewrite Hcache. exact (valid_in_range _ _ _ Hvalid).
Qed.

Lemma soft_region_alone_witness :
  exists (st st' : SoftState) (L : list nat) (alone : list Z) (alone_count : nat),
    for_range 1 0 (softRegion mesh_indices 15 mesh_hard_clusters 2 16 F32.one)
      (mkSoft (replicate 6 0) 0 (replicate 7 0) 0) = Some st /\
    softRegion mesh_indices 15 mesh_hard_clusters 2 16 F32.one 1 st = Some st' /\
    generateSoftBoundaries (replicate 2 0) (take (3 * (5 - 4)) (drop (3 * 4) mesh_indices))
      (3 * (5 - 4)) 7 [0] 1 16 F32.one = Some (alone, alone_count) /\
    take alone_count alone = Z.of_nat <$> L /\
    take (sb_result st') (sb_destination st')
      = take (sb_result st) (sb_destination st) ++ (Z.of_nat <$> ((fun x => 4 + x)%nat <$> L)).
Proof.
  apply (soft_region_alone (replicate 6 0) (replicate 2 0) mesh_indices mesh_hard_clusters 15 7
           2 16 F32.one [0%nat; 4%nat] 1 4 5).
  - exact mesh_valid.
  - reflexivity.
  - reflexivity.
  - repeat constructor; lia.
  - repeat constructor; cbn; lia.
  - cbn. lia.
  - lia.
  - cbn. lia.
  - reflexivity.
  - reflexivity.
  - cbn. lia.
Defined.

(** ** The order in which clusters are sorted *)

Lemma SFcompare_key (x y : float) :
  SFcompare x y =
    match score_key x, score_key y with
    | Some k, Some k' => Some (key_compare k k')
    | _, _ => None
    end.
Proof.
  destruct x as [sx|sx| |sx mx ex], y as [sy|sy| |sy my ey];
    try destruct sx; try destruct sy; try reflexivity;
    unfold key_compare; cbn [SFcompare score_key fst snd]; f_equal.
  - rewrite Z.compare_opp, (Z.compare_antisym ex ey).
    destruct (ex ?= ey); reflexivity.
Qed.

Lemma key_compare_Lt (k k' : Z * Z * Z) :
  key_compare k k' = Lt <->
  k.1.1 < k'.1.1 \/ k.1.1 = k'.1.1 /\ (k.1.2 < k'.1.2 \/ k.1.2 = k'.1.2 /\ k.2 < k'.2).
Proof.
  unfold key_compare.
  destruct (Z.compare_spec k.1.1 k'.1.1), (Z.compare_spec k.1.2 k'.1.2),
    (Z.compare_spec k.2 k'.2); split; intros G; try discriminate G; try reflexivity; lia.
Qed.

Lemma ltb_key (x y : float) :
  F32.ltb x y = true <->
  exists k k', score_key x = Some k /\ score_key y = Some k' /\ key_compare k k' = Lt.
Proof.
  unfold F32.ltb, SFltb. rewrite SFcompare_key.
  destruct (score_key x) as [k|], (score_key y) as [k'|]; split;
    try (intros H; discriminate H); try (intros (? & ? & ? & ? & ?); discriminate).
  - destruct (key_compare k k') eqn:E; intros H; try discriminate H. eauto.
  - intros (? & ? & [= <-] & [= <-] & ->). reflexivity.
Qed.

Lemma score_key_nan (d : ClusterSortData) :
  score_nan d = false -> exists k, score_key (dot_product d) = Some k.
Proof.
  unfold score_nan. destruct (dot_product d) as [s|s| |s m e]; try destruct s;
    intros H; try discriminate H; eauto.
Qed.

Lemma lt_false_key (x y : ClusterSortData) (k k' : Z * Z * Z) :
  score_key (dot_product x) = Some k -> score_key (dot_product y) = Some k' ->
  ClusterSortData_lt x y = false -> key_compare k' k <> Lt.
Proof.
  intros Hx Hy H E. unfold ClusterSortData_lt in H.
  assert (F32.ltb (dot_product y) (dot_product x) = true) by (apply ltb_key; eauto).
  congruence.
Qed.

Lemma incomparable_trans (x y z : ClusterSortData) :
  score_nan y = false -> incomparable x y -> incomparable y z -> incomparable x z.
Proof.
  intros Hy [Hxy Hyx] [Hyz Hzy].
  destruct (score_key_nan y Hy) as (ky & Ky).
  split.
  - destruct (ClusterSortData_lt x z) eqn:E; [|reflexivity]. exfalso.
    apply ltb_key in E. destruct E as (kz & kx & Kz & Kx & E).
    pose proof (lt_false_key _ _ _ _ Kx Ky Hxy) as N1.
    pose proof (lt_false_key _ _ _ _ Ky Kx Hyx) as N2.
    pose proof (lt_false_key _ _ _ _ Ky Kz Hyz) as N3.
    pose proof (lt_false_key _ _ _ _ Kz Ky Hzy) as N4.
    rewrite key_compare_Lt in *. lia.
  - destruct (ClusterSortData_lt z x) eqn:E; [|reflexivity]. exfalso.
    apply ltb_key in E. destruct E as (kx & kz & Kx & Kz & E).
    pose proof (lt_false_key _ _ _ _ Kx Ky Hxy) as N1.
    pose proof (lt_false_key _ _ _ _ Ky Kx Hyx) as N2.
    pose proof (lt_false_key _ _ _ _ Ky Kz Hyz) as N3.
    pose proof (lt_false_key _ _ _ _ Kz Ky Hzy) as N4.
    rewrite key_compare_Lt in *. lia.
Qed.

(** X10: [operator<] of [ClusterSortData] is irreflexive, asymmetric and
    transitive on all scores; on scores that are not NaN being unordered is
    transitive as well, so [operator<] is a strict weak ordering there; a NaN
    score is unordered with every score. *)
Theorem ClusterSortData_lt_order :
  (forall x, ClusterSortData_lt x x = false) /\
  (forall x y, ClusterSortData_lt x y = true -> ClusterSortData_lt y x = false) /\
  (forall x y z, ClusterSortData_lt x y = true -> ClusterSortData_lt y z = true ->
     ClusterSortData_lt x z = true) /\
  (forall x y z, score_nan y = false -> incomparable x y -> incomparable y z ->
     incomparable x z) /\
  (forall x y, score_nan x = true -> incomparable x y).
Proof.
  split; [|split; [|split; [|split]]].
  - intros x. destruct (ClusterSortData_lt x x) eqn:E; [|reflexivity].
    apply ltb_key in E. destruct E as (k & k' & H1 & H2 & E).
    rewrite H1 in H2. injection H2 as <-. apply key_compare_Lt in E. lia.
  - intros x y Hxy. destruct (ClusterSortData_lt y x) eqn:E; [|reflexivity].
    apply ltb_key in Hxy, E.
    destruct Hxy as (k1 & k2 & H1 & H2 & Hxy), E as (k3 & k4 & H3 & H4 & E).
    rewrite H1 in H4. rewrite H2 in H3. injection H3 as <-. injection H4 as <-.
    apply key_compare_Lt in Hxy, E. lia.
  - intros x y z Hxy Hyz. apply ltb_key in Hxy, Hyz. apply ltb_key.
    destruct Hxy as (k1 & k2 & H1 & H2 & Hxy), Hyz as (k3 & k4 & H3 & H4 & Hyz).
    rewrite H1 in H4. injection H4 as <-.
    exists k3, k2. split; [exact H3|]. split; [exact H2|].
    apply key_compare_Lt in Hxy, Hyz. apply key_compare_Lt. lia.
  - exact incomparable_trans.
  - intros x y Hx. unfold incomparable, ClusterSortData_lt, F32.ltb, score_nan in *.
    destruct (dot_product x); try discriminate Hx.
    split; [destruct (dot_product y); reflexivity | reflexivity].
Qed.

(** ** The cluster scorer: it returns on every valid input *)

(** X11: on a non-empty valid input whose boundary list is strictly
    increasing and stays below the triangle count, [calculateSortData]
    returns: no read leaves a buffer, no assertion fails and no division has
    a zero divisor; it leaves the length of the score array unchanged and
    entry [c] of the array holds cluster number [c]. *)
Theorem calculateSortData_defined (sort_data : list ClusterSortData) (indices : list Z)
    (index_count vertex_count : nat) (vertex_positions : list float)
    (vertex_positions_stride : nat) (clusters : list Z) (cluster_count : nat) (S : list nat) :
  valid_input indices index_count vertex_count ->
  index_count <> 0%nat ->
  positions_ok vertex_positions (vertex_positions_stride / 4) vertex_count ->
  take cluster_count clusters = Z.of_nat <$> S ->
  length S = cluster_count ->
  StronglySorted lt S ->
  Forall (fun b => b < index_count / 3)%nat S ->
  length sort_data = cluster_count ->
  exists sort_data',
    calculateSortData sort_data indices index_count vertex_positions vertex_positions_stride
      clusters cluster_count = Some sort_data' /\
    length sort_data' = cluster_count /\
    forall c : nat, (c < cluster_count)%nat ->
      cluster <$> sort_data' !! c = Some (Z.of_nat c).
Proof.
  intros Hvalid Hne Hpos HS HSlen Hsorted Hbound Hlen.
  destruct (calculateSortData_run indices index_count vertex_count vertex_positions
              (vertex_positions_stride / 4) Hvalid Hpos clusters cluster_count S HS HSlen
              Hsorted Hbound sort_data vertex_positions_stride eq_refl Hne Hlen)
    as (sd & Hrun & Hids).
  exists sd. split; [exact Hrun|]. split.
  - apply (f_equal length) in Hids. rewrite !length_fmap, length_seq in Hids. exact Hids.
  - intros c Hc. rewrite <- list_lookup_fmap, Hids, list_lookup_fmap.
    rewrite lookup_seq_lt by exact Hc. reflexivity.
Qed.

Lemma calculateSortData_defined_witness :
  exists sort_data',
    calculateSortData (replicate 2 (mkSortData 0 F32.zero)) mesh_indices 15 mesh_positions 12
      mesh_soft_clusters 2 = Some sort_data' /\
    length sort_data' = 2%nat /\
    forall c : nat, (c < 2)%nat -> cluster <$> sort_data' !! c = Some (Z.of_nat c).
Proof.
  apply (calculateSortData_defined (replicate 2 (mkSortData 0 F32.zero)) mesh_indices 15 7
           mesh_positions 12 mesh_soft_clusters 2 [0%nat; 4%nat]).
  - exact mesh_valid.
  - lia.
  - exact mesh_positions_ok.
  - reflexivity.
  - reflexivity.
  - repeat constructor; lia.
  - repeat constructor; cbn; lia.
  - reflexivity.
Defined.

(** ** The entry point: what a call that returns has read and written *)

Lemma hardStep_reads (indices : list Z) (cache_size : Z) (i : nat) (st st' : HardState) :
  hardStep indices cache_size i st = Some st' ->
  length (hb_cache st') = length (hb_cache st) /\
  exists a b c,
    indices !! (i * 3 + 0)%nat = Some a /\ indices !! (i * 3 + 1)%nat = Some b /\
    indices !! (i * 3 + 2)%nat = Some c /\
    (Z.to_nat a < length (hb_cache st))%nat /\ (Z.to_nat b < length (hb_cache st))%nat /\
    (Z.to_nat c < length (hb_cache st))%nat.
Proof.
  unfold hardStep. intros H.
  destruct (indices !! (i * 3 + 0)%nat) as [a|]; [|discriminate].
  destruct (indices !! (i * 3 + 1)%nat) as [b|]; [|discriminate].
  destruct (indices !! (i * 3 + 2)%nat) as [c|]; [|discriminate].
  cbn [mbind option_bind] in H.
  destruct (updateCache a b c cache_size (hb_cache st) (hb_timestamp st))
    as [[[m cache'] ts']|] eqn:Hu; [|discriminate].
  cbn [mbind option_bind] in H.
  apply updateCache_reads in Hu. destruct Hu as (La & Lb & Lc & Ll & _).
  assert (Hc' : hb_cache st' = cache').
  { destruct ((i =? 0)%nat || (m =? 3)).
    - destruct (store _ _ _); [|discriminate]. cbn [mbind option_bind] in H.
      injection H as <-. reflexivity.
    - injection H as <-. reflexivity. }
  rewrite Hc'. split; [exact Ll|]. exists a, b, c. auto 10.
Qed.

Lemma position_inv (vertex_positions : list float) (vertex_stride_float : nat) (index : Z)
    (p : vec3) :
  position vertex_positions vertex_stride_float index = Some p ->
  (vertex_stride_float * Z.to_nat index + 2 < length vertex_positions)%nat.
Proof.
  unfold position. intros H.
  destruct (vertex_positions !! (vertex_stride_float * Z.to_nat index + 0)%nat) as [p0|];
    [|discriminate].
  cbn [mbind option_bind] in H.
  destruct (vertex_positions !! (vertex_stride_float * Z.to_nat index + 1)%nat) as [p1|];
    [|discriminate].
  cbn [mbind option_bind] in H.
  destruct (vertex_positions !! (vertex_stride_float * Z.to_nat index + 2)%nat) as [p2|] eqn:E;
    [|discriminate].
  apply lookup_lt_Some in E. exact E.
Qed.

Lemma centroidStep_reads (indices : list Z) (vertex_positions : list float)
    (vertex_stride_float : nat) (i : nat) (m m' : vec3) :
  centroidStep indices vertex_positions vertex_stride_float i m = Some m' ->
  exists v, indices !! i = Some v /\
    (vertex_stride_float * Z.to_nat v + 2 < length vertex_positions)%nat.
Proof.
  unfold centroidStep. destruct m as [[m0 m1] m2]. intros H.
  destruct (indices !! i) as [v|]; [|discriminate]. cbn [mbind option_bind] in H.
  destruct (position vertex_positions vertex_stride_float v) as [p|] eqn:Hp; [|discriminate].
  exists v. split; [reflexivity|]. eapply position_inv. exact Hp.
Qed.

Lemma copyStep_writes (indices : list Z) (i : nat) (d d' : list Z) (o o' : nat) :
  copyStep indices i (d, o) = Some (d', o') ->
  length d' = length d /\ (o' <= length d)%nat.
Proof.
  unfold copyStep. intros H.
  destruct (indices !! (3 * i + 0)%nat) as [x0|]; [|discriminate].
  cbn [mbind option_bind] in H.
  destruct (store d o x0) as [d1|] eqn:S1; [|discriminate]. cbn [mbind option_bind] in H.
  destruct (indices !! (3 * i + 1)%nat) as [x1|]; [|discriminate].
  cbn [mbind option_bind] in H.
  destruct (store d1 (S o) x1) as [d2|] eqn:S2; [|discriminate]. cbn [mbind option_bind] in H.
  destruct (indices !! (3 * i + 2)%nat) as [x2|]; [|discriminate].
  cbn [mbind option_bind] in H.
  destruct (store d2 (S (S o)) x2) as [d3|] eqn:S3; [|discriminate].
  cbn [mbind option_bind] in H. injection H as <- <-.
  apply store_inv in S1, S2, S3. lia.
Qed.

Lemma emitStep_writes (indices : list Z) (index_count : nat) (clusters : list Z)
    (cluster_count : nat) (sort_data : list ClusterSortData) (it : nat)
    (d d' : list Z) (o o' : nat) :
  emitStep indices index_count clusters cluster_count sort_data it (d, o) = Some (d', o') ->
  (o <= length d)%nat -> length d' = length d /\ (o' <= length d)%nat.
Proof.
  unfold emitStep. intros H Ho.
  destruct (sort_data !! it) as [sd|]; [|discriminate].
  cbn [mbind option_bind fmap option_fmap option_map] in H.
  destruct (assert _); [|discriminate]. cbn [mbind option_bind] in H.
  destruct (Z.to_nat <$> clusters !! Z.to_nat (cluster sd)) as [start|]; [|discriminate].
  cbn [mbind option_bind] in H.
  destruct (if (Z.to_nat (cluster sd) + 1 <? cluster_count)%nat
            then Z.to_nat <$> clusters !! (Z.to_nat (cluster sd) + 1)%nat
            else Some (index_count / 3)%nat) as [end_|]; [|discriminate].
  cbn [mbind option_bind] in H.
  destruct (assert _); [|discriminate]. cbn [mbind option_bind] in H.
  apply (for_range_Some_inv
           (fun st : list Z * nat => length st.1 = length d /\ (st.2 <= length d)%nat)
           (fun _ => True)) in H.
  - exact (proj1 H).
  - cbn [fst snd]. auto.
  - intros i [d1 o1] [d2 o2] _ [L1 L2] Hc. cbn [fst snd] in *.
    apply copyStep_writes in Hc. split; [lia | exact I].
Qed.

(** X13: a call of [meshopt_optimizeOverdraw] on a non-empty mesh that
    returns has stayed inside its buffers: each of the [index_count] indices
    exists and is below [vertex_count], the three coordinates of the vertex it
    names lie inside the position buffer, the destination holds at least
    [index_count] elements, and its length is unchanged. *)
Theorem optimizeOverdraw_defined_in_bounds
    (std_sort : list ClusterSortData -> list ClusterSortData)
    (destination : list Z) (indices_arg : IndexArg) (index_count : nat)
    (vertex_positions : list float) (vertex_count vertex_positions_stride : nat)
    (cache_size : Z) (threshold : float) (destination' : list Z) :
  index_count <> 0%nat -> vertex_count <> 0%nat ->
  meshopt_optimizeOverdraw std_sort destination indices_arg index_count vertex_positions
    vertex_count vertex_positions_stride cache_size threshold = Some destination' ->
  (forall i : nat, (i < index_count)%nat ->
     exists v, input_indices indices_arg destination index_count !! i = Some v /\
       (Z.to_nat v < vertex_count)%nat /\
       (vertex_positions_stride / 4 * Z.to_nat v + 2 < length vertex_positions)%nat) /\
  (index_count <= length destination)%nat /\
  length destination' = length destination.
Proof.
  intros Hne Hvc H.
  unfold meshopt_optimizeOverdraw in H.
  destruct (assert (index_count mod 3 =? 0)%nat) eqn:H3; [|discriminate].
  apply assert_inv, Nat.eqb_eq in H3.
  cbn [mbind option_bind] in H.
  destruct (assert (_ && _)); [|discriminate]. cbn [mbind option_bind] in H.
  destruct (assert (vertex_positions_stride mod 4 =? 0)%nat); [|discriminate].
  cbn [mbind option_bind] in H.
  destruct (assert (3 <=? cache_size)); [|discriminate]. cbn [mbind option_bind] in H.
  replace ((index_count =? 0)%nat || (vertex_count =? 0)%nat) with false in H.
  2:{ symmetry. apply orb_false_intro; apply Nat.eqb_neq; assumption. }
  fold (input_indices indices_arg destination index_count) in H.
  set (indices := input_indices indices_arg destination index_count) in *.
  destruct (generateHardBoundaries _ indices _ _ _) as [[hc hn]|] eqn:Hh; [|discriminate].
  cbn [mbind option_bind] in H.
  destruct (generateSoftBoundaries _ indices _ _ _ _ _ _) as [[sc sn]|] eqn:Hs; [|discriminate].
  cbn [mbind option_bind] in H.
  destruct (calculateSortData _ indices _ _ _ _ _) as [sd|] eqn:Hc; [|discriminate].
  cbn [mbind option_bind] in H.
  destruct (for_range sn 0 _ _) as [[d off]|] eqn:He; [|discriminate].
  cbn [mbind option_bind] in H.
  destruct (assert (off =? index_count)%nat) eqn:Ha; [|discriminate].
  cbn [mbind option_bind] in H. injection H as <-.
  apply assert_inv, Nat.eqb_eq in Ha. subst off.
  (* the output loop *)
  apply (for_range_Some_inv
           (fun st : list Z * nat =>
              length st.1 = length destination /\ (st.2 <= length destination)%nat)
           (fun _ => True)) in He.
  2:{ cbn [fst snd]. split; [reflexivity | lia]. }
  2:{ intros it [d1 o1] [d2 o2] _ [L1 L2] Hstep. cbn [fst snd] in *.
      apply emitStep_writes in Hstep; [|lia]. split; [lia | exact I]. }
  destruct He as [[Hlen Hoff] _]. cbn [fst snd] in Hlen, Hoff.
  split; [|split; assumption].
  (* the hard boundary loop *)
  unfold generateHardBoundaries in Hh.
  destruct (for_range (index_count / 3) 0 _ _) as [hst|] eqn:Hloop; [|discriminate].
  apply (for_range_Some_inv
           (fun st => length (hb_cache st) = vertex_count)
           (fun i => exists a b c,
              indices !! (i * 3 + 0)%nat = Some a /\ indices !! (i * 3 + 1)%nat = Some b /\
              indices !! (i * 3 + 2)%nat = Some c /\
              (Z.to_nat a < vertex_count)%nat /\ (Z.to_nat b < vertex_count)%nat /\
              (Z.to_nat c < vertex_count)%nat)) in Hloop.
  2:{ apply length_replicate. }
  2:{ intros i st st' _ Hst Hstep. apply hardStep_reads in Hstep.
      rewrite Hst in Hstep. exact Hstep. }
  destruct Hloop as [_ Hfaces].
  (* the centroid loop *)
  unfold calculateSortData in Hc.
  destruct (for_range index_count 0 _ vec3_zero) as [mc|] eqn:Hcen; [|discriminate].
  apply (for_range_Some_inv (fun _ => True)
           (fun i => exists v, indices !! i = Some v /\
              (vertex_positions_stride / 4 * Z.to_nat v + 2 < length vertex_positions)%nat))
    in Hcen.
  2:{ exact I. }
  2:{ intros i m m' _ _ Hstep. split; [exact I|]. eapply centroidStep_reads. exact Hstep. }
  destruct Hcen as [_ Hpos].
  intros i Hi. destruct (Hpos i) as (v & Hv & Hp); [lia|].
  exists v. split; [exact Hv|]. split; [|exact Hp].
  destruct (Hfaces (i / 3)%nat) as (a & b & c & Ia & Ib & Ic & La & Lb & Lc); [lia|].
  assert (Hk : (i = i / 3 * 3 + 0 \/ i = i / 3 * 3 + 1 \/ i = i / 3 * 3 + 2)%nat) by lia.
  destruct Hk as [Hk|[Hk|Hk]]; rewrite Hk in Hv; congruence.
Qed.

Lemma optimizeOverdraw_defined_in_bounds_witness :
  (forall i : nat, (i < 15)%nat ->
     exists v, mesh_indices !! i = Some v /\ (Z.to_nat v < 7)%nat /\
       (12 / 4 * Z.to_nat v + 2 < length mesh_positions)%nat) /\
  (15 <= length (replicate 15 0))%nat /\
  length mesh_indices = length (replicate 15 0).
Proof.
  apply (optimizeOverdraw_defined_in_bounds insertion_sort (replicate 15 0)
           (OtherBuffer mesh_indices) 15 mesh_positions 7 12 16 F32.one mesh_indices).
  - lia.
  - lia.
  - vm_compute. reflexivity.
Defined.

(** ** The entry point: the order of the output *)

(** the output loop, with the order of the clusters it copies *)
Lemma emit_loop_exact (indices : list Z) (index_count vertex_count : nat) (clusters : list Z)
    (cluster_count : nat) (S : list nat) (sort_data : list ClusterSortData)
    (destination : list Z) :
  valid_input indices index_count vertex_count ->
  take cluster_count clusters = Z.of_nat <$> S ->
  length S = cluster_count ->
  StronglySorted lt S ->
  Forall (fun b => b < index_count / 3)%nat S ->
  head S = Some 0%nat ->
  cluster <$> sort_data ≡ₚ Z.of_nat <$> seq 0 cluster_count ->
  (index_count <= length destination)%nat ->
  exists destination',
    for_range cluster_count 0
      (emitStep indices index_count clusters cluster_count sort_data) (destination, 0%nat)
      = Some (destination', index_count) /\
    length destination' = length destination /\
    triangles (take index_count destination')
      = ((fun d => Z.to_nat (cluster d)) <$> sort_data) ≫= chunk (triangles indices) S /\
    drop index_count destination' = drop index_count destination.
Proof.
  intros Hvalid HS HSlen Hsorted Hbound Hhead Hperm Hdest.
  set (ids := (fun d => Z.to_nat (cluster d)) <$> sort_data).
  pose proof (valid_faces _ _ _ Hvalid) as Hfaces.
  pose proof (vi_triangles _ _ _ Hvalid) as H3.
  pose proof (ids_perm cluster_count S HSlen sort_data Hperm) as Hidp. fold ids in Hidp.
  pose proof (ids_chunks indices index_count vertex_count Hvalid cluster_count S HSlen Hsorted
                Hbound Hhead sort_data Hperm) as Hch. fold ids in Hch.
  destruct (for_range_inv (emit_inv index_count (triangles indices) S ids destination)
              cluster_count 0
              (emitStep indices index_count clusters cluster_count sort_data)
              (destination, 0%nat)) as ([d' off] & Hrun & Hlen & Hoff & Htri & Hframe).
  - unfold emit_inv. cbn [fst snd]. rewrite !take_0. repeat split; reflexivity.
  - intros it st Hit. apply (emitStep_inv indices index_count vertex_count Hvalid clusters
                               cluster_count S HS HSlen Hsorted Hbound Hhead sort_data Hperm);
      [exact Hdest | lia].
  - cbn [fst snd Nat.add] in *.
    assert (Hidl : length ids = cluster_count).
    { rewrite (Permutation_length Hidp). apply length_seq. }
    rewrite take_ge in Hoff, Htri by lia.
    rewrite (Permutation_length Hch), Hfaces in Hoff.
    replace off with index_count in * by lia.
    exists d'. auto.
Qed.

(** the whole run on a non-empty valid input *)
Lemma optimizeOverdraw_run
    (std_sort : list ClusterSortData -> list ClusterSortData)
    (destination : list Z) (indices_arg : IndexArg) (index_count : nat)
    (vertex_positions : list float) (vertex_count vertex_positions_stride : nat)
    (cache_size : Z) (threshold : float) :
  (forall l, std_sort l ≡ₚ l) ->
  valid_input (input_indices indices_arg destination index_count) index_count vertex_count ->
  (0 < vertex_positions_stride <= 256)%nat ->
  (vertex_positions_stride mod 4 = 0)%nat ->
  3 <= cache_size ->
  positions_ok vertex_positions (vertex_positions_stride / 4) vertex_count ->
  (index_count <= length destination)%nat ->
  index_count <> 0%nat ->
  let indices := input_indices indices_arg destination index_count in
  let tris := triangles indices in
  let H := hard_boundaries cache_size vertex_count tris in
  let S := soft_boundaries cache_size threshold vertex_count tris H in
  exists (hard_clusters soft_clusters : list Z) (sort_data : list ClusterSortData)
         (destination' : list Z),
    generateHardBoundaries (replicate (index_count / 3) 0) indices index_count vertex_count
      cache_size = Some (hard_clusters, length H) /\
    generateSoftBoundaries (replicate (index_count / 3 + 1) 0) indices index_count vertex_count
      hard_clusters (length H) cache_size threshold = Some (soft_clusters, length S) /\
    take (length S) soft_clusters = Z.of_nat <$> S /\
    calculateSortData (replicate (length S) (mkSortData 0 F32.zero)) indices index_count
      vertex_positions vertex_positions_stride soft_clusters (length S) = Some sort_data /\
    cluster <$> sort_data = Z.of_nat <$> seq 0 (length S) /\
    meshopt_optimizeOverdraw std_sort destination indices_arg index_count vertex_positions
      vertex_count vertex_positions_stride cache_size threshold = Some destination' /\
    length destination' = length destination /\
    drop index_count destination' = drop index_count destination /\
    triangles (take index_count destination')
      = ((fun d => Z.to_nat (cluster d)) <$> std_sort sort_data) ≫= chunk tris S.
Proof.
  intros Hsort Hvalid Hs H4 Hc Hpos Hdest Hne indices tris H S.
  fold indices in Hvalid.
  pose proof (vi_triangles _ _ _ Hvalid) as H3.
  pose proof (vi_length _ _ _ Hvalid) as Hlen.
  pose proof (valid_faces _ _ _ Hvalid) as Hfaces. fold tris in Hfaces.
  destruct (asserts_pass index_count vertex_positions_stride cache_size H3 Hs H4 Hc)
    as (A1 & A2 & A3 & A4).
  unfold meshopt_optimizeOverdraw. rewrite A1, A2, A3, A4. cbn [mbind option_bind].
  assert (Hvc : vertex_count <> 0%nat).
  { intros ->. destruct indices as [|x l]; [cbn [length] in Hlen; lia|].
    pose proof (vi_range _ _ _ Hvalid) as Hr. apply Forall_cons in Hr. lia. }
  replace ((index_count =? 0)%nat || (vertex_count =? 0)%nat) with false.
  2:{ symmetry. apply orb_false_intro; apply Nat.eqb_neq; assumption. }
  fold (input_indices indices_arg destination index_count). fold indices.
  destruct (boundaries_run (replicate (index_count / 3) 0) (replicate (index_count / 3 + 1) 0)
              indices index_count vertex_count cache_size threshold Hvalid)
    as (hc & sc & Hhard & Hhtake & Hsoft & Hstake & Hslen);
    [rewrite length_replicate; lia | rewrite length_replicate; lia |].
  fold tris in Hhard, Hhtake, Hsoft, Hstake. fold H in Hhard, Hhtake, Hsoft, Hstake.
  fold S in Hsoft, Hstake.
  assert (Htne : tris <> []).
  { intros Hnil. rewrite Hnil in Hfaces. cbn [length] in Hfaces. lia. }
  destruct (soft_boundaries_shape cache_size threshold vertex_count tris Htne)
    as (_ & Ssorted & Sbound & _ & _ & Shead).
  fold H in Ssorted, Sbound, Shead. fold S in Ssorted, Sbound, Shead.
  rewrite Hfaces in Sbound.
  rewrite Hhard. cbn [mbind option_bind]. rewrite Hsoft. cbn [mbind option_bind].
  destruct (calculateSortData_run indices index_count vertex_count vertex_positions
              (vertex_positions_stride / 4) Hvalid Hpos sc (length S) S Hstake eq_refl
              Ssorted Sbound (replicate (length S) (mkSortData 0 F32.zero))
              vertex_positions_stride eq_refl Hne)
    as (sd & Hcalc & Hids); [apply length_replicate|].
  rewrite Hcalc. cbn [mbind option_bind].
  destruct (emit_loop_exact indices index_count vertex_count sc (length S) S (std_sort sd)
              destination Hvalid Hstake eq_refl Ssorted Sbound Shead)
    as (d' & Hrun & Hdlen & Hexact & Hframe).
  - rewrite Hsort. rewrite Hids. reflexivity.
  - exact Hdest.
  - rewrite Hrun. cbn [mbind option_bind].
    replace (assert (index_count =? index_count)%nat) with (Some tt)
      by (symmetry; apply assert_Some, Nat.eqb_refl).
    cbn [mbind option_bind]. exists hc, sc, sd, d'. auto 10.
Qed.

(** X14: on a non-empty valid input the output is the concatenation of the
    clusters in the order in which [std::sort] left the score array; cluster
    [c] is the run of triangles from soft boundary [c] to the next soft
    boundary (the triangle count for the last cluster), in their input order. *)
Theorem optimizeOverdraw_output_order
    (std_sort : list ClusterSortData -> list ClusterSortData)
    (destination : list Z) (indices_arg : IndexArg) (index_count : nat)
    (vertex_positions : list float) (vertex_count vertex_positions_stride : nat)
    (cache_size : Z) (threshold : float) :
  (forall l, std_sort l ≡ₚ l) ->
  valid_input (input_indices indices_arg destination index_count) index_count vertex_count ->
  (0 < vertex_positions_stride <= 256)%nat ->
  (vertex_positions_stride mod 4 = 0)%nat ->
  3 <= cache_size ->
  positions_ok vertex_positions (vertex_positions_stride / 4) vertex_count ->
  (index_count <= length destination)%nat ->
  index_count <> 0%nat ->
  let indices := input_indices indices_arg destination index_count in
  exists (hard_clusters : list Z) (hard_cluster_count : nat)
         (soft_clusters : list Z) (soft_cluster_count : nat)
         (sort_data : list ClusterSortData) (S : list nat) (destination' : list Z),
    generateHardBoundaries (replicate (index_count / 3) 0) indices index_count vertex_count
      cache_size = Some (hard_clusters, hard_cluster_count) /\
    generateSoftBoundaries (replicate (index_count / 3 + 1) 0) indices index_count vertex_count
      hard_clusters hard_cluster_count cache_size threshold
      = Some (soft_clusters, soft_cluster_count) /\
    take soft_cluster_count soft_clusters = Z.of_nat <$> S /\
    calculateSortData (replicate soft_cluster_count (mkSortData 0 F32.zero)) indices index_count
      vertex_positions vertex_positions_stride soft_clusters soft_cluster_count
      = Some sort_data /\
    meshopt_optimizeOverdraw std_sort destination indices_arg index_count vertex_positions
      vertex_count vertex_positions_stride cache_size threshold = Some destination' /\
    triangles (take index_count destination')
      = ((fun d => Z.to_nat (cluster d)) <$> std_sort sort_data) ≫= chunk (triangles indices) S /\
    (forall c b : nat, S !! c = Some b ->
       chunk (triangles indices) S c
       = take (default (index_count / 3)%nat (S !! (c + 1)%nat) - b)
           (drop b (triangles indices))).
Proof.
  intros Hsort Hvalid Hs H4 Hc Hpos Hdest Hne indices.
  destruct (optimizeOverdraw_run std_sort destination indices_arg index_count vertex_positions
              vertex_count vertex_positions_stride cache_size threshold Hsort Hvalid Hs H4 Hc
              Hpos Hdest Hne)
    as (hc & sc & sd & d' & Hhard & Hsoft & Htake & Hcalc & _ & Hrun & _ & _ & Hout).
  fold indices in Hhard, Hsoft, Htake, Hcalc, Hout.
  set (tris := triangles indices) in *.
  set (H := hard_boundaries cache_size vertex_count tris) in *.
  set (S := soft_boundaries cache_size threshold vertex_count tris H) in *.
  exists hc, (length H), sc, (length S), sd, S, d'.
  split; [exact Hhard|]. split; [exact Hsoft|]. split; [exact Htake|].
  split; [exact Hcalc|]. split; [exact Hrun|]. split; [exact Hout|].
  intros c b Hcb. unfold chunk.
  pose proof (valid_faces _ _ _ Hvalid) as Hfaces. fold indices in Hfaces. fold tris in Hfaces.
  rewrite (drop_S _ _ _ Hcb), Hfaces.
  replace (c + 1)%nat with (Datatypes.S c) by lia.
  destruct (drop (Datatypes.S c) S) as [|b' B'] eqn:Hd.
  - rewrite lookup_ge_None_2; [reflexivity|].
    apply (f_equal length) in Hd. rewrite length_drop in Hd. cbn [length] in Hd. lia.
  - assert (Hb' : S !! Datatypes.S c = Some b').
    { rewrite <- (Nat.add_0_r (Datatypes.S c)), <- lookup_drop, Hd. reflexivity. }
    rewrite Hb'. reflexivity.
Qed.

Lemma optimizeOverdraw_output_order_witness :
  exists (sort_data : list ClusterSortData) (S : list nat) (destination' : list Z),
    calculateSortData (replicate 2 (mkSortData 0 F32.zero)) mesh_indices 15 mesh_positions 12
      mesh_soft_clusters 2 = Some sort_data /\
    meshopt_optimizeOverdraw insertion_sort (replicate 15 0) (OtherBuffer mesh_indices) 15
      mesh_positions 7 12 16 F32.one = Some destination' /\
    triangles (take 15 destination')
      = ((fun d => Z.to_nat (cluster d)) <$> insertion_sort sort_data)
          ≫= chunk (triangles mesh_indices) S.
Proof.
  destruct (optimizeOverdraw_output_order insertion_sort (replicate 15 0)
              (OtherBuffer mesh_indices) 15 mesh_positions 7 12 16 F32.one)
    as (hc & hn & sc & sn & sd & S & d' & Hh & Hs & _ & Hc & Hrun & Hout & _).
  - exact insertion_sort_perm.
  - exact mesh_valid.
  - lia.
  - reflexivity.
  - lia.
  - exact mesh_positions_ok.
  - cbn. lia.
  - lia.
  - cbn [input_indices] in *.
    assert (Eh : generateHardBoundaries (replicate (15 / 3) 0) mesh_indices 15 7 16
                 = Some (mesh_hard_clusters, 2%nat)) by (vm_compute; reflexivity).
    rewrite Eh in Hh. injection Hh as <- <-.
    assert (Es : generateSoftBoundaries (replicate (15 / 3 + 1) 0) mesh_indices 15 7
                   mesh_hard_clusters 2 16 F32.one = Some (mesh_soft_clusters, 2%nat))
      by (vm_compute; reflexivity).
    rewrite Es in Hs. injection Hs as <- <-.
    exists sd, S, d'. auto.
Defined.

(** X15: running in place gives the same [index_count] output indices as
    running from a separate index buffer with the same contents into any
    other destination; each run leaves the rest of its destination alone. *)
Theorem optimizeOverdraw_in_place
    (std_sort : list ClusterSortData -> list ClusterSortData)
    (destination other : list Z) (index_count : nat)
    (vertex_positions : list float) (vertex_count vertex_positions_stride : nat)
    (cache_size : Z) (threshold : float) :
  (forall l, std_sort l ≡ₚ l) ->
  valid_input (take index_count destination) index_count vertex_count ->
  (0 < vertex_positions_stride <= 256)%nat ->
  (vertex_positions_stride mod 4 = 0)%nat ->
  3 <= cache_size ->
  positions_ok vertex_positions (vertex_positions_stride / 4) vertex_count ->
  (index_count <= length other)%nat ->
  exists d1 d2 : list Z,
    meshopt_optimizeOverdraw std_sort destination SameAsDestination index_count
      vertex_positions vertex_count vertex_positions_stride cache_size threshold = Some d1 /\
    meshopt_optimizeOverdraw std_sort other (OtherBuffer (take index_count destination))
      index_count vertex_positions vertex_count vertex_positions_stride cache_size threshold
      = Some d2 /\
    take index_count d1 = take index_count d2 /\
    drop index_count d1 = drop index_count destination /\
    drop index_count d2 = drop index_count other.
Proof.
  intros Hsort Hvalid Hs H4 Hc Hpos Hother.
  pose proof (vi_triangles _ _ _ Hvalid) as H3.
  pose proof (vi_length _ _ _ Hvalid) as Hlen.
  assert (Hdest : (index_count <= length destination)%nat).
  { rewrite length_take in Hlen. lia. }
  destruct (Nat.eq_dec index_count 0%nat) as [H0|Hne].
  { destruct (asserts_pass index_count vertex_positions_stride cache_size H3 Hs H4 Hc)
      as (A1 & A2 & A3 & A4).
    exists destination, other. unfold meshopt_optimizeOverdraw.
    rewrite A1, A2, A3, A4. cbn [mbind option_bind]. rewrite H0. cbn [Nat.eqb orb].
    rewrite !take_0. auto. }
  destruct (optimizeOverdraw_run std_sort destination SameAsDestination index_count
              vertex_positions vertex_count vertex_positions_stride cache_size threshold
              Hsort Hvalid Hs H4 Hc Hpos Hdest Hne)
    as (hc1 & sc1 & sd1 & d1 & Hhard1 & Hsoft1 & _ & Hcalc1 & _ & Hrun1 & Hl1 & Hf1 & Hout1).
  destruct (optimizeOverdraw_run std_sort other (OtherBuffer (take index_count destination))
              index_count vertex_positions vertex_count vertex_positions_stride cache_size
              threshold Hsort Hvalid Hs H4 Hc Hpos Hother Hne)
    as (hc2 & sc2 & sd2 & d2 & Hhard2 & Hsoft2 & _ & Hcalc2 & _ & Hrun2 & Hl2 & Hf2 & Hout2).
  cbn [input_indices] in *.
  rewrite Hhard1 in Hhard2. injection Hhard2 as <-.
  rewrite Hsoft1 in Hsoft2. injection Hsoft2 as <-.
  rewrite Hcalc1 in Hcalc2. injection Hcalc2 as <-.
  exists d1, d2. split; [exact Hrun1|]. split; [exact Hrun2|].
  split; [|split; assumption].
  rewrite <- (untriangles_triangles (take index_count d1)),
          <- (untriangles_triangles (take index_count d2)).
  - rewrite Hout1, Hout2. reflexivity.
  - rewrite length_take. lia.
  - rewrite length_take. lia.
Qed.

Lemma optimizeOverdraw_in_place_witness :
  exists d1 d2 : list Z,
    meshopt_optimizeOverdraw insertion_sort mesh_indices SameAsDestination 15
      mesh_positions 7 12 16 F32.one = Some d1 /\
    meshopt_optimizeOverdraw insertion_sort (replicate 20 0)
      (OtherBuffer (take 15 mesh_indices)) 15 mesh_positions 7 12 16 F32.one = Some d2 /\
    take 15 d1 = take 15 d2 /\
    drop 15 d1 = drop 15 mesh_indices /\
    drop 15 d2 = drop 15 (replicate 20 0).
Proof.
  apply (optimizeOverdraw_in_place insertion_sort mesh_indices (replicate 20 0) 15
           mesh_positions 7 12 16 F32.one).
  - exact insertion_sort_perm.
  - exact mesh_valid.
  - lia.
  - reflexivity.
  - lia.
  - exact mesh_positions_ok.
  - cbn. lia.
Defined.

(** X16: a mesh of one triangle is copied to the output unchanged, whatever
    its positions are (the triangle may be degenerate and its score NaN). *)
Theorem optimizeOverdraw_single_triangle
    (std_sort : list ClusterSortData -> list ClusterSortData)
    (destination : list Z) (indices_arg : IndexArg)
    (vertex_positions : list float) (vertex_count vertex_positions_stride : nat)
    (cache_size : Z) (threshold : float) :
  (forall l, std_sort l ≡ₚ l) ->
  valid_input (input_indices indices_arg destination 3) 3 vertex_count ->
  (0 < vertex_positions_stride <= 256)%nat ->
  (vertex_positions_stride mod 4 = 0)%nat ->
  3 <= cache_size ->
  positions_ok vertex_positions (vertex_positions_stride / 4) vertex_count ->
  (3 <= length destination)%nat ->
  exists destination',
    meshopt_optimizeOverdraw std_sort destination indices_arg 3 vertex_positions
      vertex_count vertex_positions_stride cache_size threshold = Some destination' /\
    take 3 destination' = input_indices indices_arg destination 3 /\
    drop 3 destination' = drop 3 destination.
Proof.
  intros Hsort Hvalid Hs H4 Hc Hpos Hdest.
  destruct (optimizeOverdraw_run std_sort destination indices_arg 3 vertex_positions
              vertex_count vertex_positions_stride cache_size threshold Hsort Hvalid Hs H4 Hc
              Hpos Hdest) as (hc & sc & sd & d' & _ & _ & _ & _ & Hids & Hrun & Hl & Hf & Hout);
    [lia|].
  set (indices := input_indices indices_arg destination 3) in *.
  set (tris := triangles indices) in *.
  pose proof (valid_faces _ _ _ Hvalid) as Hfaces. fold tris in Hfaces.
  change (3 / 3)%nat with 1%nat in Hfaces.
  assert (Htne : tris <> []) by (intros E; rewrite E in Hfaces; discriminate Hfaces).
  destruct (soft_boundaries_shape cache_size threshold vertex_count tris Htne)
    as (_ & _ & _ & Hcount & _ & Shead).
  set (S := soft_boundaries _ _ _ _ _) in *.
  assert (HS : S = [0%nat]).
  { destruct S as [|b [|b' S']]; cbn [length head] in Hcount, Shead;
      [discriminate Shead | | lia].
    injection Shead as ->. reflexivity. }
  rewrite HS in Hids, Hout. cbn [length seq] in Hids.
  assert (Hsd : cluster <$> std_sort sd = [0]).
  { apply Permutation_singleton_r. change [0] with (Z.of_nat <$> [0%nat]).
    rewrite <- Hids. apply fmap_Permutation, Hsort. }
  assert (Hid : (fun d => Z.to_nat (cluster d)) <$> std_sort sd = [0%nat]).
  { rewrite (list_fmap_compose cluster Z.to_nat), Hsd. reflexivity. }
  rewrite Hid in Hout. rewrite bind_singleton in Hout.
  unfold chunk in Hout. cbn [drop region_end] in Hout.
  rewrite Nat.sub_0_r, drop_0, firstn_all in Hout.
  exists d'. split; [exact Hrun|]. split; [|exact Hf].
  rewrite <- (untriangles_triangles (take 3 d')), Hout.
  - apply untriangles_triangles. rewrite (vi_length _ _ _ Hvalid). reflexivity.
  - rewrite length_take. rewrite Hl. replace (3 `min` length destination)%nat with 3%nat by lia.
    reflexivity.
Qed.

Lemma optimizeOverdraw_single_triangle_witness :
  exists destination',
    meshopt_optimizeOverdraw insertion_sort [9; 9; 9; 9] (OtherBuffer [0; 1; 2]) 3
      far_positions 3 12 16 F32.one = Some destination' /\
    take 3 destination' = [0; 1; 2] /\
    drop 3 destination' = [9].
Proof.
  apply (optimizeOverdraw_single_triangle insertion_sort [9; 9; 9; 9] (OtherBuffer [0; 1; 2])
           far_positions 3 12 16 F32.one).
  - exact insertion_sort_perm.
  - constructor; [reflexivity | reflexivity | | reflexivity].
    repeat constructor; lia.
  - lia.
  - reflexivity.
  - lia.
  - intros v Hv. change (3 * v + 2 < 9)%nat. lia.
  - cbn. lia.
Defined.
